(** * Streak asset generator: the palette builder, the frame renderers and
      the GIF quantizer of [scripts/generate-streak-assets.py]

    The script's numbers are Python [int]s and [float]s.  An [int] is a [Z];
    a [float] is an IEEE 754 binary64 value, modelled by Rocq's primitive
    [float] (same format, same round-to-nearest-even arithmetic).  Lists and
    images are Python objects: they live in a store and are passed by
    reference.  The imaging library (Pillow) and the C math library are
    interfaces ([Imaging], [Libm]); the script's own functions are written
    over them. *)

From Stdlib Require Import ZArith List Floats Lia Bool String Permutation.
From stdpp Require Import base list sorting.

Set Warnings "-inexact-float".

Local Open Scope Z_scope.

(** ** Binary64: how large a rounded result can be

    [dg m] is the number of binary digits of a mantissa; a finite float
    [m * 2^e] has magnitude below [2^(dg m + e)].  The lemmas of this section
    bound that exponent through the rounding steps of [SpecFloat], which is
    all that the totality results below need: a product or a sum of small
    floats is finite, so [round] and [int] accept it. *)

Lemma digits2_pos_log2 (p : positive) : Zpos (digits2_pos p) = Z.log2 (Zpos p) + 1.
Proof.
  induction p as [p IH|p IH|]; simpl digits2_pos; try reflexivity.
  - rewrite Pos2Z.inj_succ, IH.
    change (Z.pos p~1) with (2 * Z.pos p + 1). rewrite Z.log2_succ_double by lia. lia.
  - rewrite Pos2Z.inj_succ, IH.
    change (Z.pos p~0) with (2 * Z.pos p). rewrite Z.log2_double by lia. lia.
Qed.

Definition dg (m : Z) : Z := Zdigits2 m.

Lemma dg_pos (p : positive) : dg (Zpos p) = Z.log2 (Zpos p) + 1.
Proof. apply digits2_pos_log2. Qed.

Lemma dg_nonneg m : 0 <= dg m.
Proof. destruct m; simpl; lia. Qed.

Lemma dg_mono a b : 0 <= a <= b -> dg a <= dg b.
Proof.
  intros [Ha Hab]. destruct a as [|a|a]; [apply dg_nonneg| |lia].
  destruct b as [|b|b]; try lia. rewrite !dg_pos.
  pose proof (Z.log2_le_mono (Zpos a) (Zpos b)). lia.
Qed.

Lemma dg_succ a : 0 <= a -> dg (a + 1) <= dg a + 1.
Proof.
  intros Ha. destruct a as [|a|a]; [simpl; lia| |lia].
  replace (Z.pos a + 1) with (Z.pos (a + 1)) by lia. rewrite !dg_pos.
  replace (Z.pos (a + 1)) with (Z.succ (Z.pos a)) by lia.
  pose proof (Z.log2_succ_le (Z.pos a)). lia.
Qed.

Lemma dg_shiftr a n : 0 <= a -> 0 <= n -> dg (Z.shiftr a n) = Z.max 0 (dg a - n).
Proof.
  intros Ha Hn. destruct a as [|a|a]; [|clear Ha|lia].
  - rewrite Z.shiftr_0_l. simpl. lia.
  - pose proof (Z.shiftr_nonneg (Zpos a) n) as Hs.
    pose proof (Z.log2_shiftr (Zpos a) n ltac:(lia)) as Hl.
    rewrite dg_pos.
    destruct (Z.shiftr (Z.pos a) n) as [|q|q] eqn:E.
    + change (dg 0) with 0.
      assert (Z.log2 (Zpos a) < n); [|lia].
      destruct (Z.lt_ge_cases (Z.log2 (Zpos a)) n) as [|Hge]; auto.
      exfalso. pose proof (Z.shiftr_eq_0_iff (Zpos a) n) as Hz.
      apply Hz in E. destruct E as [E|[_ E]]; lia.
    + rewrite dg_pos. 
      assert (n <= Z.log2 (Zpos a)).
      { destruct (Z.le_gt_cases n (Z.log2 (Zpos a))) as [|Hlt]; auto.
        exfalso. assert (Z.shiftr (Zpos a) n = 0); [|lia].
        apply Z.shiftr_eq_0; lia. }
      lia.
    + lia.
Qed.

Lemma dg_shiftl a n : 0 < a -> 0 <= n -> dg (Z.shiftl a n) = dg a + n.
Proof.
  intros Ha Hn. destruct a as [|a|a]; try lia.
  pose proof (Z.log2_shiftl (Zpos a) n ltac:(lia) Hn) as Hl.
  assert (0 < Z.shiftl (Zpos a) n). { rewrite Z.shiftl_mul_pow2 by lia. pose proof (Z.pow_pos_nonneg 2 n). lia. }
  destruct (Z.shiftl (Z.pos a) n) as [|q|q] eqn:E; try lia.
  rewrite !dg_pos. lia.
Qed.

Lemma dg_mul a b : 0 < a -> 0 < b -> dg (a * b) <= dg a + dg b.
Proof.
  intros Ha Hb. destruct a as [|a|a]; try lia. destruct b as [|b|b]; try lia.
  change (Z.pos a * Z.pos b) with (Z.pos (a * b)). rewrite !dg_pos.
  replace (Z.pos (a * b)) with (Z.pos a * Z.pos b) by lia.
  pose proof (Z.log2_mul_above (Zpos a) (Zpos b)). lia.
Qed.

Lemma dg_lt_pow a : 0 <= a -> a < 2 ^ dg a.
Proof.
  intros Ha. destruct a as [|a|a]; [simpl; lia| |lia].
  rewrite dg_pos. pose proof (Z.log2_spec (Zpos a)). 
  replace (Z.log2 (Z.pos a) + 1) with (Z.succ (Z.log2 (Z.pos a))) by lia. lia.
Qed.

Lemma dg_le_of_lt_pow a k : 0 <= a -> 0 <= k -> a < 2 ^ k -> dg a <= k.
Proof.
  intros Ha Hk Hlt. destruct a as [|a|a]; [simpl; lia| |lia].
  rewrite dg_pos. assert (Z.log2 (Zpos a) < k); [|lia].
  apply Z.log2_lt_pow2; lia.
Qed.

Lemma dg_add a b : 0 <= a -> 0 <= b -> dg (a + b) <= Z.max (dg a) (dg b) + 1.
Proof.
  intros Ha Hb. pose proof (dg_nonneg a). pose proof (dg_nonneg b).
  apply dg_le_of_lt_pow; try lia.
  pose proof (dg_lt_pow a Ha). pose proof (dg_lt_pow b Hb).
  assert (2 ^ dg a <= 2 ^ Z.max (dg a) (dg b)) by (apply Z.pow_le_mono_r; lia).
  assert (2 ^ dg b <= 2 ^ Z.max (dg a) (dg b)) by (apply Z.pow_le_mono_r; lia).
  rewrite Z.pow_add_r by lia. lia.
Qed.

(** Rounding *)
Abbreviation fexp64 := (fexp prec emax).

Lemma fexp64_eq k : fexp64 k = Z.max (k - 53) (-1074).
Proof. reflexivity. Qed.

Definition mag_le (K : Z) (x : spec_float) : Prop :=
  match x with
  | S754_zero _ => True
  | S754_finite _ m e => dg (Zpos m) + e <= K
  | _ => False
  end.

Lemma mag_le_mono K K' x : mag_le K x -> K <= K' -> mag_le K' x.
Proof. destruct x; simpl; auto; lia. Qed.

Lemma shr_1_m r : 0 <= shr_m r -> shr_m (shr_1 r) = Z.div2 (shr_m r).
Proof. destruct r as [[|[p|p|]|p] b s]; simpl; intros; try reflexivity; lia. Qed.

Lemma iter_shr_1 p : forall r, 0 <= shr_m r ->
  shr_m (SpecFloat.iter_pos shr_1 p r) = Z.shiftr (shr_m r) (Zpos p).
Proof.
  induction p as [p IH|p IH|]; intros r Hr; simpl SpecFloat.iter_pos.
  - assert (H1 : 0 <= shr_m (shr_1 r)).
    { rewrite shr_1_m by auto. apply Z.div2_nonneg; auto. }
    assert (H2 : 0 <= shr_m (SpecFloat.iter_pos shr_1 p (shr_1 r))).
    { rewrite IH by auto. apply Z.shiftr_nonneg; auto. }
    rewrite IH by auto. rewrite IH by auto. rewrite shr_1_m by auto.
    rewrite Z.div2_spec, !Z.shiftr_shiftr by lia. f_equal. lia.
  - assert (H2 : 0 <= shr_m (SpecFloat.iter_pos shr_1 p r)).
    { rewrite IH by auto. apply Z.shiftr_nonneg; auto. }
    rewrite IH by auto. rewrite IH by auto.
    rewrite !Z.shiftr_shiftr by lia. f_equal. lia.
  - rewrite shr_1_m, Z.div2_spec; auto.
Qed.

Lemma shr_m_of_loc m l : shr_m (shr_record_of_loc m l) = m.
Proof. destruct l as [|[]]; reflexivity. Qed.

Lemma shr_fexp_spec m e l : 0 <= m ->
  exists r e', shr_fexp prec emax m e l = (r, e') /\
    ((shr_m r = m /\ e' = e /\ loc_of_shr_record r = l) \/
     (e < e' /\ e' = fexp64 (dg m + e) /\ shr_m r = Z.shiftr m (e' - e))).
Proof.
  intros Hm. unfold shr_fexp, shr. fold (dg m).
  destruct (fexp64 (dg m + e) - e) as [|n|n] eqn:E.
  - eexists _, _; split; [reflexivity|left].
    rewrite shr_m_of_loc. destruct l as [|[]]; auto.
  - eexists _, _; split; [reflexivity|right].
    rewrite iter_shr_1 by (rewrite shr_m_of_loc; auto).
    rewrite shr_m_of_loc. split; [lia|]. split; [lia|]. f_equal. lia.
  - eexists _, _; split; [reflexivity|left].
    rewrite shr_m_of_loc. destruct l as [|[]]; auto.
Qed.

Lemma round_nearest_even_bounds m l : m <= round_nearest_even m l <= m + 1.
Proof. destruct l as [|[]]; simpl; try lia. destruct (Z.even m); lia. Qed.

(** After one [shr_fexp] the magnitude [dg m + e] is kept or the mantissa is
    empty. *)
Lemma shr_fexp_mag m e l r e' : 0 <= m -> shr_fexp prec emax m e l = (r, e') ->
  0 <= shr_m r /\
  (shr_m r = 0 \/ dg (shr_m r) + e' = dg m + e) /\
  e' <= Z.max e (fexp64 (dg m + e)).
Proof.
  intros Hm Heq. destruct (shr_fexp_spec m e l Hm) as (r0 & e0 & H0 & Hc).
  rewrite Heq in H0. inversion H0; subst r0 e0; clear H0.
  destruct Hc as [(-> & -> & _)|(Hlt & He & ->)].
  - split; [auto|]. split; [auto|lia].
  - split; [apply Z.shiftr_nonneg; auto|]. split; [|lia].
    pose proof (dg_shiftr m (e' - e) Hm ltac:(lia)) as Hd.
    destruct (Z.eq_dec (Z.shiftr m (e' - e)) 0) as [|Hnz]; [auto|right].
    rewrite Hd. assert (0 < dg (Z.shiftr m (e' - e))); [|lia].
    pose proof (Z.shiftr_nonneg m (e' - e)).
    destruct (Z.shiftr m (e' - e)) as [|q|q]; try lia.
    rewrite dg_pos. pose proof (Z.log2_nonneg (Zpos q)). lia.
Qed.

Lemma binary_round_aux_mag sx mx ex lx K :
  0 < mx -> dg mx + ex <= K -> -1074 <= K <= 971 ->
  mag_le (K + 1) (binary_round_aux prec emax sx mx ex lx).
Proof.
  intros Hm Hmag HK. unfold binary_round_aux.
  destruct (shr_fexp prec emax mx ex lx) as [r1 e1] eqn:E1.
  destruct (shr_fexp_mag mx ex lx r1 e1 ltac:(lia) E1) as (Hr1 & Hm1 & He1).
  set (m1 := round_nearest_even (shr_m r1) (loc_of_shr_record r1)).
  pose proof (round_nearest_even_bounds (shr_m r1) (loc_of_shr_record r1)) as Hb.
  fold m1 in Hb.
  destruct (shr_fexp prec emax m1 e1 loc_Exact) as [r2 e2] eqn:E2.
  destruct (shr_fexp_mag m1 e1 loc_Exact r2 e2 ltac:(lia) E2) as (Hr2 & Hm2 & He2).
  assert (Hmag1 : dg m1 + e1 <= K + 1).
  { destruct Hm1 as [Hz|Hk].
    - rewrite Hz in Hb. assert (Hd : dg m1 <= 1).
      { assert (m1 = 0 \/ m1 = 1) as [->| ->] by lia; simpl; lia. }
      rewrite fexp64_eq in He1.
      destruct (shr_fexp_spec mx ex lx ltac:(lia)) as (r0 & e0 & H0 & Hc).
      rewrite E1 in H0. inversion H0; subst r0 e0; clear H0.
      destruct Hc as [(Hc & _)|(_ & Hc & _)]; [lia|].
      rewrite fexp64_eq in Hc. lia.
    - pose proof (dg_mono m1 (shr_m r1 + 1) ltac:(lia)).
      pose proof (dg_succ (shr_m r1) Hr1). lia. }
  destruct (shr_m r2) as [|m2|m2] eqn:Em2; [exact I| |lia].
  destruct Hm2 as [|Hm2]; [lia|].
  assert (1 <= dg (Zpos m2)) by (rewrite dg_pos; pose proof (Z.log2_nonneg (Zpos m2)); lia).
  assert (He : e2 <= 971) by lia.
  apply Z.leb_le in He. change (Z.sub emax prec) with 971. rewrite He.
  unfold mag_le. lia.
Qed.

Lemma SFmul_mag x y Kx Ky :
  mag_le Kx x -> mag_le Ky y -> -1074 <= Kx + Ky <= 971 ->
  mag_le (Kx + Ky + 1) (SF64mul x y).
Proof.
  destruct x as [sx|sx| |sx mx ex], y as [sy|sy| |sy my ey];
    unfold SF64mul; cbn [SFmul mag_le]; try tauto.
  intros Hx Hy HK. 
  assert (Hd : dg (Z.pos (mx * my)) <= dg (Zpos mx) + dg (Zpos my)).
  { apply (dg_mul (Zpos mx) (Zpos my)); lia. }
  apply binary_round_aux_mag; lia.
Qed.

Lemma iter_xO m d : Zpos (Pos.iter xO m d) = Z.shiftl (Zpos m) (Zpos d).
Proof.
  rewrite Z.shiftl_mul_pow2 by lia.
  induction d as [|d IH] using Pos.peano_ind.
  - change (Pos.iter xO m 1) with (m~0)%positive. lia.
  - rewrite Pos.iter_succ. rewrite Pos2Z.inj_xO, IH.
    rewrite Pos2Z.inj_succ, Z.pow_succ_r by lia. lia.
Qed.

Lemma binary_round_mag sx mx ex K :
  dg (Zpos mx) + ex <= K -> -1074 <= K <= 971 ->
  mag_le (K + 1) (binary_round prec emax sx mx ex).
Proof.
  intros Hmag HK. unfold binary_round, shl_align.
  change (Z.pos (digits2_pos mx)) with (dg (Zpos mx)).
  destruct (fexp64 (dg (Zpos mx) + ex) - ex) as [|d|d] eqn:E;
    try (apply binary_round_aux_mag; lia).
  apply binary_round_aux_mag; try lia.
  rewrite iter_xO, dg_shiftl by lia. lia.
Qed.

Lemma binary_normalize_mag m e sz K :
  dg (Z.abs m) + e <= K -> -1074 <= K <= 971 ->
  mag_le (K + 1) (binary_normalize prec emax m e sz).
Proof.
  destruct m as [|m|m]; simpl; auto; intros; apply binary_round_mag; auto.
Qed.

Lemma SFadd_mag x y Kx Ky :
  mag_le Kx x -> mag_le Ky y -> -1074 <= Kx <= 970 -> -1074 <= Ky <= 970 ->
  mag_le (Z.max Kx Ky + 2) (SF64add x y).
Proof.
  destruct x as [sx|sx| |sx mx ex], y as [sy|sy| |sy my ey];
    unfold SF64add; cbn [SFadd mag_le]; try tauto.
  - destruct sx, sy; simpl; auto.
  - lia.
  - lia.
  - intros Hx Hy HKx HKy.
    replace (Z.max Kx Ky + 2) with ((Z.max Kx Ky + 1) + 1) by lia.
    apply binary_normalize_mag; [|lia].
    set (ez := Z.min ex ey).
    assert (Hax : forall m e, ez <= e -> 
              dg (Zpos (fst (shl_align m e ez))) + ez = dg (Zpos m) + e).
    { intros m e He. unfold shl_align.
      destruct (ez - e) as [|d|d] eqn:E; simpl fst; try lia.
      rewrite iter_xO, dg_shiftl by lia. lia. }
    pose proof (Hax mx ex ltac:(lia)) as Hx'. pose proof (Hax my ey ltac:(lia)) as Hy'.
    set (a := Zpos (fst (shl_align mx ex ez))) in *.
    set (b := Zpos (fst (shl_align my ey ez))) in *.
    assert (Habs : Z.abs (cond_Zopp sx a + cond_Zopp sy b) <= a + b).
    { destruct sx, sy; unfold cond_Zopp, a, b; lia. }
    pose proof (dg_mono _ _ (conj (Z.abs_nonneg (cond_Zopp sx a + cond_Zopp sy b)) Habs)).
    pose proof (dg_add a b ltac:(unfold a; lia) ltac:(unfold b; lia)). lia.
Qed.


(** Rounding an integer mantissa gives a float in standard form. *)
Lemma shr_fexp_shift m e l r e' :
  0 <= m -> e <= fexp64 (dg m + e) -> shr_fexp prec emax m e l = (r, e') ->
  e' = fexp64 (dg m + e) /\ shr_m r = Z.shiftr m (e' - e).
Proof.
  intros Hm He Heq. destruct (shr_fexp_spec m e l Hm) as (r0 & e0 & H0 & Hc).
  rewrite Heq in H0. inversion H0; subst r0 e0; clear H0.
  destruct Hc as [(Hr & -> & _)|(Hlt & -> & Hr)].
  - assert (Hn : fexp64 (dg m + e) - e <= 0).
    { unfold shr_fexp, shr in Heq. fold (dg m) in Heq.
      destruct (fexp64 (dg m + e) - e) as [|n|n] eqn:E; try lia.
      exfalso. inversion Heq as [[Hr' He']]. lia. }
    assert (fexp64 (dg m + e) = e) as -> by lia.
    split; [reflexivity|]. rewrite Z.sub_diag, Z.shiftr_0_r. exact Hr.
  - auto.
Qed.

Lemma binary_round_aux_valid sx m e l :
  0 < m -> e <= fexp64 (dg m + e) ->
  valid_binary (binary_round_aux prec emax sx m e l) = true.
Proof.
  intros Hm He. unfold binary_round_aux.
  destruct (shr_fexp prec emax m e l) as [r1 e1] eqn:E1.
  destruct (shr_fexp_shift m e l r1 e1 ltac:(lia) He E1) as [-> Hr1].
  set (F := fexp64 (dg m + e)) in *.
  set (m1 := round_nearest_even (shr_m r1) (loc_of_shr_record r1)).
  pose proof (round_nearest_even_bounds (shr_m r1) (loc_of_shr_record r1)) as Hb.
  fold m1 in Hb.
  assert (Hm' : 0 <= shr_m r1) by (rewrite Hr1; apply Z.shiftr_nonneg; lia).
  pose proof (dg_shiftr m (F - e) ltac:(lia) ltac:(lia)) as Hd'. rewrite <- Hr1 in Hd'.
  pose proof (dg_mono (shr_m r1) m1 ltac:(lia)) as Hd1.
  destruct (shr_fexp prec emax m1 F loc_Exact) as [r2 e2] eqn:E2.
  destruct (shr_fexp_spec m1 F loc_Exact ltac:(lia)) as (r0 & e0 & H0 & Hc).
  rewrite E2 in H0. inversion H0; subst r0 e0; clear H0.
  destruct (shr_m r2) as [|p|p] eqn:Ep; try reflexivity.
  destruct (e2 <=? emax - prec) eqn:Ee; [|reflexivity].
  cbn [SpecFloat.valid_binary]. unfold bounded, canonical_mantissa.
  rewrite Ee, andb_true_r. apply Z.eqb_eq.
  change (Z.pos (digits2_pos p)) with (dg (Zpos p)).
  destruct Hc as [(Hr2 & -> & _)|(Hlt & -> & Hr2)].
  - (* no second shift *)
    assert (Hn : fexp64 (dg m1 + F) - F <= 0).
    { unfold shr_fexp, shr in E2. fold (dg m1) in E2.
      destruct (fexp64 (dg m1 + F) - F) as [|n|n] eqn:E; try lia.
      exfalso. inversion E2 as [[Hr' He']]. lia. }
    rewrite Hr2.
    rewrite fexp64_eq in *. unfold F in *. rewrite fexp64_eq in *. lia.
  - pose proof (dg_shiftr m1 (fexp64 (dg m1 + F) - F) ltac:(lia) ltac:(lia)) as Hd2.
    rewrite <- Hr2 in Hd2.
    assert (1 <= dg (Zpos p)) by (rewrite dg_pos; pose proof (Z.log2_nonneg (Zpos p)); lia).
    assert (dg (Z.pos p) + fexp64 (dg m1 + F) = dg m1 + F) as -> by lia.
    reflexivity.
Qed.

Lemma binary_round_valid sx mx ex :
  valid_binary (binary_round prec emax sx mx ex) = true.
Proof.
  unfold binary_round, shl_align.
  change (Z.pos (digits2_pos mx)) with (dg (Zpos mx)).
  destruct (fexp64 (dg (Zpos mx) + ex) - ex) as [|d|d] eqn:E;
    try (apply binary_round_aux_valid; lia).
  apply binary_round_aux_valid; [lia|].
  rewrite iter_xO, dg_shiftl by lia.
  replace (dg (Z.pos mx) + Z.pos d + fexp64 (dg (Z.pos mx) + ex))
    with (dg (Zpos mx) + ex) by lia. lia.
Qed.

Lemma binary_normalize_valid m e sz :
  valid_binary (binary_normalize prec emax m e sz) = true.
Proof. destruct m; simpl; auto using binary_round_valid. Qed.

Arguments dg : simpl never.

(** ** Python values: exceptions, [int] and [float]

    A call either returns or raises.  [max] and [min] keep their first
    argument unless the second compares strictly greater (smaller), which is
    what decides their result on a NaN. *)

Inductive exn :=
  ValueError | OverflowError | ZeroDivisionError | IndexError | TypeError | SystemError.

Inductive result (A : Type) := Ok (a : A) | Raise (e : exn).
Arguments Ok {A} a.
Arguments Raise {A} e.

Definition rbind {A B} (m : result A) (f : A -> result B) : result B :=
  match m with
  | Ok a => f a
  | Raise e => Raise e
  end.

Notation "'let?' x := m 'in' k" := (rbind m (fun x => k))
  (at level 10, x name, m at level 100, k at level 200).

Local Open Scope float_scope.

(** [math.pi] *)
Definition pi : float := 0x1.921fb54442d18p+1.

(** [max(a, b)] and [min(a, b)] on floats *)
Definition py_max (a b : float) : float := if a <? b then b else a.
Definition py_min (a b : float) : float := if b <? a then b else a.

(** [clamp(value, low, high) = max(low, min(high, value))].  At an integer
    bound ([0], [255]) Python compares the [int] with the [float] exactly;
    the bound is then the float of the same value. *)
Definition clamp (value low high : float) : float :=
  py_max low (py_min high value).

(** [clamp] on three [int]s (the crop offset of the flame). *)
Definition clamp_int (value low high : Z) : Z := Z.max low (Z.min high value).

(** The float nearest to an [int], ties to even. *)
Definition Z2F (z : Z) : float := SF2Prim (binary_normalize prec emax z 0 false).

(** An [int] operand of a float operation is converted first; the conversion
    raises [OverflowError] when the nearest float would be infinite. *)
Definition float_of_int (z : Z) : result float :=
  match binary_normalize prec emax z 0 false with
  | S754_infinity _ => Raise OverflowError
  | sf => Ok (SF2Prim sf)
  end.

(** [x / y] on floats raises when the divisor is zero. *)
Definition py_div (x y : float) : result float :=
  if y =? 0 then Raise ZeroDivisionError else Ok (x / y).

(** [a / b] on two [int]s that are floats exactly. *)
Definition true_div (a b : Z) : result float :=
  if (b =? 0)%Z then Raise ZeroDivisionError else Ok (Z2F a / Z2F b).

(** [int(x)]: truncation toward zero. *)
Definition py_int (x : float) : result Z :=
  match Prim2SF x with
  | S754_nan => Raise ValueError
  | S754_infinity _ => Raise OverflowError
  | S754_zero _ => Ok 0%Z
  | S754_finite s m e =>
      Ok (cond_Zopp s (if (e <? 0)%Z then Zpos m / 2 ^ (- e) else Zpos m * 2 ^ e)%Z)
  end.

Definition round_half_even (m d : Z) : Z :=
  let q := (m / d)%Z in
  match (2 * (m mod d) ?= d)%Z with
  | Lt => q
  | Gt => (q + 1)%Z
  | Eq => if Z.even q then q else (q + 1)%Z
  end.

(** [round(x)]: the nearest [int], ties to even. *)
Definition round_sf (x : spec_float) : result Z :=
  match x with
  | S754_nan => Raise ValueError
  | S754_infinity _ => Raise OverflowError
  | S754_zero _ => Ok 0%Z
  | S754_finite s m e =>
      Ok (cond_Zopp s (if (e <? 0)%Z then round_half_even (Zpos m) (2 ^ (- e))
                       else Zpos m * 2 ^ e)%Z)
  end.

Definition py_round (x : float) : result Z := round_sf (Prim2SF x).

(** [lerp(a, b, t) = a + (b - a) * t] on two [int]s and a [float]. *)
Definition lerp (a b : Z) (t : float) : result float :=
  let? d := float_of_int (b - a) in
  let? a' := float_of_int a in
  Ok (a' + d * t).

Definition rgb : Type := Z * Z * Z.

Definition lerp_color (a b : rgb) (t : float) : result rgb :=
  let '(a0, a1, a2) := a in
  let '(b0, b1, b2) := b in
  let? x0 := lerp a0 b0 t in let? r := py_round x0 in
  let? x1 := lerp a1 b1 t in let? g := py_round x1 in
  let? x2 := lerp a2 b2 t in let? b := py_round x2 in
  Ok (r, g, b).

(** [int(clamp(c * brightness, 0, 255))] *)
Definition scale_channel (c : Z) (brightness : float) : result Z :=
  let? f := float_of_int c in
  py_int (clamp (f * brightness) 0 255).

(** *** Finite floats of bounded magnitude *)

Definition fin (K : Z) (x : float) : Prop := mag_le K (Prim2SF x).

Definition finb (K : Z) (x : float) : bool :=
  match Prim2SF x with
  | S754_zero _ => true
  | S754_finite _ m e => (dg (Zpos m) + e <=? K)%Z
  | _ => false
  end.

Lemma finb_fin K x : finb K x = true -> fin K x.
Proof.
  unfold finb, fin. destruct (Prim2SF x); simpl; try discriminate; auto.
  intros H. apply Z.leb_le in H. exact H.
Qed.

Lemma fin_mono K K' x : fin K x -> (K <= K')%Z -> fin K' x.
Proof. apply mag_le_mono. Qed.

Lemma fin_mul x y Kx Ky :
  fin Kx x -> fin Ky y -> (-1074 <= Kx + Ky <= 971)%Z -> fin (Kx + Ky + 1) (x * y).
Proof. unfold fin. rewrite mul_spec. apply SFmul_mag. Qed.

Lemma fin_add x y Kx Ky :
  fin Kx x -> fin Ky y -> (-1074 <= Kx <= 970)%Z -> (-1074 <= Ky <= 970)%Z ->
  fin (Z.max Kx Ky + 2) (x + y).
Proof. unfold fin. rewrite add_spec. apply SFadd_mag. Qed.

Lemma valid_digits_sf (x : float) s m e :
  Prim2SF x = S754_finite s m e -> (dg (Zpos m) <= 53 /\ -1074 <= e)%Z.
Proof.
  intros E. pose proof (Prim2SF_valid x) as V. rewrite E in V.
  unfold SpecFloat.valid_binary, bounded, canonical_mantissa in V.
  apply andb_prop in V. destruct V as [V _]. apply Z.eqb_eq in V.
  change (Z.pos (digits2_pos m)) with (dg (Zpos m)) in V.
  rewrite fexp64_eq in V. lia.
Qed.

Lemma py_int_fin K x : fin K x -> exists z, py_int x = Ok z.
Proof. unfold fin, py_int. destruct (Prim2SF x); simpl; try tauto; eauto. Qed.

Lemma round_half_even_bounds m d :
  (0 <= m)%Z -> (0 < d)%Z -> (0 <= round_half_even m d <= m + 1)%Z.
Proof.
  intros Hm Hd. unfold round_half_even.
  assert (0 <= m / d <= m)%Z.
  { split; [apply Z.div_pos; lia|]. apply Z.div_le_upper_bound; nia. }
  destruct (2 * (m mod d) ?= d)%Z; [destruct (Z.even (m / d))| |]; lia.
Qed.

(** [round] of a finite float returns, and the result is no larger than the
    float's magnitude bound allows. *)
Lemma py_round_fin K x :
  fin K x -> exists z, py_round x = Ok z /\ (Z.abs z <= 2 ^ Z.max K 54)%Z.
Proof.
  unfold fin, py_round, round_sf. destruct (Prim2SF x) as [s|s| |s m e] eqn:E; simpl; try tauto.
  - intros _. exists 0%Z. split; auto. simpl. pose proof (Z.pow_pos_nonneg 2 (Z.max K 54)). lia.
  - intros HK. eexists; split; [reflexivity|].
    destruct (valid_digits_sf _ _ _ _ E) as [Hd He].
    assert (Hp : (2 ^ 54 <= 2 ^ Z.max K 54)%Z) by (apply Z.pow_le_mono_r; lia).
    pose proof (dg_lt_pow (Zpos m) ltac:(lia)) as Hlt.
    assert (Hm : (Zpos m < 2 ^ 53)%Z).
    { eapply Z.lt_le_trans; [exact Hlt|]. apply Z.pow_le_mono_r; lia. }
    assert (Habs : forall v s, (0 <= v)%Z -> Z.abs (cond_Zopp s v) = v).
    { intros v [] Hv; simpl; lia. }
    destruct (e <? 0)%Z eqn:Ee.
    + apply Z.ltb_lt in Ee.
      pose proof (round_half_even_bounds (Zpos m) (2 ^ (- e)) ltac:(lia)
                    ltac:(apply Z.pow_pos_nonneg; lia)) as Hr.
      rewrite Habs by lia. change (2 ^ 54)%Z with (2 * 2 ^ 53)%Z in Hp. lia.
    + apply Z.ltb_ge in Ee.
      assert (H0 : (0 < 2 ^ e)%Z) by (apply Z.pow_pos_nonneg; lia).
      rewrite Habs by nia.
      assert (Zpos m * 2 ^ e < 2 ^ (dg (Zpos m) + e))%Z.
      { rewrite Z.pow_add_r by (pose proof (dg_nonneg (Zpos m)); lia). nia. }
      assert (2 ^ (dg (Zpos m) + e) <= 2 ^ Z.max K 54)%Z
        by (apply Z.pow_le_mono_r; lia).
      lia.
Qed.

(** *** What [clamp] returns *)

Lemma clamp_cases v lo hi :
  (lo <? hi) = true ->
  clamp v lo hi = lo \/ clamp v lo hi = hi \/
  (clamp v lo hi = v /\ (lo <? v) = true /\ (v <? hi) = true).
Proof.
  intros Hlh. unfold clamp, py_max, py_min.
  destruct (v <? hi) eqn:E1.
  - destruct (lo <? v) eqn:E2; auto.
  - rewrite Hlh. auto.
Qed.

(** A float strictly between [0] and a positive float [mh * 2^eh]. *)
Lemma between_finite (v h : float) mh eh :
  Prim2SF h = S754_finite false mh eh ->
  (0 <? v) = true -> (v <? h) = true ->
  exists m e, Prim2SF v = S754_finite false m e /\
     (dg (Zpos m) <= 53)%Z /\ ((e < eh)%Z \/ (e = eh /\ Zpos m < Zpos mh)%Z).
Proof.
  intros Hh H0 Hv. rewrite ltb_spec in H0, Hv. rewrite Hh in Hv.
  change (Prim2SF 0) with (S754_zero false) in H0.
  destruct (Prim2SF v) as [s|s| |s m e] eqn:E; unfold SFltb in *; simpl in *;
    try discriminate.
  - destruct s; discriminate.
  - destruct s; try discriminate.
    destruct (valid_digits_sf _ _ _ _ E) as [Hd _].
    exists m, e. split; auto. split; auto.
    destruct (Z.compare_spec e eh); try discriminate; [right|left]; auto.
    split; auto. rewrite Pos.compare_cont_spec in Hv. simpl in Hv.
    destruct (Pos.compare_spec m mh); try discriminate. lia.
Qed.

Lemma fin_unit_clamp u : fin 1 (clamp u 0 1).
Proof.
  destruct (clamp_cases u 0 1 eq_refl) as [-> | [-> | (-> & H0 & H1)]];
    try (apply finb_fin; reflexivity).
  destruct (between_finite u 1 4503599627370496 (-52) eq_refl H0 H1) as (m & e & E & Hd & He).
  unfold fin. rewrite E. simpl.
  destruct He as [He | [-> Hm]]; [lia|].
  assert (dg (Zpos m) <= 52)%Z; [|lia].
  apply dg_le_of_lt_pow; lia.
Qed.

(** [int] of a float strictly between 0 and 255 is one of 0..254. *)
Lemma py_int_between v :
  (0 <? v) = true -> (v <? 255) = true ->
  exists z, py_int v = Ok z /\ (0 <= z <= 254)%Z.
Proof.
  intros H0 H1.
  destruct (between_finite v 255 8972014882652160 (-45) eq_refl H0 H1) as (m & e & E & Hd & He).
  unfold py_int. rewrite E. simpl cond_Zopp.
  assert (He0 : (e <? 0)%Z = true) by (apply Z.ltb_lt; lia). rewrite He0.
  eexists; split; [reflexivity|].
  pose proof (dg_lt_pow (Zpos m) ltac:(lia)) as Hlt.
  assert (Hm : (Zpos m < 2 ^ 53)%Z).
  { eapply Z.lt_le_trans; [exact Hlt|]. apply Z.pow_le_mono_r; lia. }
  assert (Hp : (0 < 2 ^ (- e))%Z) by (apply Z.pow_pos_nonneg; lia).
  split; [apply Z.div_pos; lia|].
  assert (Zpos m / 2 ^ (- e) < 255)%Z; [|lia].
  apply Z.div_lt_upper_bound; [lia|].
  destruct He as [He | [-> Hm']].
  - assert (2 ^ 46 <= 2 ^ (- e))%Z by (apply Z.pow_le_mono_r; lia).
    change (2 ^ 53)%Z with (128 * 2 ^ 46)%Z in Hm. nia.
  - change (- -45)%Z with 45%Z. 
    change (Z.pos 8972014882652160) with (255 * 2 ^ 45)%Z in Hm'. lia.
Qed.

Lemma float_of_int_ok z K :
  (dg (Z.abs z) <= K)%Z -> (-1074 <= K <= 971)%Z -> exists f, float_of_int z = Ok f.
Proof.
  intros Hz HK. unfold float_of_int.
  pose proof (binary_normalize_mag z 0 false K ltac:(lia) HK) as Hm.
  destruct (binary_normalize prec emax z 0 false); simpl in Hm; try tauto; eauto.
Qed.

(** [int(clamp(c * brightness, 0, 255))] returns one of 0..255, whatever the
    brightness (a NaN or an infinite product included). *)
Lemma scale_channel_range c brightness :
  (Z.abs c <= 2 ^ 960)%Z ->
  exists z, scale_channel c brightness = Ok z /\ (0 <= z <= 255)%Z.
Proof.
  intros Hc. unfold scale_channel.
  destruct (float_of_int_ok c 961) as [f ->]; [|lia|].
  { apply dg_le_of_lt_pow; lia. }
  cbn [rbind].
  destruct (clamp_cases (f * brightness) 0 255 eq_refl) as [-> | [-> | (-> & H0 & H1)]].
  - exists 0%Z. split; [reflexivity|lia].
  - exists 255%Z. split; [reflexivity|lia].
  - destruct (py_int_between _ H0 H1) as (z & -> & Hz). exists z. split; auto. lia.
Qed.

Definition small_ints : list Z := map (fun n => (Z.of_nat n - 255)%Z) (seq 0 511).

Lemma small_ints_float :
  forallb (fun z => match float_of_int z with Ok f => finb 8 f | Raise _ => false end)
          small_ints = true.
Proof. vm_compute. reflexivity. Qed.

Lemma float_of_int_small z :
  (-255 <= z <= 255)%Z -> exists f, float_of_int z = Ok f /\ fin 8 f.
Proof.
  intros Hz. pose proof small_ints_float as H.
  rewrite forallb_forall in H. specialize (H z).
  assert (Hin : In z small_ints).
  { unfold small_ints. apply in_map_iff. exists (Z.to_nat (z + 255)). split; [lia|].
    apply in_seq. lia. }
  specialize (H Hin). destruct (float_of_int z) as [f|]; [|discriminate].
  exists f. split; auto. apply finb_fin; auto.
Qed.

Definition channel8 (c : Z) : Prop := (0 <= c <= 255)%Z.

Definition color8 (c : rgb) : Prop :=
  channel8 (c.1.1) /\ channel8 (c.1.2) /\ channel8 (c.2).

Lemma lerp_small a b t :
  channel8 a -> channel8 b -> fin 1 t -> exists x, lerp a b t = Ok x /\ fin 12 x.
Proof.
  unfold channel8. intros Ha Hb Ht. unfold lerp.
  destruct (float_of_int_small (b - a) ltac:(lia)) as (d & -> & Hd).
  destruct (float_of_int_small a ltac:(lia)) as (a' & -> & Ha').
  cbn [rbind]. eexists; split; [reflexivity|].
  pose proof (fin_mul d t 8 1 Hd Ht ltac:(lia)) as Hp.
  pose proof (fin_add a' (d * t) 8 (8 + 1 + 1) Ha' Hp ltac:(lia) ltac:(lia)) as Hs.
  exact Hs.
Qed.

Lemma lerp_round_small a b t :
  channel8 a -> channel8 b -> fin 1 t ->
  exists x z, lerp a b t = Ok x /\ py_round x = Ok z /\ (Z.abs z <= 2 ^ 54)%Z.
Proof.
  intros Ha Hb Ht. destruct (lerp_small a b t Ha Hb Ht) as (x & Hx & Hf).
  destruct (py_round_fin 12 x Hf) as (z & Hz & Hb').
  exists x, z. auto.
Qed.

Lemma lerp_color_small a b t :
  color8 a -> color8 b -> fin 1 t ->
  exists c, lerp_color a b t = Ok c /\
    (Z.abs (c.1.1) <= 2 ^ 54 /\ Z.abs (c.1.2) <= 2 ^ 54 /\ Z.abs (c.2) <= 2 ^ 54)%Z.
Proof.
  destruct a as [[a0 a1] a2], b as [[b0 b1] b2]. unfold color8; simpl.
  intros (Ha0 & Ha1 & Ha2) (Hb0 & Hb1 & Hb2) Ht. unfold lerp_color.
  destruct (lerp_round_small a0 b0 t Ha0 Hb0 Ht) as (x0 & z0 & -> & E0 & H0).
  cbn [rbind]. rewrite E0. cbn [rbind].
  destruct (lerp_round_small a1 b1 t Ha1 Hb1 Ht) as (x1 & z1 & -> & E1 & H1).
  cbn [rbind]. rewrite E1. cbn [rbind].
  destruct (lerp_round_small a2 b2 t Ha2 Hb2 Ht) as (x2 & z2 & -> & E2 & H2).
  cbn [rbind]. rewrite E2. cbn [rbind].
  eexists; split; [reflexivity|]. simpl. auto.
Qed.

Notation "'let?' ' p := m 'in' k" :=
  (rbind m (fun x => match x with p => k end))
  (at level 10, p pattern, m at level 100, k at level 200).

(** *** Total readings of the fallible conversions

    On a finite float [int] returns [int_of]; on an [int] of moderate size
    the conversion to float returns [Z2F]; on a finite argument [math.sin]
    returns the C library's value. *)

Definition int_of (x : float) : Z :=
  match py_int x with
  | Ok z => z
  | Raise _ => 0%Z
  end.

Lemma py_int_total K x : fin K x -> py_int x = Ok (int_of x).
Proof.
  intros Hf. unfold int_of. destruct (py_int_fin K x Hf) as [z ->]. reflexivity.
Qed.

Lemma Prim2SF_Z2F z : Prim2SF (Z2F z) = binary_normalize prec emax z 0 false.
Proof. unfold Z2F. apply Prim2SF_SF2Prim, binary_normalize_valid. Qed.

Lemma fin_Z2F z K :
  (Z.abs z < 2 ^ K)%Z -> (0 <= K <= 971)%Z -> fin (K + 1) (Z2F z).
Proof.
  intros Hz HK. unfold fin. rewrite Prim2SF_Z2F.
  apply binary_normalize_mag; [|lia].
  assert (dg (Z.abs z) <= K)%Z by (apply dg_le_of_lt_pow; lia). lia.
Qed.

Lemma float_of_int_Z2F z K :
  (Z.abs z < 2 ^ K)%Z -> (0 <= K <= 971)%Z -> float_of_int z = Ok (Z2F z).
Proof.
  intros Hz HK. pose proof (fin_Z2F z K Hz HK) as Hf. unfold fin in Hf.
  rewrite Prim2SF_Z2F in Hf. unfold float_of_int, Z2F.
  destruct (binary_normalize prec emax z 0 false); simpl in Hf; tauto || reflexivity.
Qed.

Lemma fin_opp K x : fin K x -> fin K (- x).
Proof. unfold fin. rewrite opp_spec. destruct (Prim2SF x); simpl; auto. Qed.

(** The magnitude of a float literal. *)
Definition mag (x : float) : Z :=
  match Prim2SF x with
  | S754_finite _ m e => (dg (Zpos m) + e)%Z
  | _ => (-1074)%Z
  end.

Definition is_finite (x : float) : bool :=
  match Prim2SF x with
  | S754_zero _ | S754_finite _ _ _ => true
  | _ => false
  end.

Lemma fin_closed x : is_finite x = true -> fin (mag x) x.
Proof.
  unfold is_finite, fin, mag. destruct (Prim2SF x); simpl; try discriminate; auto.
  intros _. lia.
Qed.

Lemma fin_is_finite K x : fin K x -> is_finite x = true.
Proof. unfold is_finite, fin. destruct (Prim2SF x); simpl; tauto. Qed.

(** ** Palette stops *)

(** [PaletteStop(at, color)], a frozen dataclass.  ([at] is written [at_].) *)
Record PaletteStop := mkStop { at_ : float; color : rgb }.

(** [sorted(stops, key=lambda s: s.at)]: a stable sort by [<] on the keys.
    Every stable sort returns the same list when the keys are totally ordered
    (no NaN among them); that list is computed here by insertion.  With a NaN
    key the order CPython returns is a property of its merge strategy and is
    not the order computed here: on the positions 0.5, 0.2, NaN, 0.3 it
    returns 0.2, 0.3, 0.5, NaN.  The result is a permutation of the input
    all the same.  Where a theorem below depends on the order of the
    stops, it takes as a hypothesis that no position is NaN. *)
Fixpoint insert_stop (s : PaletteStop) (l : list PaletteStop) : list PaletteStop :=
  match l with
  | [] => [s]
  | s' :: l' => if at_ s' <? at_ s then s' :: insert_stop s l' else s :: l
  end.

Definition sorted_by_at (l : list PaletteStop) : list PaletteStop :=
  foldr insert_stop [] l.

(** The first pair of consecutive stops with [lo.at <= x <= hi.at], scanning
    from the left (lines 49-53). *)
Fixpoint bracket (x : float) (l : list PaletteStop) : option (PaletteStop * PaletteStop) :=
  match l with
  | lo :: ((hi :: _) as tl) =>
      if (at_ lo <=? x) && (x <=? at_ hi) then Some (lo, hi) else bracket x tl
  | _ => None
  end.

(** [span = max(1e-6, hi.at - lo.at)], line 55. *)
Definition span_of (lo hi : PaletteStop) : float := py_max 1e-6 (at_ hi - at_ lo).

(** One pass of the loop body of [build_luts] (lines 46-60) over the padded
    stop list: the three channel values of sample [i]. *)
Definition sample (stops_sorted : list PaletteStop) (brightness : float) (i : Z)
  : result rgb :=
  let? x := true_div i 255 in
  match head stops_sorted, last stops_sorted with
  | Some first, Some final =>
      let '(lo, hi) := default (first, final) (bracket x stops_sorted) in
      let span := span_of lo hi in
      let? q := py_div (x - at_ lo) span in
      let t := clamp q 0 1 in
      let? '(r, g, b) := lerp_color (color lo) (color hi) t in
      let? r := scale_channel r brightness in
      let? g := scale_channel g brightness in
      let? b := scale_channel b brightness in
      Ok (r, g, b)
  | _, _ => Raise IndexError
  end.

Section Store.

(** The type of the imaging library's images. *)
Context {image : Type}.

(** ** The object store

    A Python list or image is an object: a variable holds a reference to it,
    and [insert], [append], [putalpha], [paste] and the drawing calls change
    the object in place.  The store is the list of all objects allocated so
    far; a reference is an index into it. *)

Inductive obj : Type :=
  | OStops (l : list PaletteStop)   (* a list[PaletteStop] *)
  | OInts (l : list Z)              (* a list[int] *)
  | OImage (im : image).            (* an Image *)

(** A computation runs from a store to an outcome and a store. *)
Definition M (A : Type) : Type := list obj -> result A * list obj.

Definition ret {A} (a : A) : M A := fun h => (Ok a, h).

Definition raise {A} (e : exn) : M A := fun h => (Raise e, h).

Definition bind {A B} (m : M A) (f : A -> M B) : M B :=
  fun h =>
    match m h with
    | (Ok a, h') => f a h'
    | (Raise e, h') => (Raise e, h')
    end.

Definition lift {A} (r : result A) : M A := fun h => (r, h).

Definition alloc (o : obj) : M nat := fun h => (Ok (length h), h ++ [o]).

Definition load (l : nat) : M obj :=
  fun h =>
    match h !! l with
    | Some o => (Ok o, h)
    | None => (Raise SystemError, h)
    end.

Definition store (l : nat) (o : obj) : M unit :=
  fun h =>
    if (l <? length h)%nat then (Ok tt, <[l := o]> h) else (Raise SystemError, h).

End Store.

Arguments obj : clear implicits.
Arguments M : clear implicits.

Abbreviation loc := nat.
Abbreviation heap image := (list (obj image)).

Notation "'let*' x := m 'in' k" := (bind m (fun x => k))
  (at level 10, x name, m at level 100, k at level 200).
Notation "'let*' ' p := m 'in' k" :=
  (bind m (fun x => match x with p => k end))
  (at level 10, p pattern, m at level 100, k at level 200).
Notation "m ;; k" := (bind m (fun _ => k))
  (at level 100, k at level 200, right associativity).

Section Lists.

Context {image : Type}.

Abbreviation M := (M image).
Abbreviation obj := (obj image).

Definition load_stops (l : loc) : M (list PaletteStop) :=
  let* o := load l in
  match o with
  | OStops s => ret s
  | _ => raise TypeError
  end.

Definition load_ints (l : loc) : M (list Z) :=
  let* o := load l in
  match o with
  | OInts s => ret s
  | _ => raise TypeError
  end.

(** [sorted(stops, key=...)] builds a new list object. *)
Definition py_sorted (stops : loc) : M loc :=
  let* s := load_stops stops in
  alloc (OStops (sorted_by_at s)).

(** [l.insert(0, x)] and [l.append(x)] change the list object [l]. *)
Definition stops_insert0 (l : loc) (x : PaletteStop) : M unit :=
  let* s := load_stops l in
  store l (OStops (x :: s)).

Definition stops_append (l : loc) (x : PaletteStop) : M unit :=
  let* s := load_stops l in
  store l (OStops (s ++ [x])).

Definition ints_append (l : loc) (x : Z) : M unit :=
  let* s := load_ints l in
  store l (OInts (s ++ [x])).

(** [for i in range(n): body(i)] *)
Fixpoint for_each {A} (l : list A) (body : A -> M unit) : M unit :=
  match l with
  | [] => ret tt
  | i :: l' => body i ;; for_each l' body
  end.

Definition for_range (n : nat) (body : Z -> M unit) : M unit :=
  for_each (map Z.of_nat (seq 0 n)) body.

(** [build_luts(stops, brightness)], lines 32-65. *)
Definition build_luts (stops : loc) (brightness : float) : M (loc * loc * loc) :=
  let* stops_sorted := py_sorted stops in
  let* s := load_stops stops_sorted in
  match head s with
  | None => raise ValueError
  | Some first =>
      (if 0 <? at_ first
       then stops_insert0 stops_sorted (mkStop 0 (color first))
       else ret tt) ;;
      let* s := load_stops stops_sorted in
      match last s with
      | None => raise IndexError
      | Some final =>
          (if at_ final <? 1
           then stops_append stops_sorted (mkStop 1 (color final))
           else ret tt) ;;
          let* lut_r := alloc (OInts []) in
          let* lut_g := alloc (OInts []) in
          let* lut_b := alloc (OInts []) in
          for_range 256 (fun i =>
            let* s := load_stops stops_sorted in
            let* ' (r, g, b) := lift (sample s brightness i) in
            ints_append lut_r r ;;
            ints_append lut_g g ;;
            ints_append lut_b b) ;;
          ret (lut_r, lut_g, lut_b)
      end
  end.

(** *** Running a computation on a store [h ++ d]

    [h] is the store the caller had, [d] the objects allocated since.  The
    lemmas keep that shape, so that a run can be followed call by call. *)

Lemma bind_run {A B} (m : M A) (f : A -> M B) (h : heap image) :
  bind m f h = match m h with
               | (Ok a, h') => f a h'
               | (Raise e, h') => (Raise e, h')
               end.
Proof. reflexivity. Qed.

Lemma alloc_app (h d : heap image) (o : obj) :
  alloc o (h ++ d) = (Ok (length h + length d)%nat, h ++ (d ++ [o])).
Proof. unfold alloc. rewrite length_app, <- app_assoc. reflexivity. Qed.

Lemma load_app_new (h d : heap image) (k : nat) :
  load (length h + k)%nat (h ++ d) =
    match d !! k with
    | Some o => (Ok o, h ++ d)
    | None => (Raise SystemError, h ++ d)
    end.
Proof.
  unfold load. rewrite lookup_app_r by lia.
  replace (length h + k - length h)%nat with k by lia. reflexivity.
Qed.

Lemma load_app_old (h d : heap image) (l : loc) (o : obj) :
  h !! l = Some o -> load l (h ++ d) = (Ok o, h ++ d).
Proof.
  intros H. unfold load. rewrite lookup_app_l by (eapply lookup_lt_Some; eauto).
  rewrite H. reflexivity.
Qed.

Lemma store_app_new (h d : heap image) (k : nat) (o : obj) :
  (k < length d)%nat ->
  store (length h + k)%nat o (h ++ d) = (Ok tt, h ++ <[k := o]> d).
Proof.
  intros Hk. unfold store.
  assert (H : (length h + k <? length (h ++ d))%nat = true).
  { apply Nat.ltb_lt. rewrite length_app. lia. }
  rewrite H. rewrite insert_app_r_alt by lia.
  replace (length h + k - length h)%nat with k by lia. reflexivity.
Qed.

Lemma ret_run {A} (a : A) (h : heap image) : ret a h = (Ok a, h).
Proof. reflexivity. Qed.

Lemma raise_run {A} (e : exn) (h : heap image) : @raise image A e h = (Raise e, h).
Proof. reflexivity. Qed.

Lemma lift_run {A} (r : result A) (h : heap image) : lift r h = (r, h).
Proof. reflexivity. Qed.

Lemma load_stops_new (h d : heap image) (k : nat) S :
  d !! k = Some (OStops S) -> load_stops (length h + k)%nat (h ++ d) = (Ok S, h ++ d).
Proof. intros H. unfold load_stops. rewrite bind_run, load_app_new, H. reflexivity. Qed.

Lemma load_stops_old (h d : heap image) (l : loc) S :
  h !! l = Some (OStops S) -> load_stops l (h ++ d) = (Ok S, h ++ d).
Proof.
  intros H. unfold load_stops. rewrite bind_run. erewrite load_app_old by eauto.
  reflexivity.
Qed.

Lemma load_ints_new (h d : heap image) (k : nat) S :
  d !! k = Some (OInts S) -> load_ints (length h + k)%nat (h ++ d) = (Ok S, h ++ d).
Proof. intros H. unfold load_ints. rewrite bind_run, load_app_new, H. reflexivity. Qed.

Lemma py_sorted_old (h d : heap image) (l : loc) S :
  h !! l = Some (OStops S) ->
  py_sorted l (h ++ d) =
    (Ok (length h + length d)%nat, h ++ (d ++ [OStops (sorted_by_at S)])).
Proof.
  intros H. unfold py_sorted. rewrite bind_run. erewrite load_stops_old by eauto.
  apply alloc_app.
Qed.

Lemma stops_insert0_new (h d : heap image) (k : nat) S x :
  d !! k = Some (OStops S) ->
  stops_insert0 (length h + k)%nat x (h ++ d) = (Ok tt, h ++ <[k := OStops (x :: S)]> d).
Proof.
  intros H. unfold stops_insert0. rewrite bind_run. erewrite load_stops_new by eauto.
  apply store_app_new. eapply lookup_lt_Some; eauto.
Qed.

Lemma stops_append_new (h d : heap image) (k : nat) S x :
  d !! k = Some (OStops S) ->
  stops_append (length h + k)%nat x (h ++ d) = (Ok tt, h ++ <[k := OStops (S ++ [x])]> d).
Proof.
  intros H. unfold stops_append. rewrite bind_run. erewrite load_stops_new by eauto.
  apply store_app_new. eapply lookup_lt_Some; eauto.
Qed.

Lemma ints_append_new (h d : heap image) (k : nat) S x :
  d !! k = Some (OInts S) ->
  ints_append (length h + k)%nat x (h ++ d) = (Ok tt, h ++ <[k := OInts (S ++ [x])]> d).
Proof.
  intros H. unfold ints_append. rewrite bind_run. erewrite load_ints_new by eauto.
  apply store_app_new. eapply lookup_lt_Some; eauto.
Qed.

End Lists.

(** Follows a run on [h ++ d] one call at a time. *)
Ltac heap_simpl :=
  cbn [length app lookup list_lookup insert list_insert Nat.add];
  cbv beta iota.

Ltac heap_step :=
  first
    [ rewrite bind_run
    | rewrite ret_run
    | rewrite raise_run
    | rewrite lift_run
    | rewrite alloc_app
    | erewrite load_stops_new by reflexivity
    | erewrite load_ints_new by reflexivity
    | erewrite stops_insert0_new by reflexivity
    | erewrite stops_append_new by reflexivity
    | erewrite ints_append_new by reflexivity
    | erewrite load_stops_old by eassumption
    | erewrite py_sorted_old by eassumption ];
  heap_simpl.

Ltac heap_run := repeat heap_step.

(** ** What [build_luts] computes

    [pad_stops] is the content of [stops_sorted] after lines 36-39 and
    [rmap (sample ...)] the list of samples the loop appends; [build_luts_run]
    proves that a run of [build_luts] leaves exactly these in the store. *)

Definition pad_stops (s : list PaletteStop) : list PaletteStop :=
  match head s with
  | None => s
  | Some first =>
      let s1 := if 0 <? at_ first then mkStop 0 (color first) :: s else s in
      match last s1 with
      | None => s1
      | Some final => if at_ final <? 1 then s1 ++ [mkStop 1 (color final)] else s1
      end
  end.

Fixpoint rmap {A B} (f : A -> result B) (l : list A) : result (list B) :=
  match l with
  | [] => Ok []
  | a :: l' => let? b := f a in let? bs := rmap f l' in Ok (b :: bs)
  end.

Definition range256 : list Z := map Z.of_nat (seq 0 256).

Definition red (c : rgb) : Z := c.1.1.
Definition green (c : rgb) : Z := c.1.2.
Definition blue (c : rgb) : Z := c.2.

Section BuildLutsRun.

Context {image : Type}.

Lemma fill_loop (h : heap image) (P : list PaletteStop) (brightness : float) :
  forall (idx : list Z) (cs : list rgb) (R G B : list Z),
  rmap (sample P brightness) idx = Ok cs ->
  for_each idx (fun i =>
      let* s := load_stops (length h + 0)%nat in
      let* ' (r, g, b) := lift (sample s brightness i) in
      ints_append (length h + 1)%nat r ;;
      ints_append (length h + 2)%nat g ;;
      ints_append (length h + 3)%nat b)
    (h ++ [OStops P; OInts R; OInts G; OInts B])
  = (Ok tt, h ++ [OStops P; OInts (R ++ map red cs); OInts (G ++ map green cs);
                  OInts (B ++ map blue cs)]).
Proof.
  induction idx as [|i idx IH]; intros cs R G B Hcs; simpl in Hcs.
  - inversion Hcs; subst cs. simpl. rewrite !app_nil_r. reflexivity.
  - destruct (sample P brightness i) as [[[r g] b]|] eqn:Es; [|discriminate].
    cbn [rbind] in Hcs.
    destruct (rmap (sample P brightness) idx) as [cs'|] eqn:Er; [|discriminate].
    cbn [rbind] in Hcs. inversion Hcs; subst cs. clear Hcs.
    cbn [for_each]. heap_run. rewrite Es. heap_run.
    rewrite (IH cs' _ _ _ eq_refl).
    cbn [map red green blue fst snd]. rewrite <- !app_assoc. reflexivity.
Qed.

Lemma pad_stops_head (S : list PaletteStop) first :
  head S = Some first -> exists final, last (pad_stops S) = Some final.
Proof.
  intros H. unfold pad_stops. rewrite H.
  destruct (0 <? at_ first).
  - cbn zeta. destruct (last (mkStop 0 (color first) :: S)) as [f|] eqn:E.
    + destruct (at_ f <? 1); eauto. rewrite last_snoc. eauto.
    + apply last_None in E. discriminate.
  - cbn zeta. destruct (last S) as [f|] eqn:E.
    + destruct (at_ f <? 1); eauto. rewrite last_snoc. eauto.
    + apply last_None in E. subst S. discriminate.
Qed.

(** A run of [build_luts] on a non-empty stop list whose samples all return:
    four objects are added to the store (the sorted, padded copy and the three
    tables), nothing else changes, and the tables hold the samples. *)
Lemma build_luts_run (h : heap image) (stops : loc) (S : list PaletteStop)
    (brightness : float) (cs : list rgb) :
  h !! stops = Some (OStops S) ->
  S <> [] ->
  rmap (sample (pad_stops (sorted_by_at S)) brightness) range256 = Ok cs ->
  build_luts stops brightness h =
    (Ok (length h + 1, length h + 2, length h + 3)%nat,
     h ++ [OStops (pad_stops (sorted_by_at S));
           OInts (map red cs); OInts (map green cs); OInts (map blue cs)]).
Proof.
  intros Hs Hne Hcs.
  replace (build_luts stops brightness h)
    with (build_luts stops brightness (h ++ [])) by (rewrite app_nil_r; reflexivity).
  unfold build_luts. heap_run.
  destruct (head (sorted_by_at S)) as [first|] eqn:Eh.
  2:{ exfalso. apply head_None in Eh. destruct S as [|s S]; [congruence|].
      simpl in Eh. destruct (sorted_by_at S); simpl in Eh; [discriminate|].
      destruct (at_ p <? at_ s); discriminate. }
  destruct (pad_stops_head _ _ Eh) as [final Hfinal].
  unfold pad_stops in *. rewrite Eh in *. cbn zeta in *.
  destruct (0 <? at_ first) eqn:E0; heap_run.
  - destruct (last (mkStop 0 (color first) :: sorted_by_at S)) as [f|] eqn:El.
    2:{ apply last_None in El. discriminate. }
    destruct (at_ f <? 1) eqn:E1; heap_run; unfold for_range;
      fold range256; rewrite (fill_loop _ _ _ _ _ _ _ _ Hcs); reflexivity.
  - destruct (last (sorted_by_at S)) as [f|] eqn:El.
    2:{ apply last_None in El. rewrite El in Eh. discriminate. }
    destruct (at_ f <? 1) eqn:E1; heap_run; unfold for_range;
      fold range256; rewrite (fill_loop _ _ _ _ _ _ _ _ Hcs); reflexivity.
Qed.

End BuildLutsRun.

(** ** Every sample returns a value in range *)

(** A stop of the data model: three 8-bit channels. *)
Definition stop8 (s : PaletteStop) : Prop := color8 (color s).

Definition in_byte (z : Z) : Prop := (0 <= z <= 255)%Z.

Definition rgb_in_byte (c : rgb) : Prop :=
  in_byte (red c) /\ in_byte (green c) /\ in_byte (blue c).

Lemma bracket_In x l lo hi : bracket x l = Some (lo, hi) -> In lo l /\ In hi l.
Proof.
  induction l as [|a l IH]; simpl; [discriminate|].
  destruct l as [|b l]; [discriminate|].
  destruct ((at_ a <=? x) && (x <=? at_ b)).
  - intros H; inversion H; subst. simpl. auto.
  - intros H. destruct (IH H). simpl in *. tauto.
Qed.

Lemma head_In {A} (l : list A) a : head l = Some a -> In a l.
Proof. destruct l; simpl; [discriminate|]. intros H; inversion H; auto. Qed.

Lemma last_In {A} (l : list A) a : last l = Some a -> In a l.
Proof.
  intros H. apply last_Some in H. destruct H as [l' ->].
  apply in_or_app. right. simpl. auto.
Qed.

(** The divisor of line 56 is [1e-6] or larger, so the division returns. *)
Lemma span_of_floor (lo hi : PaletteStop) :
  span_of lo hi = 1e-6 \/ (1e-6 <? span_of lo hi) = true.
Proof.
  unfold span_of, py_max. destruct (1e-6 <? at_ hi - at_ lo) eqn:E; auto.
Qed.

Lemma above_epsilon_nonzero (s : float) : (1e-6 <? s) = true -> (s =? 0) = false.
Proof.
  intros H. rewrite ltb_spec in H. rewrite FloatAxioms.eqb_spec.
  change (Prim2SF 1e-6) with (S754_finite false 4722366482869645 (-72)) in H.
  change (Prim2SF 0) with (S754_zero false).
  unfold SFltb, SFeqb in *.
  destruct (Prim2SF s) as [b|b| |b m e]; simpl in *; try discriminate;
    destruct b; auto.
Qed.

Lemma span_of_nonzero (lo hi : PaletteStop) : (span_of lo hi =? 0) = false.
Proof.
  destruct (span_of_floor lo hi) as [-> | H]; [reflexivity|].
  apply above_epsilon_nonzero, H.
Qed.

Lemma sample_ok (P : list PaletteStop) (brightness : float) (i : Z) :
  P <> [] -> Forall stop8 P ->
  exists c, sample P brightness i = Ok c /\ rgb_in_byte c.
Proof.
  intros Hne HP. unfold sample.
  change (true_div i 255) with (Ok (Z2F i / 255)). cbn [rbind].
  set (x := Z2F i / 255).
  destruct (head P) as [first|] eqn:Eh.
  2:{ apply head_None in Eh. contradiction. }
  destruct (last P) as [final|] eqn:El.
  2:{ apply last_None in El. contradiction. }
  rewrite Forall_forall in HP.
  assert (Hpair : exists lo hi,
            default (first, final) (bracket x P) = (lo, hi) /\
            stop8 lo /\ stop8 hi).
  { assert (Hin : forall s, In s P -> stop8 s).
    { intros s Hs. apply HP, list_elem_of_In, Hs. }
    destruct (bracket x P) as [[lo hi]|] eqn:Eb; simpl.
    - destruct (bracket_In _ _ _ _ Eb). exists lo, hi. auto.
    - exists first, final. split; [reflexivity|].
      split; apply Hin; [eapply head_In|eapply last_In]; eauto. }
  destruct Hpair as (lo & hi & -> & Hlo & Hhi).
  cbn zeta. unfold py_div. rewrite span_of_nonzero. cbn [rbind].
  set (t := clamp ((x - at_ lo) / span_of lo hi) 0 1).
  destruct (lerp_color_small (color lo) (color hi) t Hlo Hhi (fin_unit_clamp _))
    as ([[r g] b] & -> & Hr & Hg & Hb).
  simpl in Hr, Hg, Hb. cbn [rbind].
  assert (Hp : (2 ^ 54 <= 2 ^ 960)%Z) by (apply Z.pow_le_mono_r; lia).
  destruct (scale_channel_range r brightness ltac:(lia)) as (r' & -> & Hr').
  destruct (scale_channel_range g brightness ltac:(lia)) as (g' & -> & Hg').
  destruct (scale_channel_range b brightness ltac:(lia)) as (b' & -> & Hb').
  cbn [rbind]. eexists; split; [reflexivity|].
  unfold rgb_in_byte, in_byte, red, green, blue; simpl. auto.
Qed.

Lemma rmap_ok {A B} (f : A -> result B) (Q : B -> Prop) (l : list A) :
  (forall a, exists b, f a = Ok b /\ Q b) ->
  exists bs, rmap f l = Ok bs /\ length bs = length l /\ Forall Q bs.
Proof.
  intros Hf. induction l as [|a l (bs & IH & Hlen & HQ)]; simpl.
  - exists []. auto.
  - destruct (Hf a) as (b & -> & Hb). rewrite IH. cbn [rbind].
    exists (b :: bs). simpl. auto.
Qed.

Lemma rmap_head {A B} (f : A -> result B) (a : A) (l : list A) (bs : list B) (b : B) :
  rmap f (a :: l) = Ok bs -> f a = Ok b -> head bs = Some b.
Proof.
  cbn [rmap]. intros H E. rewrite E in H. cbn [rbind] in H.
  destruct (rmap f l); [|discriminate]. cbn [rbind] in H.
  injection H as <-. reflexivity.
Qed.

Lemma insert_stop_perm s l : Permutation (insert_stop s l) (s :: l).
Proof.
  induction l as [|a l IH]; simpl; [reflexivity|].
  destruct (at_ a <? at_ s); [|reflexivity].
  rewrite IH. apply perm_swap.
Qed.

(** [sorted] returns a permutation of its argument. *)
Lemma sorted_by_at_perm l : Permutation (sorted_by_at l) l.
Proof.
  induction l as [|a l IH]; simpl; [reflexivity|].
  rewrite insert_stop_perm. constructor. exact IH.
Qed.

Lemma sorted_by_at_nonempty l : l <> [] -> sorted_by_at l <> [].
Proof.
  intros Hne E. pose proof (sorted_by_at_perm l) as Hp. rewrite E in Hp.
  apply Permutation_nil in Hp. contradiction.
Qed.

Lemma pad_stops_nonempty l : l <> [] -> pad_stops l <> [].
Proof.
  intros Hne. unfold pad_stops. destruct l as [|a l]; [contradiction|].
  cbn [head]. cbn zeta.
  destruct (0 <? at_ a); destruct (last _) as [f|];
    try destruct (at_ f <? 1); simpl; discriminate.
Qed.

Lemma pad_stops_stop8 l : Forall stop8 l -> Forall stop8 (pad_stops l).
Proof.
  intros Hl. unfold pad_stops. destruct (head l) as [first|] eqn:E; [|auto].
  assert (Hf : stop8 first).
  { rewrite Forall_forall in Hl. apply Hl, list_elem_of_In. eapply head_In; eauto. }
  assert (H1 : Forall stop8 (if 0 <? at_ first then mkStop 0 (color first) :: l else l)).
  { destruct (0 <? at_ first); auto. }
  cbn zeta. destruct (last _) as [f|] eqn:El; auto.
  destruct (at_ f <? 1); auto.
  apply Forall_app. split; auto. constructor; auto.
  rewrite Forall_forall in H1. apply (H1 f), list_elem_of_In. eapply last_In; eauto.
Qed.

Lemma samples_ok (S : list PaletteStop) (brightness : float) :
  S <> [] -> Forall stop8 S ->
  exists cs, rmap (sample (pad_stops (sorted_by_at S)) brightness) range256 = Ok cs /\
             length cs = 256%nat /\ Forall rgb_in_byte cs.
Proof.
  intros Hne HS.
  apply (rmap_ok (sample (pad_stops (sorted_by_at S)) brightness) rgb_in_byte range256).
  intros i. apply sample_ok.
  - apply pad_stops_nonempty, sorted_by_at_nonempty, Hne.
  - apply pad_stops_stop8.
    eapply Permutation_Forall; [symmetry; apply sorted_by_at_perm|exact HS].
Qed.

(** ** Results on [build_luts] *)

Section BuildLuts.

Context {image : Type}.

(** The three tables a run returned, read back from the store. *)
Definition luts_at (h : heap image) (luts : loc * loc * loc) (R G B : list Z) : Prop :=
  h !! luts.1.1 = Some (OInts R) /\
  h !! luts.1.2 = Some (OInts G) /\
  h !! luts.2 = Some (OInts B).

Lemma lookup_map {A B} (f : A -> B) (l : list A) (i : nat) (a : A) :
  l !! i = Some a -> map f l !! i = Some (f a).
Proof.
  revert i. induction l as [|x l IH]; intros [|i]; simpl; try discriminate.
  - intros H; inversion H; reflexivity.
  - apply IH.
Qed.

Lemma Forall_map_channel (f : rgb -> Z) (cs : list rgb) :
  (forall c, rgb_in_byte c -> in_byte (f c)) ->
  Forall rgb_in_byte cs -> Forall in_byte (map f cs).
Proof.
  intros Hf H. induction H; simpl; constructor; auto.
Qed.

Lemma luts_at_run (h : heap image) (P : list PaletteStop) (R G B : list Z) :
  luts_at (h ++ [OStops P; OInts R; OInts G; OInts B])
          (length h + 1, length h + 2, length h + 3)%nat R G B.
Proof.
  unfold luts_at; cbn [fst snd].
  rewrite !lookup_app_r by lia.
  replace (length h + 1 - length h)%nat with 1%nat by lia.
  replace (length h + 2 - length h)%nat with 2%nat by lia.
  replace (length h + 3 - length h)%nat with 3%nat by lia.
  auto.
Qed.

(** On a non-empty list of 8-bit stops a run returns, and the tables are the
    256 samples of the sorted, padded list. *)
Lemma build_luts_ok (h : heap image) (stops : loc) (S : list PaletteStop)
    (brightness : float) :
  h !! stops = Some (OStops S) -> S <> [] -> Forall stop8 S ->
  exists cs,
    rmap (sample (pad_stops (sorted_by_at S)) brightness) range256 = Ok cs /\
    length cs = 256%nat /\ Forall rgb_in_byte cs /\
    build_luts stops brightness h =
      (Ok (length h + 1, length h + 2, length h + 3)%nat,
       h ++ [OStops (pad_stops (sorted_by_at S));
             OInts (map red cs); OInts (map green cs); OInts (map blue cs)]).
Proof.
  intros Hs Hne H8.
  destruct (samples_ok S brightness Hne H8) as (cs & Hcs & Hlen & Hin).
  exists cs. repeat split; auto.
  apply build_luts_run; auto.
Qed.

Definition black_white : list PaletteStop :=
  [mkStop 0 (0, 0, 0)%Z; mkStop 1 (255, 255, 255)%Z].

Lemma black_white_samples :
  exists cs, rmap (sample (pad_stops (sorted_by_at black_white)) 1) range256 = Ok cs /\
    cs !! 127%nat = Some (127, 127, 127)%Z /\ cs !! 128%nat = Some (128, 128, 128)%Z.
Proof. eexists. split; [vm_compute; reflexivity|]. split; reflexivity. Qed.

(** C4.  For every non-empty list of stops (8-bit colours, as the data model
    has them) and every brightness, [build_luts] returns three lists of
    exactly 256 integers, each in 0..255.  For the palette black at 0, white
    at 1 with brightness 1, entries 127 and 128 of every channel are 127 and
    128: within one half of mid-gray 127.5. *)
Theorem build_luts_tables (h : heap image) (stops : loc) (S : list PaletteStop)
    (brightness : float) :
  h !! stops = Some (OStops S) -> S <> [] -> Forall stop8 S ->
  exists luts h' R G B,
    build_luts stops brightness h = (Ok luts, h') /\
    luts_at h' luts R G B /\
    (length R = 256 /\ length G = 256 /\ length B = 256)%nat /\
    (Forall in_byte R /\ Forall in_byte G /\ Forall in_byte B) /\
    (S = black_white -> brightness = 1 ->
       (R !! 127%nat = Some 127%Z /\ G !! 127%nat = Some 127%Z /\ B !! 127%nat = Some 127%Z) /\
       (R !! 128%nat = Some 128%Z /\ G !! 128%nat = Some 128%Z /\ B !! 128%nat = Some 128%Z)).
Proof.
  intros Hs Hne H8.
  destruct (build_luts_ok h stops S brightness Hs Hne H8) as (cs & Hcs & Hlen & Hin & Hrun).
  eexists _, _, (map red cs), (map green cs), (map blue cs).
  split; [exact Hrun|]. split; [apply luts_at_run|].
  split; [rewrite !length_map; auto|].
  split.
  - repeat split; apply Forall_map_channel; auto; intros c Hc; apply Hc.
  - intros -> ->. destruct black_white_samples as (cs' & Hcs' & H127 & H128).
    rewrite Hcs in Hcs'. injection Hcs' as <-.
    pose proof (fun f : rgb -> Z => lookup_map f cs _ _ H127) as M127.
    pose proof (fun f : rgb -> Z => lookup_map f cs _ _ H128) as M128.
    repeat split;
      [ exact (M127 red) | exact (M127 green) | exact (M127 blue)
      | exact (M128 red) | exact (M128 green) | exact (M128 blue) ].
Qed.

(** C6.  On an empty stop list [build_luts] raises [ValueError] before any
    table is created: the store gains the (empty) sorted copy and nothing
    else.  It is the only stop list of the data model that makes the call
    raise: on a non-empty one the call returns. *)
Theorem build_luts_empty_raises (h : heap image) (stops : loc) (S : list PaletteStop)
    (brightness : float) :
  h !! stops = Some (OStops S) -> Forall stop8 S ->
  (S = [] -> build_luts stops brightness h = (Raise ValueError, h ++ [OStops []])) /\
  (S <> [] -> exists luts h', build_luts stops brightness h = (Ok luts, h')).
Proof.
  intros Hs H8. split.
  - intros ->.
    replace (build_luts stops brightness h)
      with (build_luts stops brightness (h ++ [])) by (rewrite app_nil_r; reflexivity).
    unfold build_luts. heap_run. reflexivity.
  - intros Hne. destruct (build_luts_ok h stops S brightness Hs Hne H8)
      as (cs & _ & _ & _ & Hrun).
    eexists _, _. exact Hrun.
Qed.

(** The loop only touches the three tables, whatever the samples do. *)
Lemma fill_loop_frame (h : heap image) (P : list PaletteStop) (brightness : float) :
  forall (idx : list Z) (R G B : list Z),
  exists out R' G' B',
  for_each idx (fun i =>
      let* s := load_stops (length h + 0)%nat in
      let* ' (r, g, b) := lift (sample s brightness i) in
      ints_append (length h + 1)%nat r ;;
      ints_append (length h + 2)%nat g ;;
      ints_append (length h + 3)%nat b)
    (h ++ [OStops P; OInts R; OInts G; OInts B])
  = (out, h ++ [OStops P; OInts R'; OInts G'; OInts B']).
Proof.
  induction idx as [|i idx IH]; intros R G B.
  - exists (Ok tt), R, G, B. reflexivity.
  - cbn [for_each]. heap_run.
    destruct (sample P brightness i) as [[[r g] b]|e] eqn:Es.
    + heap_run. apply IH.
    + exists (Raise e), R, G, B. reflexivity.
Qed.

(** Whatever the outcome, a run of [build_luts] only adds objects to the
    store. *)
Lemma build_luts_frame (h : heap image) (stops : loc) (S : list PaletteStop)
    (brightness : float) :
  h !! stops = Some (OStops S) ->
  exists out d, build_luts stops brightness h = (out, h ++ d).
Proof.
  intros Hs.
  replace (build_luts stops brightness h)
    with (build_luts stops brightness (h ++ [])) by (rewrite app_nil_r; reflexivity).
  unfold build_luts. heap_run.
  destruct (head (sorted_by_at S)) as [first|] eqn:Eh; [|eexists _, _; reflexivity].
  assert (Hfin : forall P,
    exists (out : result (loc * loc * loc)) d,
      match
        for_each (map Z.of_nat (seq 0 256)) (fun i =>
          let* s := load_stops (length h + 0)%nat in
          let* ' (r, g, b) := lift (sample s brightness i) in
          ints_append (length h + 1)%nat r ;;
          ints_append (length h + 2)%nat g ;;
          ints_append (length h + 3)%nat b)
          (h ++ [OStops P; OInts []; OInts []; OInts []])
      with
      | (Ok _, h') => ret (length h + 1, length h + 2, length h + 3)%nat h'
      | (Raise e, h') => (Raise e, h')
      end = (out, h ++ d)).
  { intros P.
    destruct (fill_loop_frame h P brightness (map Z.of_nat (seq 0 256)) [] [] [])
      as (out & R' & G' & B' & ->).
    destruct out; eexists _, _; reflexivity. }
  destruct (0 <? at_ first); heap_run.
  - destruct (last _) as [f|]; [|eexists _, _; reflexivity].
    destruct (at_ f <? 1); heap_run; unfold for_range; apply Hfin.
  - destruct (last _) as [f|]; [|eexists _, _; reflexivity].
    destruct (at_ f <? 1); heap_run; unfold for_range; apply Hfin.
Qed.

(** C9.  [build_luts] never changes its argument: after the call, returned
    or raised, the caller's list holds the stops it held before, and so does
    every other object that existed before the call.  (Sorting makes a new
    list; the boundary stops are inserted into that copy.) *)
Theorem build_luts_preserves_input (h : heap image) (stops : loc)
    (S : list PaletteStop) (brightness : float) :
  h !! stops = Some (OStops S) ->
  (build_luts stops brightness h).2 !! stops = Some (OStops S) /\
  (forall l o, h !! l = Some o -> (build_luts stops brightness h).2 !! l = Some o).
Proof.
  intros Hs. destruct (build_luts_frame h stops S brightness Hs) as (out & d & ->).
  cbn [snd].
  assert (H : forall l o, h !! l = Some o -> (h ++ d) !! l = Some o).
  { intros l o Hl. rewrite lookup_app_l by (eapply lookup_lt_Some; eauto). exact Hl. }
  auto.
Qed.

(** C10.  [build_luts] returns on every non-empty stop list, wherever the
    positions lie (outside [0,1], coinciding, infinite or NaN): the divisor
    of the interpolation factor is [1e-6] or larger, the pair of stops is the
    first bracketing pair or else the first and the last stop, and the three
    tables that come back have 256 entries each. *)
Theorem build_luts_total (h : heap image) (stops : loc) (S : list PaletteStop)
    (brightness : float) :
  h !! stops = Some (OStops S) -> S <> [] -> Forall stop8 S ->
  (forall lo hi, span_of lo hi = 1e-6 \/ (1e-6 <? span_of lo hi) = true) /\
  exists luts h' R G B,
    build_luts stops brightness h = (Ok luts, h') /\
    luts_at h' luts R G B /\
    (length R = 256 /\ length G = 256 /\ length B = 256)%nat.
Proof.
  intros Hs Hne H8. split; [apply span_of_floor|].
  destruct (build_luts_ok h stops S brightness Hs Hne H8) as (cs & Hcs & Hlen & Hin & Hrun).
  eexists _, _, (map red cs), (map green cs), (map blue cs).
  split; [exact Hrun|]. split; [apply luts_at_run|].
  rewrite !length_map; auto.
Qed.

(** *** Boundary padding *)

Lemma ltb_leb (a b : float) : (a <? b) = true -> (a <=? b) = true.
Proof.
  rewrite ltb_spec, leb_spec. unfold SFltb, SFleb.
  destruct (SFcompare (Prim2SF a) (Prim2SF b)) as [[]|]; auto.
Qed.

Definition bytes : list Z := map Z.of_nat (seq 0 256).

Lemma in_bytes z : channel8 z -> In z bytes.
Proof.
  intros Hz. unfold bytes. apply in_map_iff. exists (Z.to_nat z).
  unfold channel8 in Hz. split; [lia|]. apply in_seq. lia.
Qed.

(** Between two stops of the same colour every interpolation factor gives
    that colour back: [a + 0 * t] rounds to [a]. *)
Lemma bytes_lerp_same :
  forallb (fun a =>
    match float_of_int a with
    | Ok a' =>
        forallb (fun s =>
          match round_sf (SF64add (Prim2SF a') (S754_zero s)) with
          | Ok z => (z =? a)%Z
          | Raise _ => false
          end) [true; false]
    | Raise _ => false
    end) bytes = true.
Proof. vm_compute. reflexivity. Qed.

Lemma lerp_same (a : Z) (t : float) :
  channel8 a -> fin 1 t -> exists x, lerp a a t = Ok x /\ py_round x = Ok a.
Proof.
  intros Ha Ht. unfold lerp. rewrite Z.sub_diag.
  change (float_of_int 0) with (Ok 0). cbn [rbind].
  pose proof bytes_lerp_same as Hb. rewrite forallb_forall in Hb.
  specialize (Hb a (in_bytes a Ha)).
  destruct (float_of_int a) as [a'|]; [|discriminate]. cbn [rbind].
  eexists; split; [reflexivity|].
  unfold py_round. rewrite add_spec, mul_spec.
  change (Prim2SF 0) with (S754_zero false).
  rewrite forallb_forall in Hb.
  assert (Hz : exists s, SF64mul (S754_zero false) (Prim2SF t) = S754_zero s).
  { unfold fin in Ht. destruct (Prim2SF t); simpl in Ht; try tauto; simpl; eauto. }
  destruct Hz as [s ->]. fold SF64add.
  specialize (Hb s ltac:(destruct s; simpl; auto)).
  destruct (round_sf _) as [z|]; [|discriminate].
  apply Z.eqb_eq in Hb. congruence.
Qed.

Lemma bytes_scale_one :
  forallb (fun a =>
    match scale_channel a 1 with Ok z => (z =? a)%Z | Raise _ => false end) bytes = true.
Proof. vm_compute. reflexivity. Qed.

Lemma scale_channel_one (a : Z) : channel8 a -> scale_channel a 1 = Ok a.
Proof.
  intros Ha. pose proof bytes_scale_one as Hb. rewrite forallb_forall in Hb.
  specialize (Hb a (in_bytes a Ha)).
  destruct (scale_channel a 1) as [z|]; [|discriminate].
  apply Z.eqb_eq in Hb. congruence.
Qed.

Lemma lerp_color_same (c : rgb) (t : float) :
  color8 c -> fin 1 t -> lerp_color c c t = Ok c.
Proof.
  destruct c as [[c0 c1] c2]. unfold color8; simpl. intros (H0 & H1 & H2) Ht.
  unfold lerp_color.
  destruct (lerp_same c0 t H0 Ht) as (x0 & -> & E0). cbn [rbind]. rewrite E0. cbn [rbind].
  destruct (lerp_same c1 t H1 Ht) as (x1 & -> & E1). cbn [rbind]. rewrite E1. cbn [rbind].
  destruct (lerp_same c2 t H2 Ht) as (x2 & -> & E2). cbn [rbind]. rewrite E2. cbn [rbind].
  reflexivity.
Qed.

(** Sample 0 of a list that starts with a stop at position 0 followed by a
    stop of the same colour at a positive position. *)
Lemma sample_zero_clone (first : PaletteStop) (rest : list PaletteStop) :
  stop8 first -> (0 <? at_ first) = true ->
  sample (mkStop 0 (color first) :: first :: rest) 1 0 = Ok (color first).
Proof.
  intros H8 Hpos. unfold sample. cbn [head].
  destruct (last _) as [final|] eqn:El.
  2:{ apply last_None in El. discriminate. }
  change (true_div 0 255) with (Ok 0). cbn [rbind bracket at_].
  change (0 <=? 0) with true. rewrite (ltb_leb _ _ Hpos). cbn [andb default].
  unfold id. cbv beta iota zeta. cbn [color at_].
  unfold py_div. rewrite span_of_nonzero. cbn [rbind].
  rewrite (lerp_color_same (color first) _ H8 (fin_unit_clamp _)).
  destruct (color first) as [[r g] b] eqn:Ec. destruct H8 as (Hr & Hg & Hb).
  rewrite Ec in Hr, Hg, Hb. simpl in Hr, Hg, Hb. cbn [rbind].
  rewrite !scale_channel_one by assumption. reflexivity.
Qed.

Lemma pad_stops_both (P : list PaletteStop) (first final : PaletteStop) :
  head P = Some first -> last P = Some final ->
  (0 <? at_ first) = true -> (at_ final <? 1) = true ->
  pad_stops P = mkStop 0 (color first) :: P ++ [mkStop 1 (color final)].
Proof.
  intros Hh Hl H0 H1. unfold pad_stops. rewrite Hh, H0. cbn zeta.
  assert (Hl' : last (mkStop 0 (color first) :: P) = Some final).
  { destruct P; [discriminate|]. exact Hl. }
  rewrite Hl', H1. reflexivity.
Qed.

End BuildLuts.

Lemma build_luts_tables_witness :
  exists luts h' R G B,
    build_luts 0%nat 1 ([OStops black_white] : heap unit) = (Ok luts, h') /\
    luts_at h' luts R G B /\
    (length R = 256 /\ length G = 256 /\ length B = 256)%nat /\
    (Forall in_byte R /\ Forall in_byte G /\ Forall in_byte B) /\
    (black_white = black_white -> 1 = 1 ->
       (R !! 127%nat = Some 127%Z /\ G !! 127%nat = Some 127%Z /\ B !! 127%nat = Some 127%Z) /\
       (R !! 128%nat = Some 128%Z /\ G !! 128%nat = Some 128%Z /\ B !! 128%nat = Some 128%Z)).
Proof.
  apply (build_luts_tables [OStops black_white] 0%nat black_white 1).
  - reflexivity.
  - discriminate.
  - repeat constructor; simpl; lia.
Defined.


Lemma build_luts_empty_raises_witness :
  (build_luts 0%nat 1 ([OStops []] : heap unit) = (Raise ValueError, [OStops []; OStops []])) /\
  (black_white <> [] ->
   exists luts h', build_luts 0%nat 1 ([OStops black_white] : heap unit) = (Ok luts, h')).
Proof.
  split.
  - apply (build_luts_empty_raises ([OStops []] : heap unit) 0%nat [] 1);
      [reflexivity | constructor | reflexivity].
  - apply (build_luts_empty_raises ([OStops black_white] : heap unit) 0%nat black_white 1);
      [reflexivity | repeat constructor; simpl; lia].
Defined.

Definition sample_heap : heap unit :=
  [OInts [7%Z]; OStops [mkStop 0.7 (200, 100, 50)%Z; mkStop 0.3 (10, 20, 30)%Z]].

Lemma build_luts_preserves_input_witness :
  (build_luts 1%nat 1 sample_heap).2 !! 1%nat =
    Some (OStops [mkStop 0.7 (200, 100, 50)%Z; mkStop 0.3 (10, 20, 30)%Z]) /\
  (forall l o, sample_heap !! l = Some o -> (build_luts 1%nat 1 sample_heap).2 !! l = Some o).
Proof.
  apply (build_luts_preserves_input sample_heap 1%nat
           [mkStop 0.7 (200, 100, 50)%Z; mkStop 0.3 (10, 20, 30)%Z] 1).
  reflexivity.
Defined.

(** Stops outside [0,1], two of them at the same position. *)
Definition stray_stops : list PaletteStop :=
  [mkStop 2.5 (255, 0, 0)%Z; mkStop 2.5 (0, 255, 0)%Z; mkStop (-1) (0, 0, 255)%Z].

Lemma build_luts_total_witness :
  (forall lo hi, span_of lo hi = 1e-6 \/ (1e-6 <? span_of lo hi) = true) /\
  exists luts h' R G B,
    build_luts 0%nat 1.25 ([OStops stray_stops] : heap unit) = (Ok luts, h') /\
    luts_at h' luts R G B /\
    (length R = 256 /\ length G = 256 /\ length B = 256)%nat.
Proof.
  apply (build_luts_total ([OStops stray_stops] : heap unit) 0%nat stray_stops 1.25).
  - reflexivity.
  - discriminate.
  - repeat constructor; simpl; lia.
Defined.

(** ** The libraries the script calls

    [math.sin] and [math.cos] raise [ValueError] on an infinite argument and
    otherwise return what the C library computes, which is the parameter
    [libm_sin] ([libm_cos]).  An image of the imaging library is a value of
    the parameter type; every call of the library is a function on such
    values, and the script's objects hold them.

    The functions of [Imaging] say what a call returns when the library
    accepts its arguments.  The library checks some of them itself (the
    sides given to [Image.new] and [resize], the corners of the box given to
    [ellipse]) and raises when the check fails; these checks are code of the
    library, not of the script, and are not modelled.  A statement below
    that a renderer returns is therefore restricted by hypothesis to
    arguments for which the checks pass: sides that are positive and that
    an image can be held at, a positive scale of the flame mask, and a sine
    within its bounds, so that no ellipse is given a negative width or
    height. *)

Class Libm := {
  libm_sin : float -> float;
  libm_cos : float -> float
}.

Definition math_call (f : float -> float) (x : float) : result float :=
  match Prim2SF x with
  | S754_infinity _ => Raise ValueError
  | _ => Ok (f x)
  end.

Definition math_sin `{Libm} (x : float) : result float := math_call libm_sin x.
Definition math_cos `{Libm} (x : float) : result float := math_call libm_cos x.

Inductive mode := ModeL | ModeP | ModeRGB | ModeRGBA.
Inductive band := BandA.
Inductive resampling := BICUBIC | LANCZOS.
Inductive image_filter :=
  | GaussianBlur (radius : float)
  | UnsharpMask (radius : float) (percent threshold : Z).

Definition box : Type := float * float * float * float.

Class Imaging (image : Type) := {
  Image_new : mode -> Z * Z -> list Z -> image;
  Image_linear_gradient : mode -> image;
  Image_radial_gradient : mode -> image;
  Image_size : image -> Z * Z;
  Image_resize : image -> Z * Z -> resampling -> image;
  Image_crop : image -> Z * Z * Z * Z -> image;
  Image_point : image -> list Z -> image;
  Image_merge : mode -> image -> image -> image -> image;
  Image_convert : image -> mode -> image;
  Image_getchannel : image -> band -> image;
  Image_filter : image -> image_filter -> image;
  Image_alpha_composite : image -> image -> image;
  ImageOps_invert : image -> image;
  ImageChops_offset : image -> Z -> Z -> image;
  ImageEnhance_Contrast : image -> float -> image;
  ImageEnhance_Brightness : image -> float -> image;
  (* the image an in-place call leaves in the object *)
  Image_putalpha : image -> image -> image;
  ImageDraw_ellipse : image -> box -> list Z -> image;
  ImageDraw_polygon : image -> list (float * float) -> list Z -> image;
  ImageDraw_line : image -> box -> list Z -> Z -> image
}.

Section Images.

Context {image : Type} `{Imaging image} `{Libm}.

Abbreviation M := (M image).

Definition load_image (l : loc) : M image :=
  let* o := load l in
  match o with
  | OImage im => ret im
  | _ => raise TypeError
  end.

(** A call that returns a new image computed from one or two images. *)
Definition img1 (f : image -> image) (a : loc) : M loc :=
  let* x := load_image a in
  alloc (OImage (f x)).

Definition img2 (f : image -> image -> image) (a b : loc) : M loc :=
  let* x := load_image a in
  let* y := load_image b in
  alloc (OImage (f x y)).

(** A call that changes the image object [a] in place. *)
Definition img_update (f : image -> image) (a : loc) : M unit :=
  let* x := load_image a in
  store a (OImage (f x)).

Definition img_update2 (f : image -> image -> image) (a b : loc) : M unit :=
  let* x := load_image a in
  let* y := load_image b in
  store a (OImage (f x y)).

(** [im.point(lambda v: ...)]: the library tabulates the function on 0..255. *)
Definition point_fn (f : Z -> result Z) (a : loc) : M loc :=
  let* lut := lift (rmap f range256) in
  img1 (fun im => Image_point im lut) a.

(** [lambda v: int(v * k)] *)
Definition scaled (k : float) (v : Z) : result Z :=
  let? x := float_of_int v in
  py_int (x * k).

(** [colorize_gradient(gradient, luts)], lines 68-73. *)
Definition colorize_gradient (gradient : loc) (luts : loc * loc * loc) : M loc :=
  let '(r_lut, g_lut, b_lut) := luts in
  let* rl := load_ints r_lut in
  let* r := img1 (fun im => Image_point im rl) gradient in
  let* gl := load_ints g_lut in
  let* g := img1 (fun im => Image_point im gl) gradient in
  let* bl := load_ints b_lut in
  let* b := img1 (fun im => Image_point im bl) gradient in
  let* ri := load_image r in
  let* gi := load_image g in
  let* bi := load_image b in
  let* merged := alloc (OImage (Image_merge ModeRGB ri gi bi)) in
  img1 (fun im => Image_convert im ModeRGBA) merged.

(** [alpha_overlay(color, alpha_mask)], lines 76-79. *)
Definition alpha_overlay (color : rgb) (alpha_mask : loc) : M loc :=
  let '(r, g, b) := color in
  let* am := load_image alpha_mask in
  let* overlay := alloc (OImage (Image_new ModeRGBA (Image_size am) [r; g; b; 0%Z])) in
  img_update2 Image_putalpha overlay alpha_mask ;;
  ret overlay.

(** [draw_flame_mask(size, t, scale, y_bias, x_bias)], lines 82-132. *)
Definition draw_flame_mask (size : Z) (t scale y_bias x_bias : float) : M loc :=
  let* mask := alloc (OImage (Image_new ModeL (size, size) [0%Z])) in
  let draw := mask in

  let* wobble := lift (math_sin (2 * pi * t)) in
  let* wobble2 := lift (math_sin (2 * pi * (t + 0.23))) in
  let* wobble3 := lift (math_sin (2 * pi * (t + 0.41))) in

  let* fsize := lift (float_of_int size) in
  let cx := fsize * 0.5 + x_bias + (fsize * 0.018) * wobble2 in
  let base_y := fsize * 0.68 + y_bias + (fsize * 0.012) * wobble in

  let height := fsize * (0.60 * scale) * (1.0 + 0.06 * wobble) in
  let width := fsize * (0.44 * scale) * (1.0 + 0.05 * wobble2) in

  (* bottom body *)
  let body_h := height * 0.70 in
  let body_bbox :=
    (cx - width / 2, base_y - body_h / 2, cx + width / 2, base_y + body_h / 2) in
  img_update (fun im => ImageDraw_ellipse im body_bbox [255%Z]) draw ;;

  (* mid bulge *)
  let mid_w := width * (0.86 + 0.06 * wobble3) in
  let mid_h := body_h * 0.78 in
  let mid_y := base_y - body_h * 0.16 in
  img_update (fun im => ImageDraw_ellipse im
    (cx - mid_w / 2, mid_y - mid_h / 2, cx + mid_w / 2, mid_y + mid_h / 2) [255%Z]) draw ;;

  (* tip *)
  let tip_y := base_y - height * (0.58 + 0.02 * wobble2) in
  let tip_w := width * (0.48 + 0.04 * wobble3) in
  let tip_h := height * (0.40 + 0.03 * wobble) in
  img_update (fun im => ImageDraw_ellipse im
    (cx - tip_w / 2, tip_y - tip_h / 2, cx + tip_w / 2, tip_y + tip_h / 2) [255%Z]) draw ;;

  (* bridge *)
  let bridge_y := base_y - body_h * 0.18 in
  img_update (fun im => ImageDraw_polygon im
    [(cx, tip_y - tip_h * 0.44);
     (cx - width * 0.46, bridge_y);
     (cx + width * 0.46, bridge_y)] [255%Z]) draw ;;

  let* mask := img1 (fun im => Image_filter im (GaussianBlur (fsize * 0.008))) mask in
  let* mask := img1 (fun im => ImageEnhance_Contrast im 1.15) mask in
  ret mask.


(** The outer and the inner palette of the flame (lines 149-155, 175-180). *)
Definition outer_stops : list PaletteStop :=
  [mkStop 0.00 (255, 255, 246)%Z;
   mkStop 0.18 (255, 242, 170)%Z;
   mkStop 0.48 (255, 176, 50)%Z;
   mkStop 0.74 (255, 106, 18)%Z;
   mkStop 1.00 (235, 40, 6)%Z].

Definition inner_stops : list PaletteStop :=
  [mkStop 0.00 (255, 255, 255)%Z;
   mkStop 0.28 (255, 248, 196)%Z;
   mkStop 0.62 (255, 212, 106)%Z;
   mkStop 1.00 (255, 150, 40)%Z].

(** [render_flame_frame], lines 136-196: the layers below the ember.
    Returns the composed image. *)
Definition flame_layers (size : Z) (t : float) : M loc :=
  let margin := 56%Z in
  let* lg := alloc (OImage (Image_linear_gradient ModeL)) in
  let* linear_big :=
    img1 (fun im => Image_resize im (size, (size + margin)%Z) BICUBIC) lg in
  let* wobble := lift (math_sin (2 * pi * t)) in
  let* half := lift (true_div margin 2) in
  let* crop_y := lift (py_int (half + 12 * wobble)) in
  let crop_y := clamp_int crop_y 0 margin in
  let* linear :=
    img1 (fun im => Image_crop im (0%Z, crop_y, size, (crop_y + size)%Z)) linear_big in

  let* rg := alloc (OImage (Image_radial_gradient ModeL)) in
  let* edge := img1 (fun im => Image_resize im (size, size) BICUBIC) rg in
  let* center := img1 ImageOps_invert edge in

  let* s8 := lift (math_sin (2 * pi * (t + 0.08))) in
  let brightness := 1.0 + 0.05 * s8 in
  let* outer_list := alloc (OStops outer_stops) in
  let* outer_luts := build_luts outer_list brightness in
  let* fill := colorize_gradient linear outer_luts in

  (* edge shading and hot centre highlight *)
  let* shade_alpha := point_fn (scaled 0.18) edge in
  let* ov := alpha_overlay (0, 0, 0)%Z shade_alpha in
  let* fill := img2 Image_alpha_composite fill ov in

  let* s17 := lift (math_sin (2 * pi * (t + 0.17))) in
  let* dx := lift (py_int (8 * s17)) in
  let* dy := lift (py_int (-18 + 6 * wobble)) in
  let* highlight := img1 (fun im => ImageChops_offset im dx dy) center in
  let* highlight_alpha := point_fn (scaled 0.36) highlight in
  let* ov := alpha_overlay (255, 255, 255)%Z highlight_alpha in
  let* fill := img2 Image_alpha_composite fill ov in

  let* outer_mask := draw_flame_mask size t 1.0 0.0 0.0 in
  let* outer := img1 (fun im => im) fill in
  img_update2 Image_putalpha outer outer_mask ;;

  (* inner core *)
  let* nsize := lift (float_of_int (- size)) in
  let* fsize := lift (float_of_int size) in
  let* inner_mask := draw_flame_mask size t 0.62 (nsize * 0.02) (fsize * 0.01) in
  let* inner_list := alloc (OStops inner_stops) in
  let* s33 := lift (math_sin (2 * pi * (t + 0.33))) in
  let* inner_luts := build_luts inner_list (1.0 + 0.03 * s33) in
  let* inner_fill := colorize_gradient linear inner_luts in
  let* dy := lift (py_int (-26 + 4 * wobble)) in
  let* inner_glow := img1 (fun im => ImageChops_offset im 0%Z dy) center in
  let* inner_alpha := point_fn (scaled 0.42) inner_glow in
  let* ov := alpha_overlay (255, 255, 255)%Z inner_alpha in
  let* inner_fill := img2 Image_alpha_composite inner_fill ov in
  img_update2 Image_putalpha inner_fill inner_mask ;;

  let* composed := img2 Image_alpha_composite outer inner_fill in

  (* glow *)
  let* glow := img1 (fun im => Image_filter im (GaussianBlur (fsize * 0.02))) composed in
  let* glow := img1 (fun im => ImageEnhance_Brightness im 1.15) glow in
  let* ga := img1 (fun im => Image_getchannel im BandA) glow in
  let* glow_alpha := point_fn (scaled 0.70) ga in
  img_update2 Image_putalpha glow glow_alpha ;;
  img2 Image_alpha_composite glow composed.

(** Lines 199-208: the ember.  Returns the image to downscale: [composed]
    itself, or a new image with the ember composited on top. *)
Definition flame_ember (size : Z) (t : float) (composed : loc) : M loc :=
  let* ember := alloc (OImage (Image_new ModeRGBA (size, size) [0; 0; 0; 0]%Z)) in
  let ed := ember in
  let* s52 := lift (math_sin (2 * pi * (t + 0.52))) in
  let ember_on := 0.45 + 0.55 * s52 in
  if 0.55 <? ember_on then
    let* fsize := lift (float_of_int size) in
    let* s12 := lift (math_sin (2 * pi * (t + 0.12))) in
    let ex := fsize * 0.5 + (fsize * 0.05) * s12 in
    let* s64 := lift (math_sin (2 * pi * (t + 0.64))) in
    let ey := fsize * 0.22 + (fsize * 0.03) * s64 in
    let r := fsize * 0.018 * (0.9 + 0.4 * ember_on) in
    let* a := lift (py_int (140 * ember_on)) in
    img_update (fun im => ImageDraw_ellipse im (ex - r, ey - r, ex + r, ey + r)
                            [255; 255; 255; a]%Z) ed ;;
    let* ember := img1 (fun im => Image_filter im (GaussianBlur (fsize * 0.006))) ember in
    img2 Image_alpha_composite composed ember
  else ret composed.

(** Lines 211-213: downscale and sharpen. *)
Definition flame_finish (out_size : Z) (composed : loc) : M loc :=
  let* out := img1 (fun im => Image_resize im (out_size, out_size) LANCZOS) composed in
  img1 (fun im => Image_filter im (UnsharpMask 1.2 160 2)) out.

(** [render_flame_frame(size, out_size, t)], lines 135-213. *)
Definition render_flame_frame (size out_size : Z) (t : float) : M loc :=
  let* composed := flame_layers size t in
  let* composed := flame_ember size t composed in
  flame_finish out_size composed.

(** [star_points(cx, cy, r_outer, r_inner, points, rotation)], lines 216-223.
    The list is built and returned inside one call and only read afterwards;
    it is modelled by its value. *)
Definition star_point (cx cy r_outer r_inner rotation step : float) (i : Z)
  : result (float * float) :=
  let r := if (i mod 2 =? 0)%Z then r_outer else r_inner in
  let? fi := float_of_int i in
  let angle := rotation + fi * step in
  let? c := math_cos angle in
  let? s := math_sin angle in
  Ok (cx + r * c, cy + r * s).

Definition star_points (cx cy r_outer r_inner : float) (points : Z) (rotation : float)
  : result (list (float * float)) :=
  let? fp := float_of_int points in
  let? step := py_div pi fp in
  rmap (star_point cx cy r_outer r_inner rotation step)
       (map Z.of_nat (seq 0 (Z.to_nat (points * 2)))).

(** Lines 227-263: the star drawn on its canvas.  Returns the canvas. *)
Definition star_shapes (size : Z) (t : float) : M loc :=
  let* img := alloc (OImage (Image_new ModeRGBA (size, size) [0; 0; 0; 0]%Z)) in
  let draw := img in

  let* s0 := lift (math_sin (2 * pi * t)) in
  let pulse := 0.5 + 0.5 * s0 in
  let* s27 := lift (math_sin (2 * pi * (t + 0.27))) in
  let pulse2 := 0.5 + 0.5 * s27 in
  let* s10 := lift (math_sin (2 * pi * (t + 0.10))) in
  let rotation := (pi / 10) * s10 in
  let scale := 0.92 + 0.10 * pulse in

  let* fsize := lift (float_of_int size) in
  let cx := fsize * 0.5 in
  let cy := fsize * 0.5 in

  let outer := fsize * 0.25 * scale in
  let inner := fsize * 0.10 * scale in
  let* main_pts := lift (star_points cx cy outer inner 4 rotation) in
  img_update (fun im => ImageDraw_polygon im main_pts [255; 220; 80; 240]%Z) draw ;;

  let* core_pts := lift (star_points cx cy (outer * 0.58) (inner * 0.44) 4 rotation) in
  let* a := lift (py_int (150 + 60 * pulse2)) in
  img_update (fun im => ImageDraw_polygon im core_pts [255; 255; 255; a]%Z) draw ;;

  (* cross streaks *)
  let streak_len := outer * (0.95 + 0.18 * pulse) in
  let* w := lift (py_int (fsize * 0.010)) in
  let streak_w := Z.max 2 w in
  let* a := lift (py_int (90 + 80 * pulse2)) in
  img_update (fun im => ImageDraw_line im (cx - streak_len, cy, cx + streak_len, cy)
                          [255; 255; 255; a]%Z streak_w) draw ;;
  let* a := lift (py_int (80 + 70 * pulse)) in
  img_update (fun im => ImageDraw_line im (cx, cy - streak_len, cx, cy + streak_len)
                          [255; 255; 255; a]%Z streak_w) draw ;;

  (* twinkles *)
  let tx := cx + fsize * 0.20 in
  let ty := cy - fsize * 0.18 in
  let tw_outer := fsize * 0.085 * (0.85 + 0.22 * (1 - pulse)) in
  let tw_inner := fsize * 0.030 * (0.85 + 0.22 * (1 - pulse)) in
  let* pts := lift (star_points tx ty tw_outer tw_inner 4 (- rotation * 1.3)) in
  let* a := lift (py_int (90 + 80 * pulse)) in
  img_update (fun im => ImageDraw_polygon im pts [255; 255; 255; a]%Z) draw ;;

  let bx := cx - fsize * 0.20 in
  let by_ := cy + fsize * 0.18 in
  let bw_outer := fsize * 0.060 * (0.90 + 0.25 * pulse2) in
  let bw_inner := fsize * 0.022 * (0.90 + 0.25 * pulse2) in
  let* pts := lift (star_points bx by_ bw_outer bw_inner 4 (rotation * 1.1)) in
  let* a := lift (py_int (60 + 70 * pulse2)) in
  img_update (fun im => ImageDraw_polygon im pts [255; 255; 255; a]%Z) draw ;;
  ret img.

(** Lines 265-274: glow under the drawing, downscale, sharpen. *)
Definition star_finish (size out_size : Z) (img : loc) : M loc :=
  let* fsize := lift (float_of_int size) in
  let* glow := img1 (fun im => Image_filter im (GaussianBlur (fsize * 0.018))) img in
  let* glow := img1 (fun im => ImageEnhance_Brightness im 1.12) glow in
  let* ga := img1 (fun im => Image_getchannel im BandA) glow in
  let* glow_alpha := point_fn (scaled 0.80) ga in
  img_update2 Image_putalpha glow glow_alpha ;;
  let* img := img2 Image_alpha_composite glow img in
  let* out := img1 (fun im => Image_resize im (out_size, out_size) LANCZOS) img in
  img1 (fun im => Image_filter im (UnsharpMask 1.0 140 2)) out.

(** [render_star_frame(size, out_size, t)], lines 226-274. *)
Definition render_star_frame (size out_size : Z) (t : float) : M loc :=
  let* img := star_shapes size t in
  star_finish size out_size img.

End Images.

(** ** Running the image calls on a store [h ++ d] *)

(** The samples of [build_luts] as a list, empty if a sample raised. *)
Definition luts_table (S : list PaletteStop) (brightness : float) : list rgb :=
  match rmap (sample (pad_stops (sorted_by_at S)) brightness) range256 with
  | Ok cs => cs
  | Raise _ => []
  end.

(** The table [point] builds from [lambda v: int(v * k)]. *)
Definition scaled_table (k : float) : list Z :=
  match rmap (scaled k) range256 with
  | Ok l => l
  | Raise _ => []
  end.

Definition tabulates (k : float) : bool :=
  match rmap (scaled k) range256 with
  | Ok _ => true
  | Raise _ => false
  end.

Lemma scaled_table_ok k : tabulates k = true -> rmap (scaled k) range256 = Ok (scaled_table k).
Proof.
  unfold tabulates, scaled_table. destruct (rmap (scaled k) range256); [reflexivity|discriminate].
Qed.

Lemma math_call_total f K x : fin K x -> math_call f x = Ok (f x).
Proof. unfold fin, math_call. destruct (Prim2SF x); simpl; tauto || reflexivity. Qed.

Section ImageRuns.

Context {image : Type} `{Imaging image} `{Libm}.

Implicit Types h d : heap image.

Lemma load_image_new h d (k : nat) x :
  d !! k = Some (OImage x) -> load_image (length h + k)%nat (h ++ d) = (Ok x, h ++ d).
Proof. intros E. unfold load_image. rewrite bind_run, load_app_new, E. reflexivity. Qed.

Lemma img1_new h d (k : nat) x f :
  d !! k = Some (OImage x) ->
  img1 f (length h + k)%nat (h ++ d) =
    (Ok (length h + length d)%nat, h ++ (d ++ [OImage (f x)])).
Proof.
  intros E. unfold img1. rewrite bind_run. erewrite load_image_new by eauto.
  apply alloc_app.
Qed.

Lemma img2_new h d (k j : nat) x y f :
  d !! k = Some (OImage x) -> d !! j = Some (OImage y) ->
  img2 f (length h + k)%nat (length h + j)%nat (h ++ d) =
    (Ok (length h + length d)%nat, h ++ (d ++ [OImage (f x y)])).
Proof.
  intros E1 E2. unfold img2. rewrite bind_run. erewrite load_image_new by eauto.
  rewrite bind_run. erewrite load_image_new by eauto. apply alloc_app.
Qed.

Lemma img_update_new h d (k : nat) x f :
  d !! k = Some (OImage x) ->
  img_update f (length h + k)%nat (h ++ d) = (Ok tt, h ++ <[k := OImage (f x)]> d).
Proof.
  intros E. unfold img_update. rewrite bind_run. erewrite load_image_new by eauto.
  apply store_app_new. eapply lookup_lt_Some; eauto.
Qed.

Lemma img_update2_new h d (k j : nat) x y f :
  d !! k = Some (OImage x) -> d !! j = Some (OImage y) ->
  img_update2 f (length h + k)%nat (length h + j)%nat (h ++ d) =
    (Ok tt, h ++ <[k := OImage (f x y)]> d).
Proof.
  intros E1 E2. unfold img_update2. rewrite bind_run. erewrite load_image_new by eauto.
  rewrite bind_run. erewrite load_image_new by eauto.
  apply store_app_new. eapply lookup_lt_Some; eauto.
Qed.

Lemma point_fn_new h d (k : nat) x c :
  tabulates c = true -> d !! k = Some (OImage x) ->
  point_fn (scaled c) (length h + k)%nat (h ++ d) =
    (Ok (length h + length d)%nat, h ++ (d ++ [OImage (Image_point x (scaled_table c))])).
Proof.
  intros Hc E. unfold point_fn. rewrite bind_run, lift_run, (scaled_table_ok c Hc).
  exact (img1_new h d k x (fun im => Image_point im (scaled_table c)) E).
Qed.

Lemma build_luts_new h d (k : nat) S brightness :
  d !! k = Some (OStops S) -> S <> [] -> Forall stop8 S ->
  build_luts (length h + k)%nat brightness (h ++ d) =
    (Ok (length h + (length d + 1), length h + (length d + 2),
         length h + (length d + 3))%nat,
     h ++ (d ++ [OStops (pad_stops (sorted_by_at S));
                 OInts (map red (luts_table S brightness));
                 OInts (map green (luts_table S brightness));
                 OInts (map blue (luts_table S brightness))])).
Proof.
  intros E Hne H8.
  assert (Hl : (h ++ d) !! (length h + k)%nat = Some (OStops S)).
  { rewrite lookup_app_r by lia. replace (length h + k - length h)%nat with k by lia. exact E. }
  destruct (build_luts_ok (h ++ d) _ S brightness Hl Hne H8) as (cs & Hcs & _ & _ & ->).
  unfold luts_table. rewrite Hcs, length_app, <- app_assoc, !Nat.add_assoc. reflexivity.
Qed.

End ImageRuns.

(** Names the image a call has just stored, so that the store stays a list
    of names while a run is followed. *)
Ltac name_images :=
  repeat match goal with
         | |- context [OImage ?x] =>
             tryif is_var x then fail else (let v := fresh "im" in set (v := x))
         end.

Ltac image_step :=
  first
    [ rewrite bind_run
    | rewrite ret_run
    | rewrite raise_run
    | rewrite lift_run
    | rewrite alloc_app
    | erewrite img1_new by reflexivity
    | erewrite img2_new by reflexivity
    | erewrite img_update_new by reflexivity
    | erewrite img_update2_new by reflexivity
    | erewrite point_fn_new by reflexivity
    | erewrite load_image_new by reflexivity
    | erewrite load_ints_new by reflexivity
    | erewrite build_luts_new
        by first [reflexivity | discriminate | repeat constructor; simpl; lia] ];
  heap_simpl;
  name_images.

(** Decides the outcome of a fallible step that does not touch the store,
    or the test of a conditional. *)
Ltac split_result :=
  match goal with
  | |- context [match ?r with Ok _ => _ | Raise _ => _ end] =>
      lazymatch r with
      | Ok _ => fail
      | Raise _ => fail
      | _ => destruct r
      end
  | |- context [if ?b then _ else _] =>
      lazymatch b with
      | true => fail
      | false => fail
      | _ => destruct b
      end
  end;
  cbv beta iota.

(** ** Runs from two stores

    [relocate h o] reads an outcome relative to the store [h] the run started
    from: a reference [k] objects past the end of [h], or an exception.  Two
    runs are the same up to the store they started from when they add the
    same objects and end in the same relative outcome. *)

Definition relocate {image} (h : heap image) (o : result nat) : result loc :=
  match o with
  | Ok k => Ok (length h + k)%nat
  | Raise e => Raise e
  end.

Definition same_run {image} (h1 h2 : heap image)
    (r1 r2 : result loc * heap image) : Prop :=
  exists o d, r1 = (relocate h1 o, h1 ++ d) /\ r2 = (relocate h2 o, h2 ++ d).

Ltac same_run_done :=
  unfold same_run;
  lazymatch goal with
  | |- exists o d, (Ok (length _ + ?k)%nat, _ ++ ?D) = _ /\ _ =>
      exists (Ok k), D; split; reflexivity
  | |- exists o d, (Raise ?e, _ ++ ?D) = _ /\ _ =>
      exists (Raise e), D; split; reflexivity
  end.

Ltac unfold_render :=
  unfold render_flame_frame, flame_layers, flame_ember, flame_finish,
         render_star_frame, star_shapes, star_finish,
         draw_flame_mask, colorize_gradient, alpha_overlay.

Section Determinism.

Context {image : Type} `{Imaging image} `{Libm}.

Lemma render_star_frame_same (size out_size : Z) (t : float) (h1 h2 : heap image) :
  same_run h1 h2 (render_star_frame size out_size t (h1 ++ []))
                 (render_star_frame size out_size t (h2 ++ [])).
Proof.
  unfold_render.
  repeat first [image_step | split_result].
  all: same_run_done.
Qed.

Lemma render_flame_frame_same (size out_size : Z) (t : float) (h1 h2 : heap image) :
  same_run h1 h2 (render_flame_frame size out_size t (h1 ++ []))
                 (render_flame_frame size out_size t (h2 ++ [])).
Proof.
  unfold_render.
  repeat first [image_step | split_result].
  all: same_run_done.
Qed.

End Determinism.

(** The frame a run returned (or the exception it raised). *)
Definition frame_of {image} (r : result loc * heap image)
  : result (option (obj image)) :=
  match r.1 with
  | Ok l => Ok (r.2 !! l)
  | Raise e => Raise e
  end.

(** A computation whose frame does not depend on the store it starts from,
    and which only adds objects to that store, the same ones whatever the
    store. *)
Definition independent_of_store {image} (m : M image loc) : Prop :=
  forall h1 h2 : heap image,
    frame_of (m h1) = frame_of (m h2) /\
    exists d, (m h1).2 = h1 ++ d /\ (m h2).2 = h2 ++ d.

Lemma same_run_independent {image} (m : M image loc) :
  (forall h1 h2, same_run h1 h2 (m (h1 ++ [])) (m (h2 ++ []))) ->
  independent_of_store m.
Proof.
  intros Hm h1 h2. specialize (Hm h1 h2). rewrite !app_nil_r in Hm.
  destruct Hm as (o & d & -> & ->). split; [|exists d; auto].
  unfold frame_of; destruct o as [k|e]; cbn [relocate fst snd]; [|reflexivity].
  rewrite !lookup_app_r by lia. f_equal. f_equal; lia.
Qed.

(** C3.  Rendering is deterministic and carries no state from one call to
    the next: started from any two stores (for instance the store before and
    the store after another frame was rendered), a renderer called on the
    same canvas size, output size and phase returns the same frame, or raises
    the same exception, adds the same objects and leaves every earlier
    object as it was. *)
Theorem render_deterministic {image : Type} `{Imaging image} `{Libm}
    (size out_size : Z) (t : float) :
  independent_of_store (render_flame_frame size out_size t) /\
  independent_of_store (render_star_frame size out_size t).
Proof.
  split; apply same_run_independent; intros h1 h2.
  - apply render_flame_frame_same.
  - apply render_star_frame_same.
Qed.

(** ** The ember of the flame *)

Lemma true_div_margin : true_div 56 2 = Ok 28.
Proof. reflexivity. Qed.

Ltac fin_side := vm_compute; repeat split; discriminate.

Section Ember.

Context {image : Type} `{Imaging image} `{Libm}.

Variables (size out_size : Z) (t : float).

(** The flicker value of line 201 at phase [t]. *)
Definition ember_on : float := 0.45 + 0.55 * libm_sin (2 * pi * (t + 0.52)).

(** The transparent canvas of line 199, the canvas with the dot drawn on it
    (line 206) and the blurred ember layer (line 207). *)
Definition ember_canvas : image := Image_new ModeRGBA (size, size) [0; 0; 0; 0]%Z.

Definition ember_dot : image :=
  let fsize := Z2F size in
  let ex := fsize * 0.5 + (fsize * 0.05) * libm_sin (2 * pi * (t + 0.12)) in
  let ey := fsize * 0.22 + (fsize * 0.03) * libm_sin (2 * pi * (t + 0.64)) in
  let r := fsize * 0.018 * (0.9 + 0.4 * ember_on) in
  ImageDraw_ellipse ember_canvas (ex - r, ey - r, ex + r, ey + r)
    [255; 255; 255; int_of (140 * ember_on)]%Z.

Definition ember_layer : image :=
  Image_filter ember_dot (GaussianBlur (Z2F size * 0.006)).

(** Lines 211-212 applied to an image. *)
Definition downscaled (im : image) : image :=
  Image_resize im (out_size, out_size) LANCZOS.

Definition sharpened (im : image) : image :=
  Image_filter (downscaled im) (UnsharpMask 1.2 160 2).

End Ember.

(** ** Two instances of the interfaces

    [recorded] reads the imaging library symbolically: an image is the record
    of the calls that made it.  Two frames that are equal as records are
    equal under every implementation of the library. *)

Inductive recorded : Type :=
  | RNew (m : mode) (size : Z * Z) (color : list Z)
  | RLinearGradient (m : mode)
  | RRadialGradient (m : mode)
  | RResize (im : recorded) (size : Z * Z) (r : resampling)
  | RCrop (im : recorded) (b : Z * Z * Z * Z)
  | RPoint (im : recorded) (lut : list Z)
  | RMerge (m : mode) (r g b : recorded)
  | RConvert (im : recorded) (m : mode)
  | RGetchannel (im : recorded) (b : band)
  | RFilter (im : recorded) (f : image_filter)
  | RAlphaComposite (dst src : recorded)
  | RInvert (im : recorded)
  | ROffset (im : recorded) (dx dy : Z)
  | RContrast (im : recorded) (factor : float)
  | RBrightness (im : recorded) (factor : float)
  | RPutalpha (im alpha : recorded)
  | REllipse (im : recorded) (b : box) (fill : list Z)
  | RPolygon (im : recorded) (pts : list (float * float)) (fill : list Z)
  | RLine (im : recorded) (b : box) (fill : list Z) (width : Z).

Fixpoint recorded_size (im : recorded) : Z * Z :=
  match im with
  | RNew _ size _ => size
  | RLinearGradient _ | RRadialGradient _ => (256, 256)%Z
  | RResize _ size _ => size
  | RCrop _ (x0, y0, x1, y1) => (x1 - x0, y1 - y0)%Z
  | RPoint im _ | RConvert im _ | RGetchannel im _ | RFilter im _
  | RInvert im | ROffset im _ _ | RContrast im _ | RBrightness im _
  | REllipse im _ _ | RPolygon im _ _ | RLine im _ _ _ => recorded_size im
  | RMerge _ r _ _ => recorded_size r
  | RAlphaComposite dst _ => recorded_size dst
  | RPutalpha im _ => recorded_size im
  end.

#[export] Instance recorded_imaging : Imaging recorded := {|
  Image_new := RNew;
  Image_linear_gradient := RLinearGradient;
  Image_radial_gradient := RRadialGradient;
  Image_size := recorded_size;
  Image_resize := RResize;
  Image_crop := RCrop;
  Image_point := RPoint;
  Image_merge := RMerge;
  Image_convert := RConvert;
  Image_getchannel := RGetchannel;
  Image_filter := RFilter;
  Image_alpha_composite := RAlphaComposite;
  ImageOps_invert := RInvert;
  ImageChops_offset := ROffset;
  ImageEnhance_Contrast := RContrast;
  ImageEnhance_Brightness := RBrightness;
  Image_putalpha := RPutalpha;
  ImageDraw_ellipse := REllipse;
  ImageDraw_polygon := RPolygon;
  ImageDraw_line := RLine
|}.

(** A sine that is constant: enough to run the renderers. *)
Definition constant_sine (v : float) : Libm :=
  {| libm_sin := fun _ => v; libm_cos := fun _ => v |}.

(** ** The loop: phase 0 and phase 1 *)

(** A sine for binary64: the argument is reduced by the nearest multiple of
    2 pi, held as the float [2 * pi] and the remainder of 2 pi below it, and
    the Taylor polynomial of degree 13 is evaluated on what is left.  At 0
    and at the float [2 * pi] it returns what the C library returns: 0 and
    -2.4492935982947064e-16. *)
Definition two_pi_low : float := 0x1.1a62633145c07p-52.

Definition reduce_phase (x : float) : float :=
  let k := Z2F (match py_round (x / (2 * pi)) with Ok z => z | Raise _ => 0%Z end) in
  (x - k * (2 * pi)) - k * two_pi_low.

Definition sine_poly (r : float) : float :=
  let r2 := r * r in
  r * (1 - r2 / 6 * (1 - r2 / 20 * (1 - r2 / 42 * (1 - r2 / 72 *
       (1 - r2 / 110 * (1 - r2 / 156)))))).




(** With the C library's values of the sine at 0 and at [2 * pi], line 140
    gives the crop offset 28 at phase 0 and 27 at phase 1:
    [28 + 12 * (-2.45e-16)] rounds to the float just below 28, and [int]
    truncates it. *)
Lemma flame_crop_offset_at_loop_ends `{Libm} :
  libm_sin 0 = 0 -> libm_sin (2 * pi * 1) = -0x1.1a62633145c07p-52 ->
  py_int (28 + 12 * libm_sin (2 * pi * 0)) = Ok 28%Z /\
  py_int (28 + 12 * libm_sin (2 * pi * 1)) = Ok 27%Z.
Proof.
  intros H0 H1. rewrite H1. change (2 * pi * 0) with 0. rewrite H0.
  split; reflexivity.
Qed.


(** ** The GIF frame: [rgba_to_gif_frame], lines 277-291

    Here the pixels matter, so a frame is a raster.  The function reads its
    argument and builds every other image itself; the one it returns is the
    palette image it pasted into.  Two library behaviours are parameters:
    the adaptive palette conversion ([quantize], which returns a palette and
    one index per pixel) and what [paste] writes where the mask is neither 0
    nor 255 ([mix]; the mask built here never holds such a value). *)

Definition pixel : Type := Z * Z * Z * Z.

Definition alpha_of (p : pixel) : Z := p.2.

Record rgba_frame := { frame_size : Z * Z; frame_pixels : list pixel }.

Record palette_frame := {
  palette_size : Z * Z;
  palette_colors : list rgb;
  palette_indices : list Z;
  info_transparency : option Z
}.

Section GifFrame.

Variable quantize : rgba_frame -> Z -> list rgb * list Z.
Variable mix : Z -> Z -> Z -> Z.

(** [rgba.convert("P", palette=ADAPTIVE, colors=colors, dither=NONE)] *)
Definition convert_adaptive (rgba : rgba_frame) (colors : Z) : palette_frame :=
  let '(pal, idx) := quantize rgba colors in
  {| palette_size := frame_size rgba; palette_colors := pal;
     palette_indices := idx; info_transparency := None |}.

(** [im.paste(color, mask)] on one pixel: the colour where the mask is 255,
    the old value where it is 0. *)
Definition paste_pixel (color old m : Z) : Z :=
  if (m =? 255)%Z then color else if (m =? 0)%Z then old else mix color old m.

Fixpoint paste_all (color : Z) (old mask : list Z) : list Z :=
  match old, mask with
  | o :: old', m :: mask' => paste_pixel color o m :: paste_all color old' mask'
  | _, _ => old
  end.

Definition rgba_to_gif_frame (img : rgba_frame) (alpha_threshold colors : Z)
  : palette_frame :=
  let rgba := img in
  let alpha := map alpha_of (frame_pixels rgba) in
  let pal := convert_adaptive rgba colors in
  let transparent := map (fun a => if (a <=? alpha_threshold)%Z then 255 else 0)%Z alpha in
  let pasted := paste_all 0 (palette_indices pal) transparent in
  {| palette_size := palette_size pal; palette_colors := palette_colors pal;
     palette_indices := pasted; info_transparency := Some 0%Z |}.

Lemma paste_all_lookup (color : Z) :
  forall (old mask : list Z) (i : nat) (o m : Z),
  old !! i = Some o -> mask !! i = Some m ->
  paste_all color old mask !! i = Some (paste_pixel color o m).
Proof.
  induction old as [|a old IH]; intros mask i o m Ho Hm; [discriminate|].
  destruct mask as [|b mask]; [destruct i; discriminate|].
  destruct i as [|i]; simpl in *.
  - congruence.
  - eapply IH; eauto.
Qed.

Lemma lookup_map_Some {A B} (f : A -> B) (l : list A) (i : nat) (a : A) :
  l !! i = Some a -> map f l !! i = Some (f a).
Proof.
  revert i. induction l as [|x l IH]; intros [|i]; simpl; try discriminate.
  - intros E; inversion E; reflexivity.
  - apply IH.
Qed.

(** The index [rgba_to_gif_frame] gives a pixel: 0 for a transparent one, the
    quantizer's index for any other. *)
Lemma gif_frame_index (img : rgba_frame) (alpha_threshold colors : Z)
    (i : nat) (p : pixel) (k : Z) :
  frame_pixels img !! i = Some p ->
  (quantize img colors).2 !! i = Some k ->
  palette_indices (rgba_to_gif_frame img alpha_threshold colors) !! i =
    Some (if (alpha_of p <=? alpha_threshold)%Z then 0%Z else k).
Proof.
  intros Hp Hk. unfold rgba_to_gif_frame, convert_adaptive.
  destruct (quantize img colors) as [pal idx] eqn:Eq. simpl in *.
  erewrite paste_all_lookup; [|exact Hk|].
  2:{ apply lookup_map_Some. apply lookup_map_Some. exact Hp. }
  unfold paste_pixel. destruct (alpha_of p <=? alpha_threshold)%Z; reflexivity.
Qed.

End GifFrame.

(** A palette conversion for the examples: the palette is the list of the
    distinct colours in order of first appearance, cut to [colors] entries;
    a pixel gets the position of its colour (of the first entry if its
    colour was cut). *)
Definition rgb_of (p : pixel) : rgb := p.1.

Definition rgb_eqb (a b : rgb) : bool :=
  (a.1.1 =? b.1.1)%Z && (a.1.2 =? b.1.2)%Z && (a.2 =? b.2)%Z.

Fixpoint position (c : rgb) (pal : list rgb) : Z :=
  match pal with
  | [] => 0
  | c' :: pal' => if rgb_eqb c c' then 0 else 1 + position c pal'
  end%Z.

Fixpoint distinct (l : list rgb) (seen : list rgb) : list rgb :=
  match l with
  | [] => []
  | c :: l' =>
      if existsb (rgb_eqb c) seen then distinct l' seen
      else c :: distinct l' (c :: seen)
  end.

Definition first_seen_palette (img : rgba_frame) (colors : Z) : list rgb * list Z :=
  let pal := take (Z.to_nat colors) (distinct (map rgb_of (frame_pixels img)) []) in
  (pal, map (fun p => let k := position (rgb_of p) pal in
                      if (k <? Z.of_nat (length pal))%Z then k else 0%Z)
            (frame_pixels img)).

(** One opaque red pixel. *)
Definition red_dot : rgba_frame :=
  {| frame_size := (1, 1)%Z; frame_pixels := [(255, 0, 0, 255)%Z] |}.

(** The transparent pixels: every pixel whose alpha is at most the threshold
    gets index 0, whatever the palette conversion returned for it, as long as
    the conversion returned one index per pixel. *)
Lemma gif_frame_transparent_pixels quantize mix (img : rgba_frame)
    (alpha_threshold colors : Z) (i : nat) (p : pixel) :
  length (quantize img colors).2 = length (frame_pixels img) ->
  frame_pixels img !! i = Some p ->
  (alpha_of p <= alpha_threshold)%Z ->
  palette_indices (rgba_to_gif_frame quantize mix img alpha_threshold colors) !! i
    = Some 0%Z.
Proof.
  intros Hlen Hp Ha.
  destruct ((quantize img colors).2 !! i) as [k|] eqn:Ek.
  - rewrite (gif_frame_index quantize mix img alpha_threshold colors i p k Hp Ek).
    apply Z.leb_le in Ha. rewrite Ha. reflexivity.
  - apply lookup_ge_None in Ek. apply lookup_lt_Some in Hp. lia.
Qed.

(** A transparent pixel next to an opaque one. *)
Definition hole_and_dot : rgba_frame :=
  {| frame_size := (2, 1)%Z; frame_pixels := [(0, 0, 0, 0)%Z; (255, 0, 0, 255)%Z] |}.

Lemma gif_frame_transparent_pixels_witness :
  palette_indices
    (rgba_to_gif_frame first_seen_palette (fun c _ _ => c) hole_and_dot 8 128) !! 0%nat
    = Some 0%Z.
Proof.
  apply (gif_frame_transparent_pixels first_seen_palette (fun c _ _ => c)
           hole_and_dot 8 128 0 (0, 0, 0, 0)%Z).
  - reflexivity.
  - reflexivity.
  - simpl. lia.
Defined.

(** C1 fails in its second half.  The red dot with the default threshold 8 and 128
    colours: the pixel is opaque, the palette is the one colour red, and the
    pixel comes out with index 0, the index the frame declares transparent. *)
Lemma gif_frame_opaque_pixel_at_index_0 :
  let out := rgba_to_gif_frame first_seen_palette (fun c _ _ => c) red_dot 8 128 in
  frame_pixels red_dot = [(255, 0, 0, 255)%Z] /\
  palette_colors out = [(255, 0, 0)%Z] /\
  palette_indices out = [0%Z] /\
  info_transparency out = Some 0%Z.
Proof. repeat split. Qed.

(** ** More on [clamp], [lerp] and [lerp_color] *)

Lemma SFcompare_refl (x : spec_float) : x <> S754_nan -> SFcompare x x = Some Eq.
Proof.
  destruct x as [s|s| |s m e]; intros Hx; try congruence.
  - reflexivity.
  - destruct s; reflexivity.
  - unfold SFcompare. rewrite Z.compare_refl.
    destruct s; rewrite Pos.compare_cont_refl; reflexivity.
Qed.

Lemma leb_refl_l (a b : float) : (a <=? b) = true -> (a <=? a) = true.
Proof.
  rewrite !leb_spec. unfold SFleb. intros H.
  rewrite SFcompare_refl; [reflexivity|].
  intros E. rewrite E in H. discriminate.
Qed.

Lemma leb_refl_r (a b : float) : (a <=? b) = true -> (b <=? b) = true.
Proof.
  rewrite !leb_spec. unfold SFleb. intros H.
  rewrite SFcompare_refl; [reflexivity|].
  intros E. rewrite E in H. destruct (Prim2SF a); discriminate.
Qed.

Lemma ltb_nan_l (x : float) : Prim2SF x = S754_nan -> forall y, (x <? y) = false.
Proof. intros E y. rewrite ltb_spec, E. reflexivity. Qed.

(** [clamp] between two ordered bounds returns a float between them for every
    value, the infinities and NaN included; a value strictly between the
    bounds is returned as it is, and between two distinct bounds NaN is
    clamped to the upper one. *)
Theorem clamp_within (value low high : float) :
  (low <=? high) = true ->
  ((low <=? clamp value low high) = true /\ (clamp value low high <=? high) = true) /\
  ((low <? value) = true -> (value <? high) = true -> clamp value low high = value) /\
  (Prim2SF value = S754_nan -> (low <? high) = true -> clamp value low high = high).
Proof.
  intros Hlh.
  pose proof (leb_refl_l _ _ Hlh) as Hll. pose proof (leb_refl_r _ _ Hlh) as Hhh.
  unfold clamp, py_max, py_min. repeat split.
  - destruct (value <? high) eqn:E1.
    + destruct (low <? value) eqn:E2; [apply ltb_leb; exact E2 | exact Hll].
    + destruct (low <? high); [exact Hlh | exact Hll].
  - destruct (value <? high) eqn:E1.
    + destruct (low <? value) eqn:E2; [apply ltb_leb; exact E1 | exact Hlh].
    + destruct (low <? high); [exact Hhh | exact Hlh].
  - intros H1 H2. rewrite H2, H1. reflexivity.
  - intros Hn Hlt. rewrite (ltb_nan_l value Hn), Hlt. reflexivity.
Qed.

Lemma clamp_within_witness :
  ((0 <=? clamp 300 0 255) = true /\ (clamp 300 0 255 <=? 255) = true) /\
  ((0 <? 300) = true -> (300 <? 255) = true -> clamp 300 0 255 = 300) /\
  (Prim2SF 300 = S754_nan -> (0 <? 255) = true -> clamp 300 0 255 = 255).
Proof. apply (clamp_within 300 0 255). reflexivity. Defined.

(** Two floats that compare equal round to the same integer. *)
Lemma eqb_round (x y : float) : (x =? y) = true -> py_round x = py_round y.
Proof.
  rewrite FloatAxioms.eqb_spec. unfold py_round, SFeqb.
  destruct (Prim2SF x) as [sx|sx| |sx mx ex], (Prim2SF y) as [sy|sy| |sy my ey];
    cbn [SFcompare round_sf]; try discriminate; try reflexivity;
    try (destruct sx; discriminate); try (destruct sy; discriminate).
  destruct sx, sy; try discriminate;
    destruct (Z.compare_spec ex ey) as [-> | |]; try discriminate;
    rewrite Pos.compare_cont_spec; cbn [Pos.switch_Eq];
    (destruct (Pos.compare_spec mx my); try discriminate; subst; reflexivity).
Qed.

(** A test on the floats of two bytes and of their difference, run over all
    pairs of bytes; the floats are tabulated once. *)
Definition pair_check (F : Z -> float) (test : float -> float -> float -> bool) : bool :=
  let tbl := map F small_ints in
  let bf := map (fun a => (a, F a)) bytes in
  forallb (fun p : Z * float => let (a, a') := p in
    forallb (fun q : Z * float => let (b, b') := q in
      test a' (nth (Z.to_nat (b - a + 255)) tbl 0) b') bf) bf.

Lemma small_ints_nth {A} (f : Z -> A) (x : A) (d : Z) :
  (-255 <= d <= 255)%Z -> nth (Z.to_nat (d + 255)) (map f small_ints) x = f d.
Proof.
  intros Hd. unfold small_ints. rewrite map_map.
  rewrite (nth_indep _ x (f (Z.of_nat 0 - 255)%Z)) by (rewrite length_map, length_seq; lia).
  rewrite (map_nth (fun n => f (Z.of_nat n - 255)%Z) (seq 0 511) 0%nat).
  rewrite seq_nth by lia. f_equal. lia.
Qed.

Lemma pair_check_sound (F : Z -> float) (test : float -> float -> float -> bool) :
  pair_check F test = true ->
  forall a b, channel8 a -> channel8 b -> test (F a) (F (b - a)%Z) (F b) = true.
Proof.
  intros Hc a b Ha Hb. unfold pair_check in Hc. cbv zeta in Hc.
  assert (Hin : forall c, channel8 c -> In (c, F c) (map (fun a => (a, F a)) bytes)).
  { intros c Hcc. apply in_map_iff. exists c. split; [reflexivity | apply in_bytes; exact Hcc]. }
  rewrite forallb_forall in Hc.
  specialize (Hc (a, F a) (Hin a Ha)). cbv beta iota in Hc.
  rewrite forallb_forall in Hc.
  specialize (Hc (b, F b) (Hin b Hb)). cbv beta iota in Hc.
  unfold channel8 in Ha, Hb.
  rewrite (small_ints_nth F 0 (b - a)%Z) in Hc by lia. exact Hc.
Qed.

Lemma lerp_one_checked : pair_check Z2F (fun a' d b' => a' + d * 1 =? b') = true.
Proof. vm_compute. reflexivity. Qed.

Lemma bytes_round_trip :
  forallb (fun a => match py_round (Z2F a) with Ok z => (z =? a)%Z | Raise _ => false end)
          bytes = true.
Proof. vm_compute. reflexivity. Qed.

Lemma py_round_byte (a : Z) : channel8 a -> py_round (Z2F a) = Ok a.
Proof.
  intros Ha. pose proof bytes_round_trip as Hb. rewrite forallb_forall in Hb.
  specialize (Hb a (in_bytes a Ha)).
  destruct (py_round (Z2F a)) as [z|]; [|discriminate].
  apply Z.eqb_eq in Hb. congruence.
Qed.


Lemma lerp_one (a b : Z) :
  channel8 a -> channel8 b -> exists x, lerp a b 1 = Ok x /\ py_round x = Ok b.
Proof.
  intros Ha Hb. unfold channel8 in *. unfold lerp.
  rewrite (float_of_int_Z2F (b - a) 9) by (simpl; lia).
  rewrite (float_of_int_Z2F a 9) by (simpl; lia). cbn [rbind].
  eexists; split; [reflexivity|].
  rewrite <- (py_round_byte b Hb). apply eqb_round.
  exact (pair_check_sound Z2F _ lerp_one_checked a b Ha Hb).
Qed.

Lemma lerp_zero (a b : Z) :
  channel8 a -> channel8 b -> exists x, lerp a b 0 = Ok x /\ py_round x = Ok a.
Proof.
  intros Ha Hb. unfold lerp.
  destruct (float_of_int_small (b - a) ltac:(unfold channel8 in *; lia)) as (d & -> & Hd).
  pose proof bytes_lerp_same as Hs. rewrite forallb_forall in Hs.
  specialize (Hs a (in_bytes a Ha)).
  destruct (float_of_int a) as [a'|]; [|discriminate]. cbn [rbind].
  eexists; split; [reflexivity|].
  unfold py_round. rewrite add_spec, mul_spec.
  change (Prim2SF 0) with (S754_zero false).
  rewrite forallb_forall in Hs.
  assert (Hz : exists s, SF64mul (Prim2SF d) (S754_zero false) = S754_zero s).
  { unfold fin in Hd. destruct (Prim2SF d); simpl in Hd; try tauto; simpl; eauto. }
  destruct Hz as [s ->]. fold SF64add.
  specialize (Hs s ltac:(destruct s; simpl; auto)).
  destruct (round_sf _) as [z|]; [|discriminate].
  apply Z.eqb_eq in Hs. congruence.
Qed.

Lemma lerp_color_zero (a b : rgb) : color8 a -> color8 b -> lerp_color a b 0 = Ok a.
Proof.
  destruct a as [[a0 a1] a2], b as [[b0 b1] b2]. unfold color8; simpl.
  intros (Ha0 & Ha1 & Ha2) (Hb0 & Hb1 & Hb2). unfold lerp_color.
  destruct (lerp_zero a0 b0 Ha0 Hb0) as (x0 & -> & E0). cbn [rbind]. rewrite E0. cbn [rbind].
  destruct (lerp_zero a1 b1 Ha1 Hb1) as (x1 & -> & E1). cbn [rbind]. rewrite E1. cbn [rbind].
  destruct (lerp_zero a2 b2 Ha2 Hb2) as (x2 & -> & E2). cbn [rbind]. rewrite E2. cbn [rbind].
  reflexivity.
Qed.

Lemma lerp_color_one (a b : rgb) : color8 a -> color8 b -> lerp_color a b 1 = Ok b.
Proof.
  destruct a as [[a0 a1] a2], b as [[b0 b1] b2]. unfold color8; simpl.
  intros (Ha0 & Ha1 & Ha2) (Hb0 & Hb1 & Hb2). unfold lerp_color.
  destruct (lerp_one a0 b0 Ha0 Hb0) as (x0 & -> & E0). cbn [rbind]. rewrite E0. cbn [rbind].
  destruct (lerp_one a1 b1 Ha1 Hb1) as (x1 & -> & E1). cbn [rbind]. rewrite E1. cbn [rbind].
  destruct (lerp_one a2 b2 Ha2 Hb2) as (x2 & -> & E2). cbn [rbind]. rewrite E2. cbn [rbind].
  reflexivity.
Qed.

(** [lerp_color] hits its end points exactly: on two 8-bit colours the factor
    0.0 gives the first colour and the factor 1.0 the second, and neither
    call raises. *)
Theorem lerp_color_end_points (a b : rgb) :
  color8 a -> color8 b ->
  lerp_color a b 0 = Ok a /\ lerp_color a b 1 = Ok b.
Proof.
  intros Ha Hb. split; [apply lerp_color_zero | apply lerp_color_one]; assumption.
Qed.

Lemma lerp_color_end_points_witness :
  lerp_color (255, 242, 170)%Z (255, 176, 50)%Z 0 = Ok (255, 242, 170)%Z /\
  lerp_color (255, 242, 170)%Z (255, 176, 50)%Z 1 = Ok (255, 176, 50)%Z.
Proof.
  apply (lerp_color_end_points (255, 242, 170)%Z (255, 176, 50)%Z);
    repeat split; simpl; lia.
Defined.

(** ** More on [build_luts] *)

(** Padding adds clones of the first and of the last stop, so it keeps every
    property of the colours. *)
Lemma pad_stops_colors (Q : rgb -> Prop) (l : list PaletteStop) :
  Forall (fun s => Q (color s)) l -> Forall (fun s => Q (color s)) (pad_stops l).
Proof.
  intros Hl. unfold pad_stops. destruct (head l) as [first|] eqn:E; [|auto].
  assert (Hf : Q (color first)).
  { rewrite Forall_forall in Hl. apply (Hl first), list_elem_of_In. eapply head_In; eauto. }
  assert (H1 : Forall (fun s => Q (color s))
                 (if 0 <? at_ first then mkStop 0 (color first) :: l else l)).
  { destruct (0 <? at_ first); auto. }
  cbn zeta. destruct (last _) as [f|] eqn:El; auto.
  destruct (at_ f <? 1); auto.
  apply Forall_app. split; auto. constructor; auto.
  rewrite Forall_forall in H1. apply (H1 f), list_elem_of_In. eapply last_In; eauto.
Qed.

(** The pair of stops a sample is interpolated between: both are stops of the
    list. *)
Lemma sample_pair_In (P : list PaletteStop) (first final : PaletteStop) (x : float) :
  head P = Some first -> last P = Some final ->
  In (default (first, final) (bracket x P)).1 P /\
  In (default (first, final) (bracket x P)).2 P.
Proof.
  intros Hh Hl. destruct (bracket x P) as [[lo hi]|] eqn:Eb; simpl.
  - exact (bracket_In _ _ _ _ Eb).
  - split; [eapply head_In | eapply last_In]; eauto.
Qed.

Lemma sample_one_colour (P : list PaletteStop) (brightness : float) (i : Z) (c : rgb)
    (r g b : Z) :
  P <> [] -> color8 c -> Forall (fun s => color s = c) P ->
  scale_channel (red c) brightness = Ok r ->
  scale_channel (green c) brightness = Ok g ->
  scale_channel (blue c) brightness = Ok b ->
  sample P brightness i = Ok (r, g, b).
Proof.
  intros Hne Hc HP Hr Hg Hb. unfold sample.
  change (true_div i 255) with (Ok (Z2F i / 255)). cbn [rbind].
  set (x := Z2F i / 255).
  destruct (head P) as [first|] eqn:Eh.
  2:{ apply head_None in Eh. contradiction. }
  destruct (last P) as [final|] eqn:El.
  2:{ apply last_None in El. contradiction. }
  destruct (sample_pair_In P first final x Eh El) as [Hlo Hhi].
  destruct (default (first, final) (bracket x P)) as [lo hi]. cbn [fst snd] in Hlo, Hhi.
  rewrite Forall_forall in HP.
  rewrite (HP lo) by (apply list_elem_of_In, Hlo).
  rewrite (HP hi) by (apply list_elem_of_In, Hhi).
  cbn zeta. unfold py_div. rewrite span_of_nonzero. cbn [rbind].
  rewrite (lerp_color_same c _ Hc (fin_unit_clamp _)).
  destruct c as [[c0 c1] c2]. cbn [rbind]. unfold red, green, blue in *. simpl in Hr, Hg, Hb.
  rewrite Hr, Hg, Hb. reflexivity.
Qed.

Lemma rmap_const {A B} (f : A -> result B) (b : B) (l : list A) :
  (forall a, f a = Ok b) -> rmap f l = Ok (map (fun _ => b) l).
Proof.
  intros Hf. induction l as [|a l IH]; simpl; [reflexivity|].
  rewrite Hf, IH. reflexivity.
Qed.

Lemma map_const_replicate {A B C} (f : B -> C) (b : B) (l : list A) :
  map f (map (fun _ => b) l) = replicate (length l) (f b).
Proof. induction l as [|a l IH]; simpl; [reflexivity|]. rewrite IH. reflexivity. Qed.

Section SingleColour.

Context {image : Type}.

(** A palette whose stops all carry one colour gives constant tables,
    wherever the stops lie: each of the 256 entries of a channel is
    [int(clamp(channel * brightness, 0, 255))], and with brightness 1 it is
    the channel itself. *)
Theorem build_luts_one_colour (h : heap image) (stops : loc) (S : list PaletteStop)
    (brightness : float) (c : rgb) :
  h !! stops = Some (OStops S) -> S <> [] -> color8 c ->
  Forall (fun s => color s = c) S ->
  exists luts h' r g b,
    scale_channel (red c) brightness = Ok r /\
    scale_channel (green c) brightness = Ok g /\
    scale_channel (blue c) brightness = Ok b /\
    build_luts stops brightness h = (Ok luts, h') /\
    luts_at h' luts (replicate 256 r) (replicate 256 g) (replicate 256 b) /\
    (brightness = 1 -> (r, g, b) = c).
Proof.
  intros Hs Hne Hc HS.
  assert (Hbig : (255 <= 2 ^ 960)%Z).
  { change 255%Z with (2 ^ 8 - 1)%Z.
    assert (2 ^ 8 <= 2 ^ 960)%Z by (apply Z.pow_le_mono_r; lia). lia. }
  pose proof Hc as (H0 & H1 & H2). unfold channel8 in H0, H1, H2.
  destruct (scale_channel_range (red c) brightness) as (r & Hr & _);
    [unfold red; lia|].
  destruct (scale_channel_range (green c) brightness) as (g & Hg & _);
    [unfold green; lia|].
  destruct (scale_channel_range (blue c) brightness) as (b & Hb & _);
    [unfold blue; lia|].
  set (P := pad_stops (sorted_by_at S)).
  assert (HP : Forall (fun s => color s = c) P).
  { apply (pad_stops_colors (fun k => k = c)).
    eapply Permutation_Forall; [symmetry; apply sorted_by_at_perm | exact HS]. }
  assert (HPne : P <> []) by (apply pad_stops_nonempty, sorted_by_at_nonempty, Hne).
  assert (Hcs : rmap (sample P brightness) range256 = Ok (map (fun _ => (r, g, b)) range256)).
  { apply rmap_const. intros i. apply (sample_one_colour P brightness i c r g b HPne Hc HP Hr Hg Hb). }
  exists (length h + 1, length h + 2, length h + 3)%nat.
  eexists. exists r, g, b.
  split; [exact Hr|]. split; [exact Hg|]. split; [exact Hb|].
  split; [apply (build_luts_run h stops S brightness _ Hs Hne Hcs)|].
  split.
  - rewrite !map_const_replicate. change (length range256) with 256%nat.
    apply luts_at_run.
  - intros ->. destruct c as [[c0 c1] c2]. unfold red, green, blue in *. simpl in *.
    rewrite scale_channel_one in Hr, Hg, Hb by (unfold channel8; assumption).
    congruence.
Qed.

End SingleColour.

Lemma build_luts_one_colour_witness :
  exists luts h' r g b,
    scale_channel 200 0.5 = Ok r /\
    scale_channel 100 0.5 = Ok g /\
    scale_channel 50 0.5 = Ok b /\
    build_luts 0%nat 0.5
      ([OStops [mkStop 0.7 (200, 100, 50)%Z; mkStop infinity (200, 100, 50)%Z]] : heap unit)
      = (Ok luts, h') /\
    luts_at h' luts (replicate 256 r) (replicate 256 g) (replicate 256 b) /\
    (0.5 = 1 -> (r, g, b) = (200, 100, 50)%Z).
Proof.
  apply (build_luts_one_colour
           ([OStops [mkStop 0.7 (200, 100, 50)%Z; mkStop infinity (200, 100, 50)%Z]]
              : heap unit) 0%nat
           [mkStop 0.7 (200, 100, 50)%Z; mkStop infinity (200, 100, 50)%Z] 0.5
           (200, 100, 50)%Z).
  - reflexivity.
  - discriminate.
  - repeat split; simpl; lia.
  - repeat constructor.
Defined.

(** ** The order of the floats

    Python's [<], [<=] and [==] on floats are the IEEE comparisons.  On the
    floats that are not NaN they are the comparisons of a total order in
    which the two zeros are equal: [rank] sends a float to a triple of
    integers ordered lexicographically. *)

Definition rank (x : spec_float) : Z * Z * Z :=
  match x with
  | S754_nan => (3, 0, 0)
  | S754_infinity true => (-2, 0, 0)
  | S754_finite true m e => (-1, - e, - Zpos m)
  | S754_zero _ => (0, 0, 0)
  | S754_finite false m e => (1, e, Zpos m)
  | S754_infinity false => (2, 0, 0)
  end%Z.

Definition cmp3 (a b : Z * Z * Z) : comparison :=
  match (a.1.1 ?= b.1.1)%Z with
  | Eq => match (a.1.2 ?= b.1.2)%Z with
          | Eq => (a.2 ?= b.2)%Z
          | c => c
          end
  | c => c
  end.

Definition lt3 (a b : Z * Z * Z) : Prop :=
  (a.1.1 < b.1.1 \/ (a.1.1 = b.1.1 /\ (a.1.2 < b.1.2 \/ (a.1.2 = b.1.2 /\ a.2 < b.2))))%Z.

Lemma cmp3_Lt a b : cmp3 a b = Lt <-> lt3 a b.
Proof.
  destruct a as [[a1 a2] a3], b as [[b1 b2] b3]. unfold cmp3, lt3. cbn [fst snd].
  destruct (Z.compare_spec a1 b1); [|split; [lia|reflexivity]|split; [discriminate|lia]].
  destruct (Z.compare_spec a2 b2); [|split; [lia|reflexivity]|split; [discriminate|lia]].
  rewrite Z.compare_lt_iff. lia.
Qed.

Lemma cmp3_Gt a b : cmp3 a b = Gt <-> lt3 b a.
Proof.
  destruct a as [[a1 a2] a3], b as [[b1 b2] b3]. unfold cmp3, lt3. cbn [fst snd].
  destruct (Z.compare_spec a1 b1); [|split; [discriminate|lia]|split; [lia|reflexivity]].
  destruct (Z.compare_spec a2 b2); [|split; [discriminate|lia]|split; [lia|reflexivity]].
  rewrite Z.compare_gt_iff. lia.
Qed.

Lemma cmp3_Eq a b : cmp3 a b = Eq <-> a = b.
Proof.
  destruct a as [[a1 a2] a3], b as [[b1 b2] b3]. unfold cmp3. cbn [fst snd].
  destruct (Z.compare_spec a1 b1); [|split; [discriminate|intros E; inversion E; lia]..].
  destruct (Z.compare_spec a2 b2); [|split; [discriminate|intros E; inversion E; lia]..].
  rewrite Z.compare_eq_iff. split; [intros ->; subst; reflexivity | intros E; inversion E; lia].
Qed.

Lemma SFcompare_rank (x y : spec_float) :
  x <> S754_nan -> y <> S754_nan -> SFcompare x y = Some (cmp3 (rank x) (rank y)).
Proof.
  intros Hx Hy.
  destruct x as [sx|sx| |sx mx ex], y as [sy|sy| |sy my ey]; try congruence;
    try (destruct sx; reflexivity); try (destruct sy; reflexivity);
    try (destruct sx, sy; reflexivity).
  destruct sx, sy; try reflexivity; unfold SFcompare, rank, cmp3; cbn [fst snd].
  change (-1 ?= -1)%Z with Eq. cbv iota.
  rewrite Z.compare_opp. rewrite (Z.compare_antisym ex ey).
  destruct (ex ?= ey)%Z; reflexivity.
Qed.

(** A number: a float that is not NaN.  ([x == x] is Python's test for it.) *)
Definition number (x : float) : Prop := Prim2SF x <> S754_nan.

Definition key (x : float) : Z * Z * Z := rank (Prim2SF x).

Lemma eqb_number (x : float) : (x =? x) = true <-> number x.
Proof.
  rewrite FloatAxioms.eqb_spec. unfold SFeqb, number. split.
  - intros H E. rewrite E in H. discriminate.
  - intros H. rewrite SFcompare_refl by exact H. reflexivity.
Qed.

Lemma ltb_key (x y : float) :
  (x <? y) = true <-> number x /\ number y /\ lt3 (key x) (key y).
Proof.
  rewrite ltb_spec. unfold SFltb, number, key. split.
  - intros H.
    assert (Hx : Prim2SF x <> S754_nan) by (intros E; rewrite E in H; discriminate).
    assert (Hy : Prim2SF y <> S754_nan)
      by (intros E; rewrite E in H; destruct (Prim2SF x); discriminate).
    rewrite (SFcompare_rank _ _ Hx Hy) in H.
    destruct (cmp3 _ _) eqn:E; try discriminate. apply cmp3_Lt in E. auto.
  - intros (Hx & Hy & Hlt). rewrite (SFcompare_rank _ _ Hx Hy).
    apply cmp3_Lt in Hlt. rewrite Hlt. reflexivity.
Qed.

Lemma leb_key (x y : float) :
  (x <=? y) = true <-> number x /\ number y /\ (lt3 (key x) (key y) \/ key x = key y).
Proof.
  rewrite leb_spec. unfold SFleb, number, key. split.
  - intros H.
    assert (Hx : Prim2SF x <> S754_nan) by (intros E; rewrite E in H; discriminate).
    assert (Hy : Prim2SF y <> S754_nan)
      by (intros E; rewrite E in H; destruct (Prim2SF x); discriminate).
    rewrite (SFcompare_rank _ _ Hx Hy) in H.
    destruct (cmp3 _ _) eqn:E; try discriminate.
    + apply cmp3_Eq in E. auto.
    + apply cmp3_Lt in E. auto.
  - intros (Hx & Hy & [Hlt | Heq]); rewrite (SFcompare_rank _ _ Hx Hy).
    + apply cmp3_Lt in Hlt. rewrite Hlt. reflexivity.
    + apply cmp3_Eq in Heq. rewrite Heq. reflexivity.
Qed.

Lemma eqb_key (x y : float) :
  (x =? y) = true <-> number x /\ number y /\ key x = key y.
Proof.
  rewrite FloatAxioms.eqb_spec. unfold SFeqb, number, key. split.
  - intros H.
    assert (Hx : Prim2SF x <> S754_nan) by (intros E; rewrite E in H; discriminate).
    assert (Hy : Prim2SF y <> S754_nan)
      by (intros E; rewrite E in H; destruct (Prim2SF x); discriminate).
    rewrite (SFcompare_rank _ _ Hx Hy) in H.
    destruct (cmp3 _ _) eqn:E; try discriminate. apply cmp3_Eq in E. auto.
  - intros (Hx & Hy & Heq). rewrite (SFcompare_rank _ _ Hx Hy).
    apply cmp3_Eq in Heq. rewrite Heq. reflexivity.
Qed.

Lemma lt3_trans a b c : lt3 a b -> lt3 b c -> lt3 a c.
Proof. unfold lt3. lia. Qed.

Lemma lt3_irrefl a : ~ lt3 a a.
Proof. unfold lt3. lia. Qed.

Lemma lt3_total a b : lt3 a b \/ a = b \/ lt3 b a.
Proof.
  destruct a as [[a1 a2] a3], b as [[b1 b2] b3]. unfold lt3. cbn [fst snd].
  destruct (Z.lt_total a1 b1) as [|[->|]]; [lia| |lia].
  destruct (Z.lt_total a2 b2) as [|[->|]]; [lia| |lia].
  destruct (Z.lt_total a3 b3) as [|[->|]]; [lia| |lia].
  right. left. reflexivity.
Qed.

Lemma ltb_trans (x y z : float) :
  (x <? y) = true -> (y <? z) = true -> (x <? z) = true.
Proof.
  rewrite !ltb_key. intros (Hx & _ & H1) (_ & Hz & H2).
  split; [exact Hx|]. split; [exact Hz|]. eapply lt3_trans; eauto.
Qed.

Lemma ltb_asym (x y : float) : (x <? y) = true -> (y <? x) = true -> False.
Proof.
  rewrite !ltb_key. intros (_ & _ & H1) (_ & _ & H2).
  exact (lt3_irrefl _ (lt3_trans _ _ _ H1 H2)).
Qed.

(** Trichotomy on numbers. *)
Lemma ltb_total (x y : float) :
  number x -> number y -> (x <? y) = true \/ (x =? y) = true \/ (y <? x) = true.
Proof.
  intros Hx Hy. rewrite !ltb_key, eqb_key.
  destruct (lt3_total (key x) (key y)) as [H|[H|H]]; auto 6.
Qed.

(** ** [sorted] on stops at distinct positions *)

(** No position is NaN. *)
Definition numbers (l : list PaletteStop) : bool :=
  forallb (fun s => at_ s =? at_ s) l.

(** No two stops of the list are at the same position ([==] on floats). *)
Fixpoint distinct_positions (l : list PaletteStop) : bool :=
  match l with
  | [] => true
  | s :: l' => forallb (fun s' => negb (at_ s =? at_ s')) l' && distinct_positions l'
  end.

Definition before (s s' : PaletteStop) : Prop := (at_ s <? at_ s') = true.

Definition position_key (s : PaletteStop) : Z * Z * Z := key (at_ s).

Lemma numbers_Forall (l : list PaletteStop) :
  numbers l = true <-> Forall (fun s => number (at_ s)) l.
Proof.
  unfold numbers. induction l as [|s l IH]; simpl.
  - split; [constructor | reflexivity].
  - rewrite andb_true_iff, IH, eqb_number. split.
    + intros [H1 H2]. constructor; assumption.
    + intros H. inversion H; subst. auto.
Qed.

Lemma distinct_NoDup (l : list PaletteStop) :
  numbers l = true -> distinct_positions l = true -> NoDup (map position_key l).
Proof.
  induction l as [|s l IH]; simpl; [constructor|].
  rewrite !andb_true_iff. intros [Hs Hl] [Hd Hdl].
  constructor; [|apply IH; assumption].
  intros Hin. apply list_elem_of_In, in_map_iff in Hin. destruct Hin as (s' & Hk & Hin).
  rewrite forallb_forall in Hd. specialize (Hd s' Hin).
  unfold numbers in Hl. rewrite forallb_forall in Hl. specialize (Hl s' Hin).
  apply negb_true_iff in Hd.
  assert (He : (at_ s =? at_ s') = true).
  { apply eqb_key. rewrite eqb_number in Hs, Hl. unfold position_key in Hk. auto. }
  congruence.
Qed.

Lemma insert_stop_sorted (s : PaletteStop) (l : list PaletteStop) :
  number (at_ s) -> Forall (fun s' => number (at_ s')) l ->
  ~ In (position_key s) (map position_key l) ->
  StronglySorted before l -> StronglySorted before (insert_stop s l).
Proof.
  intros Hs. induction l as [|a l IH]; intros Hl Hnew Hsorted; simpl.
  - repeat constructor.
  - inversion Hl as [|? ? Ha Hl']; subst.
    inversion Hsorted as [|? ? Hsl Hal]; subst.
    destruct (at_ a <? at_ s) eqn:E.
    + constructor.
      * apply IH; auto. intros Hin. apply Hnew. simpl. auto.
      * eapply Permutation_Forall; [symmetry; apply insert_stop_perm|].
        constructor; [exact E | exact Hal].
    + assert (Hsa : before s a).
      { destruct (ltb_total (at_ s) (at_ a) Hs Ha) as [H|[H|H]]; [exact H| |congruence].
        exfalso. apply Hnew. simpl. left. apply eqb_key in H.
        unfold position_key. symmetry. tauto. }
      constructor; [exact Hsorted|].
      constructor; [exact Hsa|].
      eapply Forall_impl; [exact Hal|]. intros x Hx. unfold before in *.
      eapply ltb_trans; eauto.
Qed.

Lemma sorted_by_at_sorted (l : list PaletteStop) :
  Forall (fun s => number (at_ s)) l -> NoDup (map position_key l) ->
  StronglySorted before (sorted_by_at l).
Proof.
  induction l as [|a l IH]; intros Hl Hd; simpl; [constructor|].
  inversion Hl as [|? ? Ha Hl']; subst. inversion Hd as [|? ? Hnew Hd']; subst.
  apply insert_stop_sorted; auto.
  - eapply Permutation_Forall; [symmetry; apply sorted_by_at_perm | exact Hl'].
  - intros Hin. apply Hnew, list_elem_of_In.
    eapply Permutation_in; [|exact Hin].
    apply Permutation_map, sorted_by_at_perm.
Qed.

(** Stops at distinct positions, none of them NaN, are sorted into the same
    list whatever order they are given in. *)
Lemma sorted_by_at_unique (l1 l2 : list PaletteStop) :
  Permutation l1 l2 -> numbers l1 = true -> distinct_positions l1 = true ->
  sorted_by_at l1 = sorted_by_at l2.
Proof.
  intros Hp Hn Hd.
  pose proof (distinct_NoDup l1 Hn Hd) as Hnd.
  apply numbers_Forall in Hn.
  apply (StronglySorted_unique_strong before).
  - intros x1 x2 _ _ H1 H2. exfalso. exact (ltb_asym _ _ H1 H2).
  - apply sorted_by_at_sorted; assumption.
  - apply sorted_by_at_sorted.
    + eapply Permutation_Forall; [exact Hp | exact Hn].
    + assert (Hm : Permutation (map position_key l1) (map position_key l2))
        by (apply Permutation_map; exact Hp).
      rewrite <- Hm. exact Hnd.
  - rewrite !sorted_by_at_perm. exact Hp.
Qed.

Section OrderOfStops.

Context {image : Type}.

(** The order in which the stops are listed does not matter: two lists that
    hold the same stops, at distinct positions none of which is NaN, give the
    same three tables. *)
Theorem build_luts_order_independent (h : heap image) (l1 l2 : loc)
    (S1 S2 : list PaletteStop) (brightness : float) :
  h !! l1 = Some (OStops S1) -> h !! l2 = Some (OStops S2) ->
  S1 <> [] -> Forall stop8 S1 -> Permutation S1 S2 ->
  numbers S1 = true -> distinct_positions S1 = true ->
  exists luts1 h1 luts2 h2 R G B,
    build_luts l1 brightness h = (Ok luts1, h1) /\
    build_luts l2 brightness h = (Ok luts2, h2) /\
    luts_at h1 luts1 R G B /\ luts_at h2 luts2 R G B /\
    (length R = 256 /\ length G = 256 /\ length B = 256)%nat.
Proof.
  intros H1 H2 Hne H8 Hp Hn Hd.
  assert (Hne2 : S2 <> []).
  { intros ->. apply Permutation_nil_r in Hp. contradiction. }
  assert (H82 : Forall stop8 S2) by (eapply Permutation_Forall; eauto).
  destruct (build_luts_ok h l1 S1 brightness H1 Hne H8) as (cs & Hcs & Hlen & _ & Hrun1).
  destruct (build_luts_ok h l2 S2 brightness H2 Hne2 H82) as (cs2 & Hcs2 & _ & _ & Hrun2).
  rewrite <- (sorted_by_at_unique S1 S2 Hp Hn Hd) in Hcs2, Hrun2.
  rewrite Hcs in Hcs2. injection Hcs2 as <-.
  eexists _, _, _, _, (map red cs), (map green cs), (map blue cs).
  split; [exact Hrun1|]. split; [exact Hrun2|].
  split; [apply luts_at_run|]. split; [apply luts_at_run|].
  rewrite !length_map. auto.
Qed.

End OrderOfStops.

Lemma build_luts_order_independent_witness :
  let S1 := [mkStop 0.7 (200, 100, 50)%Z; mkStop 0.3 (10, 20, 30)%Z] in
  let S2 := [mkStop 0.3 (10, 20, 30)%Z; mkStop 0.7 (200, 100, 50)%Z] in
  exists luts1 h1 luts2 h2 R G B,
    build_luts 0%nat 1 ([OStops S1; OStops S2] : heap unit) = (Ok luts1, h1) /\
    build_luts 1%nat 1 ([OStops S1; OStops S2] : heap unit) = (Ok luts2, h2) /\
    luts_at h1 luts1 R G B /\ luts_at h2 luts2 R G B /\
    (length R = 256 /\ length G = 256 /\ length B = 256)%nat.
Proof.
  intros S1 S2.
  apply (build_luts_order_independent ([OStops S1; OStops S2] : heap unit)
           0%nat 1%nat S1 S2 1).
  - reflexivity.
  - reflexivity.
  - discriminate.
  - repeat constructor; simpl; lia.
  - apply perm_swap.
  - reflexivity.
  - reflexivity.
Defined.

(** ** The first entry of the tables *)

Lemma leb_trans (x y z : float) :
  (x <=? y) = true -> (y <=? z) = true -> (x <=? z) = true.
Proof.
  rewrite !leb_key. intros (Hx & _ & H1) (_ & Hz & H2).
  split; [exact Hx|]. split; [exact Hz|].
  destruct H1 as [H1| ->]; destruct H2 as [H2| <-]; auto.
  left. eapply lt3_trans; eauto.
Qed.

Lemma not_ltb_leb (x y : float) :
  number x -> number y -> (y <? x) = false -> (x <=? y) = true.
Proof.
  intros Hx Hy H. apply leb_key. split; [exact Hx|]. split; [exact Hy|].
  destruct (ltb_total x y Hx Hy) as [H1|[H1|H1]].
  - apply ltb_key in H1. tauto.
  - apply eqb_key in H1. tauto.
  - congruence.
Qed.

Lemma leb_number (x y : float) : (x <=? y) = true -> number x /\ number y.
Proof. rewrite leb_key. tauto. Qed.

(** The first stop of the sorted list is a stop of the lowest position. *)
Lemma sorted_by_at_head_min (l : list PaletteStop) (first : PaletteStop) :
  Forall (fun s => number (at_ s)) l ->
  head (sorted_by_at l) = Some first ->
  Forall (fun s => (at_ first <=? at_ s) = true) l.
Proof.
  revert first. induction l as [|a l IH]; intros first Hl Hh; [constructor|].
  inversion Hl as [|? ? Ha Hl']; subst. simpl in Hh.
  destruct (sorted_by_at l) as [|m L] eqn:EL.
  - assert (l = []) as ->.
    { apply Permutation_nil. rewrite <- EL. apply sorted_by_at_perm. }
    simpl in Hh. injection Hh as <-. constructor; [|constructor].
    apply eqb_number in Ha. apply leb_key. apply eqb_key in Ha. tauto.
  - specialize (IH m Hl' eq_refl).
    assert (Hm : number (at_ m)).
    { assert (Hin : In m l).
      { eapply Permutation_in; [apply sorted_by_at_perm|]. rewrite EL. simpl. auto. }
      rewrite Forall_forall in Hl'. apply Hl', list_elem_of_In, Hin. }
    simpl in Hh. destruct (at_ m <? at_ a) eqn:E; simpl in Hh; injection Hh as <-.
    + constructor; [apply ltb_leb; exact E | exact IH].
    + pose proof (not_ltb_leb _ _ Ha Hm E) as Ham.
      constructor.
      * apply eqb_number in Ha. apply leb_key. apply eqb_key in Ha. tauto.
      * eapply Forall_impl; [exact IH|]. intros x Hx. eapply leb_trans; eauto.
Qed.

(** A number that is neither below nor above zero is a zero. *)
Lemma zero_of_bounds (a : float) :
  (0 <=? a) = true -> (0 <? a) = false -> exists s, Prim2SF a = S754_zero s.
Proof.
  rewrite leb_spec, ltb_spec. change (Prim2SF 0) with (S754_zero false).
  unfold SFleb, SFltb.
  destruct (Prim2SF a) as [s|s| |s m e]; simpl; try discriminate; eauto;
    destruct s; discriminate.
Qed.

(** [0 - a] for a zero [a], divided by a span, clamped: the factor 0. *)
Lemma clamp_zero_quotient (a : float) (lo hi : PaletteStop) :
  (exists s, Prim2SF a = S754_zero s) ->
  clamp ((0 - a) / span_of lo hi) 0 1 = 0.
Proof.
  intros [s Ha].
  assert (Hq : exists s', Prim2SF ((0 - a) / span_of lo hi) = S754_zero s').
  { rewrite div_spec, sub_spec, Ha. change (Prim2SF 0) with (S754_zero false).
    assert (Hz : SF64sub (S754_zero false) (S754_zero s) = S754_zero false)
      by (destruct s; reflexivity).
    rewrite Hz.
    destruct (span_of_floor lo hi) as [-> | H].
    - eexists. reflexivity.
    - rewrite ltb_spec in H.
      change (Prim2SF 1e-6) with (S754_finite false 4722366482869645 (-72)) in H.
      unfold SFltb in H.
      destruct (Prim2SF (span_of lo hi)) as [b|b| |b m e]; simpl in *; try discriminate;
        eexists; reflexivity. }
  destruct Hq as [s' Hq]. unfold clamp, py_max, py_min.
  assert (H1 : ((0 - a) / span_of lo hi <? 1) = true).
  { rewrite ltb_spec, Hq. reflexivity. }
  rewrite H1.
  assert (H0 : (0 <? (0 - a) / span_of lo hi) = false).
  { rewrite ltb_spec, Hq. reflexivity. }
  rewrite H0. reflexivity.
Qed.


(** Sample 0 of a list whose first stop is at zero and whose second stop is
    not below zero. *)
Lemma sample_zero_first (first second : PaletteStop) (rest : list PaletteStop) :
  stop8 first -> stop8 second ->
  (0 <=? at_ first) = true -> (0 <? at_ first) = false ->
  (0 <=? at_ second) = true ->
  sample (first :: second :: rest) 1 0 = Ok (color first).
Proof.
  intros H8 H8' Hle Hlt Hle2. unfold sample. cbn [head].
  destruct (last _) as [final|] eqn:El.
  2:{ apply last_None in El. discriminate. }
  change (true_div 0 255) with (Ok 0). cbn [rbind bracket].
  assert (Hf0 : (at_ first <=? 0) = true).
  { destruct (leb_number _ _ Hle) as [H0 Hf]. apply not_ltb_leb; assumption. }
  rewrite Hf0, Hle2. cbn [andb default]. unfold id. cbv beta iota zeta.
  unfold py_div. rewrite span_of_nonzero. cbn [rbind].
  rewrite (clamp_zero_quotient _ _ _ (zero_of_bounds _ Hle Hlt)).
  rewrite (lerp_color_zero _ _ H8 H8').
  destruct (color first) as [[r g] b] eqn:Ec. destruct H8 as (Hr & Hg & Hb).
  rewrite Ec in Hr, Hg, Hb. simpl in Hr, Hg, Hb. cbn [rbind].
  rewrite !scale_channel_one by assumption. reflexivity.
Qed.

(** A zero is below one. *)
Lemma zero_below_one (a : float) :
  (exists s, Prim2SF a = S754_zero s) -> (a <? 1) = true.
Proof. intros [s Ha]. rewrite ltb_spec, Ha. reflexivity. Qed.

(** Sample 0 of the padded list, when no stop is at a negative position. *)
Lemma sample_zero_padded (L : list PaletteStop) (first : PaletteStop) :
  Forall stop8 L -> Forall (fun s => (0 <=? at_ s) = true) L ->
  head L = Some first ->
  sample (pad_stops L) 1 0 = Ok (color first).
Proof.
  intros H8 Hpos Hh. destruct L as [|f rest]; [discriminate|].
  cbn [head] in Hh. injection Hh as ->.
  inversion H8 as [|? ? H8f H8r]; subst. inversion Hpos as [|? ? Hf Hr]; subst.
  unfold pad_stops. cbn [head]. cbv zeta.
  destruct (0 <? at_ first) eqn:E0.
  - destruct (last (mkStop 0 (color first) :: first :: rest)) as [final|]; [|].
    + destruct (at_ final <? 1); apply sample_zero_clone; assumption.
    + apply sample_zero_clone; assumption.
  - destruct rest as [|second rest].
    + cbn [last]. rewrite (zero_below_one _ (zero_of_bounds _ Hf E0)).
      apply sample_zero_first; auto.
    + inversion H8r; subst. inversion Hr; subst.
      destruct (last (first :: second :: rest)) as [final|]; [|].
      * destruct (at_ final <? 1); apply sample_zero_first; assumption.
      * apply sample_zero_first; assumption.
Qed.

Section FirstEntry.

Context {image : Type}.

(** When no stop is at a negative position (or at NaN), entry 0 of each table
    is, with brightness 1, the channel of the stop that comes first in sorted
    order, and that stop is one of the lowest position. *)
Theorem build_luts_first_entry (h : heap image) (stops : loc) (S : list PaletteStop)
    (first : PaletteStop) :
  h !! stops = Some (OStops S) -> Forall stop8 S ->
  Forall (fun s => (0 <=? at_ s) = true) S ->
  head (sorted_by_at S) = Some first ->
  (In first S /\ Forall (fun s => (at_ first <=? at_ s) = true) S) /\
  exists luts h' R G B,
    build_luts stops 1 h = (Ok luts, h') /\
    luts_at h' luts R G B /\
    head R = Some (red (color first)) /\
    head G = Some (green (color first)) /\
    head B = Some (blue (color first)).
Proof.
  intros Hs H8 Hpos Hh.
  assert (Hne : S <> []) by (intros ->; discriminate).
  assert (Hnum : Forall (fun s => number (at_ s)) S).
  { eapply Forall_impl; [exact Hpos|]. intros s H. apply (leb_number _ _ H). }
  split.
  { split; [|apply sorted_by_at_head_min; assumption].
    eapply Permutation_in; [apply sorted_by_at_perm | eapply head_In; eauto]. }
  destruct (build_luts_ok h stops S 1 Hs Hne H8) as (cs & Hcs & Hlen & Hin & Hrun).
  assert (H0 : head cs = Some (color first)).
  { assert (Hr : range256 = 0%Z :: map Z.of_nat (seq 1 255)) by reflexivity.
    rewrite Hr in Hcs. apply (rmap_head _ _ _ _ _ Hcs).
    apply sample_zero_padded; auto;
      (eapply Permutation_Forall; [symmetry; apply sorted_by_at_perm | assumption]). }
  eexists _, _, (map red cs), (map green cs), (map blue cs).
  split; [exact Hrun|]. split; [apply luts_at_run|].
  destruct cs as [|c cs]; [discriminate|]. simpl in H0. injection H0 as ->.
  auto.
Qed.

End FirstEntry.

Lemma build_luts_first_entry_witness :
  let S := [mkStop 0.5 (200, 100, 50)%Z; mkStop 0 (10, 20, 30)%Z] in
  let first := mkStop 0 (10, 20, 30)%Z in
  (In first S /\ Forall (fun s => (at_ first <=? at_ s) = true) S) /\
  exists luts h' R G B,
    build_luts 0%nat 1 ([OStops S] : heap unit) = (Ok luts, h') /\
    luts_at h' luts R G B /\
    head R = Some 10%Z /\ head G = Some 20%Z /\ head B = Some 30%Z.
Proof.
  intros S first.
  apply (build_luts_first_entry ([OStops S] : heap unit) 0%nat S first).
  - reflexivity.
  - repeat constructor; simpl; lia.
  - repeat constructor.
  - reflexivity.
Defined.

(** ** Boundary padding *)

(** The last stop of a list after an insertion: the inserted stop, when every
    stop is below it, and the last stop of the list otherwise. *)
Lemma insert_stop_last (a : PaletteStop) (l : list PaletteStop) (final : PaletteStop) :
  last (insert_stop a l) = Some final ->
  (final = a /\ Forall (fun s => (at_ s <? at_ a) = true) l) \/
  (last l = Some final /\ exists s, In s l /\ (at_ s <? at_ a) = false).
Proof.
  induction l as [|s l IH]; simpl.
  - intros E. injection E as <-. left. split; [reflexivity | constructor].
  - destruct (at_ s <? at_ a) eqn:E.
    + intros Hl.
      assert (Hl' : last (insert_stop a l) = Some final).
      { destruct (insert_stop a l) eqn:Ei; [|exact Hl].
        exfalso. pose proof (insert_stop_perm a l) as Hp. rewrite Ei in Hp.
        exact (Permutation_nil_cons Hp). }
      destruct (IH Hl') as [[-> Hall] | [Hlast (s' & Hin & Hs')]].
      * left. split; [reflexivity | constructor; assumption].
      * right. split.
        -- destruct l; [discriminate | exact Hlast].
        -- exists s'. simpl. auto.
    + intros Hl. right. split; [exact Hl|]. exists s. simpl. auto.
Qed.

(** The last stop of the sorted list is a stop of the highest position. *)
Lemma sorted_by_at_last_max (l : list PaletteStop) (final : PaletteStop) :
  Forall (fun s => number (at_ s)) l ->
  last (sorted_by_at l) = Some final ->
  Forall (fun s => (at_ s <=? at_ final) = true) l.
Proof.
  revert final. induction l as [|a l IH]; intros final Hl Hh; [constructor|].
  inversion Hl as [|? ? Ha Hl']; subst. simpl in Hh.
  assert (Hperm : forall P : PaletteStop -> Prop, Forall P l -> Forall P (sorted_by_at l)).
  { intros P HP. eapply Permutation_Forall; [symmetry; apply sorted_by_at_perm | exact HP]. }
  assert (Hback : forall P : PaletteStop -> Prop, Forall P (sorted_by_at l) -> Forall P l).
  { intros P HP. eapply Permutation_Forall; [apply sorted_by_at_perm | exact HP]. }
  assert (Haa : (at_ a <=? at_ a) = true).
  { apply eqb_number in Ha. apply leb_key. apply eqb_key in Ha. tauto. }
  destruct (insert_stop_last _ _ _ Hh) as [[-> Hall] | [Hlast (s & Hin & Hs)]].
  - constructor; [exact Haa|]. apply Hback.
    eapply Forall_impl; [exact Hall|]. intros x Hx. apply ltb_leb; exact Hx.
  - specialize (IH final Hl' Hlast).
    assert (Hins : In s l).
    { eapply Permutation_in; [apply sorted_by_at_perm | exact Hin]. }
    assert (Hns : number (at_ s)).
    { rewrite Forall_forall in Hl'. apply Hl', list_elem_of_In, Hins. }
    constructor; [|exact IH].
    eapply leb_trans; [apply (not_ltb_leb _ _ Ha Hns Hs)|].
    rewrite Forall_forall in IH. apply IH, list_elem_of_In, Hins.
Qed.

Section BoundaryPadding.

Context {image : Type}.

(** C5.  For stops none of which is at NaN: when the smallest position is
    above 0 and the largest below 1, the list the samples are taken from is
    the sorted list with a stop at position 0 in front, carrying the colour
    of the first sorted stop, and a stop at position 1 behind, carrying the
    colour of the last sorted stop; the tables returned are the samples of
    that list.  The first sorted stop is a stop of the lowest position, the
    last one a stop of the highest.  With brightness 1, sample 0 is the first
    stop's colour exactly. *)
Theorem build_luts_boundary_padding (h : heap image) (stops : loc)
    (S : list PaletteStop) (brightness : float) (first final : PaletteStop) :
  h !! stops = Some (OStops S) -> Forall stop8 S ->
  numbers S = true ->
  head (sorted_by_at S) = Some first -> last (sorted_by_at S) = Some final ->
  (0 <? at_ first) = true -> (at_ final <? 1) = true ->
  let padded := mkStop 0 (color first) :: sorted_by_at S ++ [mkStop 1 (color final)] in
  (In first S /\ In final S /\
   Forall (fun s => (at_ first <=? at_ s) = true /\ (at_ s <=? at_ final) = true) S) /\
  exists cs luts h',
    rmap (sample padded brightness) range256 = Ok cs /\
    build_luts stops brightness h = (Ok luts, h') /\
    h' !! length h = Some (OStops padded) /\
    luts_at h' luts (map red cs) (map green cs) (map blue cs) /\
    (brightness = 1 -> head cs = Some (color first)).
Proof.
  intros Hs H8 Hnum Hh Hl H0 H1 padded.
  assert (Hne : S <> []).
  { intros ->. discriminate. }
  apply numbers_Forall in Hnum.
  split.
  { split; [|split].
    - eapply Permutation_in; [apply sorted_by_at_perm | eapply head_In; eauto].
    - eapply Permutation_in; [apply sorted_by_at_perm|].
      apply list_elem_of_In, last_Some_elem_of. exact Hl.
    - pose proof (sorted_by_at_head_min S first Hnum Hh) as Hmin.
      pose proof (sorted_by_at_last_max S final Hnum Hl) as Hmax.
      rewrite Forall_forall in Hmin, Hmax. apply Forall_forall. intros s Hin.
      split; [apply Hmin | apply Hmax]; exact Hin. }
  destruct (build_luts_ok h stops S brightness Hs Hne H8) as (cs & Hcs & Hlen & Hin & Hrun).
  rewrite (pad_stops_both _ _ _ Hh Hl H0 H1) in Hcs, Hrun. fold padded in Hcs, Hrun.
  exists cs. eexists _, _. split; [exact Hcs|]. split; [exact Hrun|].
  split.
  { rewrite lookup_app_r by lia. rewrite Nat.sub_diag. reflexivity. }
  split; [apply luts_at_run|].
  intros ->. unfold padded in Hcs.
  destruct (sorted_by_at S) as [|f rest] eqn:Es; [discriminate|].
  cbn [head] in Hh. injection Hh as ->.
  assert (H8f : stop8 first).
  { assert (Hin' : In first (sorted_by_at S)) by (rewrite Es; simpl; auto).
    rewrite Forall_forall in H8. apply H8, list_elem_of_In.
    eapply Permutation_in; [apply sorted_by_at_perm|exact Hin']. }
  assert (Hr : range256 = 0%Z :: map Z.of_nat (seq 1 255)) by reflexivity.
  rewrite Hr in Hcs. apply (rmap_head _ _ _ _ _ Hcs).
  cbn [app]. apply sample_zero_clone; assumption.
Qed.

End BoundaryPadding.

Lemma build_luts_boundary_padding_witness :
  let S := [mkStop 0.7 (200, 100, 50)%Z; mkStop 0.3 (10, 20, 30)%Z] in
  let first := mkStop 0.3 (10, 20, 30)%Z in
  let final := mkStop 0.7 (200, 100, 50)%Z in
  let padded := [mkStop 0 (10, 20, 30)%Z; first; final; mkStop 1 (200, 100, 50)%Z] in
  (In first S /\ In final S /\
   Forall (fun s => (at_ first <=? at_ s) = true /\ (at_ s <=? at_ final) = true) S) /\
  exists cs luts h',
    rmap (sample padded 1) range256 = Ok cs /\
    build_luts 1%nat 1 sample_heap = (Ok luts, h') /\
    h' !! 2%nat = Some (OStops padded) /\
    luts_at h' luts (map red cs) (map green cs) (map blue cs) /\
    (1 = 1 -> head cs = Some (10, 20, 30)%Z).
Proof.
  intros S first final padded.
  apply (build_luts_boundary_padding sample_heap 1%nat S 1 first final).
  - reflexivity.
  - repeat constructor; simpl; lia.
  - reflexivity.
  - reflexivity.
  - reflexivity.
  - reflexivity.
  - reflexivity.
Defined.

(** ** The last entry of the tables *)

(** A finite float that is not zero, divided by itself, is one. *)
Lemma div_self (d : float) s m e : Prim2SF d = S754_finite s m e -> d / d = 1.
Proof.
  intros E. apply Prim2SF_inj. rewrite div_spec, E.
  unfold SF64div, SFdiv, SFdiv_core_binary.
  replace (Zdigits2 (Z.pos m) + e - (Zdigits2 (Z.pos m) + e))%Z with 0%Z by lia.
  replace (e - e)%Z with 0%Z by lia.
  replace (0 - Z.min (fexp64 0) 0)%Z with 53%Z by reflexivity.
  replace (Z.min (fexp64 0) 0) with (-53)%Z by reflexivity. cbv iota.
  assert (Hdiv : Z.div_eucl (Z.shiftl (Z.pos m) 53) (Z.pos m) = (2 ^ 53, 0)%Z).
  { rewrite Z.shiftl_mul_pow2 by lia.
    pose proof (Z.div_eucl_eq (Z.pos m * 2 ^ 53) (Z.pos m) ltac:(lia)) as Hq.
    pose proof (Z.mod_pos_bound (Z.pos m * 2 ^ 53) (Z.pos m) ltac:(lia)) as Hr.
    unfold Z.modulo in Hr.
    destruct (Z.div_eucl (Z.pos m * 2 ^ 53) (Z.pos m)) as [q r].
    assert (r = 0 /\ q = 2 ^ 53)%Z as [-> ->]; [|reflexivity].
    assert (Hm : (Z.pos m * (2 ^ 53 - q) = r)%Z) by lia.
    assert (2 ^ 53 - q = 0)%Z by nia. split; nia. }
  rewrite Hdiv.
  assert (Hloc : new_location (Z.pos m) 0 = loc_Exact).
  { unfold new_location. destruct (Z.even (Z.pos m)); reflexivity. }
  rewrite Hloc. destruct s; reflexivity.
Qed.

(** The scan of lines 49-53 at position 1 on a list that ends with a stop
    at 1 or above, all earlier stops but the last being below 1. *)
Lemma bracket_top (init : list PaletteStop) (lo hi : PaletteStop) :
  Forall (fun s => (1 <=? at_ s) = false) init ->
  (1 <=? at_ lo) = false -> (at_ lo <=? 1) = true -> (1 <=? at_ hi) = true ->
  bracket 1 (init ++ [lo; hi]) = Some (lo, hi).
Proof.
  intros Hinit Hlo1 Hlo Hhi. induction init as [|a init IH]; simpl.
  - rewrite Hlo, Hhi. reflexivity.
  - inversion Hinit as [|? ? Ha Hinit']; subst.
    destruct (init ++ [lo; hi]) as [|b l] eqn:E.
    { destruct init; discriminate. }
    assert (Hb : (1 <=? at_ b) = false).
    { destruct init as [|b' init'']; simpl in E; injection E as <- _; [exact Hlo1|].
      inversion Hinit'; subst. assumption. }
    rewrite Hb, andb_false_r. apply IH. exact Hinit'.
Qed.

Lemma one_is_one (a : float) : (a =? 1) = true -> a = 1.
Proof.
  intros H. apply eqb_key in H. destruct H as (Ha & _ & Hk).
  apply Prim2SF_inj. unfold key in Hk.
  change (rank (Prim2SF 1)) with (1, -52, 4503599627370496)%Z in Hk.
  change (Prim2SF 1) with (S754_finite false 4503599627370496 (-52)).
  destruct (Prim2SF a) as [s|s| |s m e]; try (destruct s; discriminate Hk);
    try discriminate Hk.
  destruct s; simpl in Hk; [discriminate Hk|].
  injection Hk as He Hm. subst. reflexivity.
Qed.

Lemma ltb_not_leb (x y : float) : (x <? y) = true -> (y <=? x) = false.
Proof.
  intros H. destruct (y <=? x) eqn:E; [|reflexivity].
  apply ltb_key in H. apply leb_key in E.
  destruct H as (_ & _ & H). destruct E as (_ & _ & [E|E]).
  - exfalso. exact (lt3_irrefl _ (lt3_trans _ _ _ H E)).
  - rewrite E in H. exfalso. exact (lt3_irrefl _ H).
Qed.

(** Sample 255 when the two top stops are [lo], below 1 by more than the
    floor of the span, and [hi], at 1. *)
Lemma sample_top_pair (init : list PaletteStop) (lo hi : PaletteStop) :
  stop8 lo -> stop8 hi ->
  Forall (fun s => (1 <=? at_ s) = false) init ->
  (1 <=? at_ lo) = false -> (at_ lo <=? 1) = true ->
  at_ hi = 1 ->
  (color lo = color hi \/ (1e-6 <? 1 - at_ lo) = true) ->
  sample (init ++ [lo; hi]) 1 255 = Ok (color hi).
Proof.
  intros H8lo H8hi Hinit Hlo1 Hlo Hhi Hgap. unfold sample.
  destruct (head _) as [first|] eqn:Eh.
  2:{ apply head_None in Eh. destruct init; discriminate. }
  destruct (last _) as [final|] eqn:El.
  2:{ apply last_None in El. destruct init; discriminate. }
  change (true_div 255 255) with (Ok 1). cbn [rbind].
  rewrite (bracket_top init lo hi Hinit Hlo1 Hlo) by (rewrite Hhi; reflexivity).
  cbn [default]. unfold id. cbv beta iota zeta.
  unfold py_div. rewrite span_of_nonzero. cbn [rbind].
  assert (Hc : lerp_color (color lo) (color hi) (clamp ((1 - at_ lo) / span_of lo hi) 0 1)
               = Ok (color hi)).
  { destruct Hgap as [Hsame | Hgap].
    - rewrite Hsame. apply lerp_color_same; [exact H8hi | apply fin_unit_clamp].
    - assert (Ht : clamp ((1 - at_ lo) / span_of lo hi) 0 1 = 1).
      { unfold span_of, py_max. rewrite Hhi, Hgap.
        rewrite ltb_spec in Hgap.
        change (Prim2SF 1e-6) with (S754_finite false 4722366482869645 (-72)) in Hgap.
        unfold SFltb in Hgap.
        destruct (Prim2SF (1 - at_ lo)) as [s|s| |s m e] eqn:Ed; simpl in Hgap;
          try discriminate.
        - (* the difference is infinite: the quotient is NaN *)
          assert (Hq : Prim2SF ((1 - at_ lo) / (1 - at_ lo)) = S754_nan).
          { rewrite div_spec, Ed. reflexivity. }
          unfold clamp, py_max, py_min. rewrite (ltb_nan_l _ Hq). reflexivity.
        - rewrite (div_self _ _ _ _ Ed). reflexivity. }
      rewrite Ht. apply lerp_color_one; assumption. }
  rewrite Hc.
  destruct (color hi) as [[r g] b] eqn:Ec. destruct H8hi as (Hr & Hg & Hb).
  rewrite Ec in Hr, Hg, Hb. simpl in Hr, Hg, Hb. cbn [rbind].
  rewrite !scale_channel_one by assumption. reflexivity.
Qed.

Lemma rmap_lookup {A B} (f : A -> result B) (l : list A) (bs : list B) (i : nat)
    (a : A) (b : B) :
  rmap f l = Ok bs -> l !! i = Some a -> f a = Ok b -> bs !! i = Some b.
Proof.
  revert bs i. induction l as [|x l IH]; intros bs i Hr Hl Hf; [destruct i; discriminate|].
  cbn [rmap] in Hr. destruct (f x) as [y|] eqn:Ex; [|discriminate]. cbn [rbind] in Hr.
  destruct (rmap f l) as [ys|] eqn:Er; [|discriminate]. cbn [rbind] in Hr.
  injection Hr as <-. destruct i as [|i]; simpl in *.
  - injection Hl as ->. congruence.
  - eapply IH; eauto.
Qed.

Lemma eqb_not_ltb (x y : float) : (x =? y) = true -> (x <? y) = false.
Proof.
  intros H. destruct (x <? y) eqn:E; [|reflexivity].
  apply eqb_key in H. apply ltb_key in E.
  destruct H as (_ & _ & H). destruct E as (_ & _ & E).
  rewrite H in E. exfalso. exact (lt3_irrefl _ E).
Qed.

(** Sample 255 of the padded list of stops sorted strictly, none above 1 and
    none, the last apart, closer to 1 than the floor of the span. *)
Lemma sample_top_padded (L0 : list PaletteStop) (final : PaletteStop) :
  Forall stop8 (L0 ++ [final]) ->
  Forall (fun s => (at_ s <=? 1) = true) (L0 ++ [final]) ->
  Forall (fun s => (at_ s =? 1) = true \/ (1e-6 <? 1 - at_ s) = true) (L0 ++ [final]) ->
  StronglySorted before (L0 ++ [final]) ->
  sample (pad_stops (L0 ++ [final])) 1 255 = Ok (color final).
Proof.
  intros H8 Hle Hgap Hsorted.
  apply Forall_app in H8. destruct H8 as [H8 H8f]. inversion H8f as [|? ? H8final _]; subst.
  apply Forall_app in Hle. destruct Hle as [Hle Hlef]. inversion Hlef as [|? ? Hfinal _]; subst.
  apply Forall_app in Hgap. destruct Hgap as [Hgap _].
  apply StronglySorted_app in Hsorted. destruct Hsorted as (Hbelow & _ & _).
  assert (Hbefore : forall s, In s L0 -> (at_ s <? at_ final) = true).
  { intros s Hs. apply (Hbelow s final); [apply list_elem_of_In; exact Hs | left]. }
  (* the head of the list and the list in front of the last stop after the
     first padding step *)
  assert (Hhead : exists first, head (L0 ++ [final]) = Some first)
    by (destruct L0; simpl; eauto).
  destruct Hhead as [first Hfirst].
  unfold pad_stops. rewrite Hfirst. cbv zeta.
  set (front := if 0 <? at_ first then mkStop 0 (color first) :: L0 else L0).
  assert (Hs1 : (if 0 <? at_ first then mkStop 0 (color first) :: L0 ++ [final]
                 else L0 ++ [final]) = front ++ [final]).
  { unfold front. destruct (0 <? at_ first); reflexivity. }
  rewrite Hs1, last_snoc.
  assert (H8first : stop8 first).
  { assert (Hin : In first (L0 ++ [final])) by (eapply head_In; eauto).
    apply in_app_or in Hin. destruct Hin as [Hin|[<-|[]]]; [|exact H8final].
    rewrite Forall_forall in H8. apply H8, list_elem_of_In, Hin. }
  assert (Hfront8 : Forall stop8 front).
  { unfold front. destruct (0 <? at_ first); [constructor; [exact H8first | exact H8] | exact H8]. }
  destruct (at_ final <? 1) eqn:Efinal.
  - (* a stop at 1 is added: the top pair is the last stop and its clone *)
    rewrite <- app_assoc. cbn [app].
    assert (Hfront : Forall (fun s => (1 <=? at_ s) = false) front).
    { unfold front. destruct (0 <? at_ first); [constructor; [reflexivity|]|];
        (apply Forall_forall; intros s Hs; apply list_elem_of_In in Hs;
         apply ltb_not_leb; eapply ltb_trans; [apply Hbefore; exact Hs | exact Efinal]). }
    rewrite (sample_top_pair front final (mkStop 1 (color final))); auto.
    + apply ltb_not_leb. exact Efinal.
  - (* the last stop is at 1 *)
    assert (Hone : at_ final = 1).
    { apply one_is_one.
      destruct (leb_number _ _ Hfinal) as [Hn H1].
      destruct (ltb_total (at_ final) 1 Hn H1) as [H|[H|H]]; [congruence | exact H |].
      apply ltb_not_leb in H. congruence. }
    assert (Hfront : Forall (fun s => (1 <=? at_ s) = false) front /\
                     Forall (fun s => (at_ s <=? 1) = true) front /\
                     Forall (fun s => (1e-6 <? 1 - at_ s) = true) front).
    { assert (HL0 : Forall (fun s => (1 <=? at_ s) = false) L0 /\
                    Forall (fun s => (1e-6 <? 1 - at_ s) = true) L0).
      { split; apply Forall_forall; intros s Hs; apply list_elem_of_In in Hs;
          pose proof (Hbefore s Hs) as Hb; rewrite Hone in Hb.
        - apply ltb_not_leb. exact Hb.
        - rewrite Forall_forall in Hgap.
          destruct (Hgap s (proj2 (list_elem_of_In _ _) Hs)) as [He|Hg]; [|exact Hg].
          apply eqb_not_ltb in He. congruence. }
      destruct HL0 as [HL1 HL2].
      unfold front. destruct (0 <? at_ first);
        repeat split; try constructor; try reflexivity; auto. }
    destruct Hfront as (Hf1 & Hf2 & Hf3).
    destruct (last front) as [lo|] eqn:Elo.
    2:{ (* the front is empty only if the single stop is at zero or below *)
        exfalso. apply last_None in Elo. unfold front in Elo.
        destruct (0 <? at_ first) eqn:E0; [discriminate|]. subst L0.
        cbn [app head] in Hfirst. injection Hfirst as <-.
        rewrite Hone in E0. discriminate. }
    apply last_Some in Elo. destruct Elo as [init Einit].
    rewrite Einit in *. rewrite <- app_assoc. cbn [app].
    apply Forall_app in Hfront8. destruct Hfront8 as [_ H8lo].
    inversion H8lo as [|? ? H8lo' _]; subst.
    apply Forall_app in Hf1. destruct Hf1 as [Hinit Hlo1]. inversion Hlo1; subst.
    apply Forall_app in Hf2. destruct Hf2 as [_ Hlo2]. inversion Hlo2; subst.
    apply Forall_app in Hf3. destruct Hf3 as [_ Hlo3]. inversion Hlo3; subst.
    apply sample_top_pair; auto.
Qed.

Section LastEntry.

Context {image : Type}.

(** When the stops are at distinct positions, none above 1 and none closer
    to 1 than a millionth (a stop at 1 itself apart), entry 255 of each table
    is, with brightness 1, the channel of the stop that comes last in sorted
    order, and that stop is the one of the highest position. *)
Theorem build_luts_last_entry (h : heap image) (stops : loc) (S : list PaletteStop)
    (final : PaletteStop) :
  h !! stops = Some (OStops S) -> Forall stop8 S ->
  Forall (fun s => (at_ s <=? 1) = true) S ->
  distinct_positions S = true ->
  Forall (fun s => (at_ s =? 1) = true \/ (1e-6 <? 1 - at_ s) = true) S ->
  last (sorted_by_at S) = Some final ->
  (In final S /\ Forall (fun s => (at_ s <=? at_ final) = true) S) /\
  exists luts h' R G B,
    build_luts stops 1 h = (Ok luts, h') /\
    luts_at h' luts R G B /\
    R !! 255%nat = Some (red (color final)) /\
    G !! 255%nat = Some (green (color final)) /\
    B !! 255%nat = Some (blue (color final)).
Proof.
  intros Hs H8 Hle Hd Hgap Hlast.
  assert (Hne : S <> []).
  { intros ->. discriminate. }
  assert (Hnum : Forall (fun s => number (at_ s)) S).
  { eapply Forall_impl; [exact Hle|]. intros s H. apply (leb_number _ _ H). }
  pose proof (proj2 (numbers_Forall S) Hnum) as Hnb.
  pose proof (sorted_by_at_sorted S Hnum (distinct_NoDup S Hnb Hd)) as Hsorted.
  pose proof (sorted_by_at_perm S) as Hperm.
  apply last_Some in Hlast. destruct Hlast as [L0 EL]. rewrite EL in *.
  split.
  { split.
    - eapply Permutation_in; [exact Hperm|]. apply in_or_app. right. left. reflexivity.
    - eapply Permutation_Forall; [exact Hperm|].
      pose proof Hsorted as Hso. apply StronglySorted_app in Hso.
      destruct Hso as (Hbelow & _ & _).
      apply Forall_app. split.
      + apply Forall_forall. intros s Hin. apply ltb_leb. apply (Hbelow s final Hin). left.
      + constructor; [|constructor].
        assert (Hf : In final S).
        { eapply Permutation_in; [exact Hperm|]. apply in_or_app. right. left. reflexivity. }
        rewrite Forall_forall in Hle.
        exact (leb_refl_l _ _ (Hle final (proj2 (list_elem_of_In _ _) Hf))). }
  destruct (build_luts_ok h stops S 1 Hs Hne H8) as (cs & Hcs & Hlen & Hin & Hrun).
  rewrite EL in Hcs, Hrun.
  assert (H255 : cs !! 255%nat = Some (color final)).
  { apply (rmap_lookup _ _ _ 255%nat 255%Z _ Hcs); [reflexivity|].
    apply sample_top_padded; auto;
      (eapply Permutation_Forall; [symmetry; exact Hperm | assumption]). }
  eexists _, _, (map red cs), (map green cs), (map blue cs).
  split; [exact Hrun|]. split; [apply luts_at_run|].
  repeat split; apply lookup_map; exact H255.
Qed.

End LastEntry.

Lemma build_luts_last_entry_witness :
  let S := [mkStop 1 (200, 100, 50)%Z; mkStop 0.25 (10, 20, 30)%Z] in
  let final := mkStop 1 (200, 100, 50)%Z in
  (In final S /\ Forall (fun s => (at_ s <=? at_ final) = true) S) /\
  exists luts h' R G B,
    build_luts 0%nat 1 ([OStops S] : heap unit) = (Ok luts, h') /\
    luts_at h' luts R G B /\
    R !! 255%nat = Some 200%Z /\ G !! 255%nat = Some 100%Z /\ B !! 255%nat = Some 50%Z.
Proof.
  intros S final.
  apply (build_luts_last_entry ([OStops S] : heap unit) 0%nat S final).
  - reflexivity.
  - repeat constructor; simpl; lia.
  - repeat constructor.
  - reflexivity.
  - constructor; [left; reflexivity|]. constructor; [right; reflexivity|]. constructor.
  - reflexivity.
Defined.

(** ** Brightness at the edges *)

(** A NaN brightness saturates a channel, a zero brightness blacks it out,
    whatever the channel holds. *)
Lemma scale_channel_nan (c : Z) (brightness : float) :
  (Z.abs c <= 2 ^ 960)%Z -> Prim2SF brightness = S754_nan ->
  scale_channel c brightness = Ok 255%Z.
Proof.
  intros Hc Hn. unfold scale_channel.
  destruct (float_of_int_ok c 961) as [f ->]; [apply dg_le_of_lt_pow; lia | lia |].
  cbn [rbind].
  assert (Hp : Prim2SF (f * brightness) = S754_nan).
  { rewrite mul_spec, Hn. destruct (Prim2SF f); reflexivity. }
  unfold clamp, py_max, py_min. rewrite (ltb_nan_l _ Hp).
  change (0 <? 255) with true. cbv iota. reflexivity.
Qed.

Lemma scale_channel_zero (c : Z) (brightness : float) :
  (Z.abs c < 2 ^ 960)%Z -> (exists s, Prim2SF brightness = S754_zero s) ->
  scale_channel c brightness = Ok 0%Z.
Proof.
  intros Hc [s Hz]. unfold scale_channel.
  rewrite (float_of_int_Z2F c 960) by lia. cbn [rbind].
  assert (Hp : exists s', Prim2SF (Z2F c * brightness) = S754_zero s').
  { rewrite mul_spec, Hz.
    pose proof (fin_Z2F c 960 Hc ltac:(lia)) as Hf. unfold fin in Hf.
    destruct (Prim2SF (Z2F c)); simpl in Hf; try tauto; eexists; reflexivity. }
  destruct Hp as [s' Hp]. unfold clamp, py_max, py_min.
  assert (H1 : (Z2F c * brightness <? 255) = true) by (rewrite ltb_spec, Hp; reflexivity).
  assert (H0 : (0 <? Z2F c * brightness) = false) by (rewrite ltb_spec, Hp; reflexivity).
  rewrite H1, H0. reflexivity.
Qed.

Lemma sample_flat (P : list PaletteStop) (brightness : float) (v : Z) :
  P <> [] -> Forall stop8 P ->
  (forall c, (Z.abs c <= 2 ^ 54)%Z -> scale_channel c brightness = Ok v) ->
  forall i, sample P brightness i = Ok (v, v, v).
Proof.
  intros Hne HP Hv i. unfold sample.
  change (true_div i 255) with (Ok (Z2F i / 255)). cbn [rbind].
  set (x := Z2F i / 255).
  destruct (head P) as [first|] eqn:Eh.
  2:{ apply head_None in Eh. contradiction. }
  destruct (last P) as [final|] eqn:El.
  2:{ apply last_None in El. contradiction. }
  destruct (sample_pair_In P first final x Eh El) as [Hlo Hhi].
  destruct (default (first, final) (bracket x P)) as [lo hi]. cbn [fst snd] in Hlo, Hhi.
  rewrite Forall_forall in HP.
  pose proof (HP lo (proj2 (list_elem_of_In _ _) Hlo)) as H8lo.
  pose proof (HP hi (proj2 (list_elem_of_In _ _) Hhi)) as H8hi.
  cbn zeta. unfold py_div. rewrite span_of_nonzero. cbn [rbind].
  set (t := clamp ((x - at_ lo) / span_of lo hi) 0 1).
  destruct (lerp_color_small (color lo) (color hi) t H8lo H8hi (fin_unit_clamp _))
    as ([[r g] b] & -> & Hr & Hg & Hb).
  simpl in Hr, Hg, Hb. cbn [rbind].
  rewrite !Hv by assumption. reflexivity.
Qed.

Section BrightnessEdges.

Context {image : Type}.

(** [build_luts] does not reject a brightness that is NaN or zero: on every
    non-empty palette of 8-bit colours a NaN brightness gives tables that are
    255 throughout, and a brightness of zero (of either sign) tables that are
    0 throughout. *)
Theorem build_luts_brightness_edges (h : heap image) (stops : loc)
    (S : list PaletteStop) (brightness : float) :
  h !! stops = Some (OStops S) -> S <> [] -> Forall stop8 S ->
  (Prim2SF brightness = S754_nan -> 
     exists luts h', build_luts stops brightness h = (Ok luts, h') /\
       luts_at h' luts (replicate 256 255%Z) (replicate 256 255%Z) (replicate 256 255%Z)) /\
  ((brightness =? 0) = true ->
     exists luts h', build_luts stops brightness h = (Ok luts, h') /\
       luts_at h' luts (replicate 256 0%Z) (replicate 256 0%Z) (replicate 256 0%Z)).
Proof.
  intros Hs Hne H8.
  set (P := pad_stops (sorted_by_at S)).
  assert (HPne : P <> []) by (apply pad_stops_nonempty, sorted_by_at_nonempty, Hne).
  assert (HP : Forall stop8 P).
  { apply pad_stops_stop8.
    eapply Permutation_Forall; [symmetry; apply sorted_by_at_perm | exact H8]. }
  assert (Hp : (2 ^ 54 < 2 ^ 960)%Z) by (apply Z.pow_lt_mono_r; lia).
  assert (Hflat : forall v,
            (forall c, (Z.abs c <= 2 ^ 54)%Z -> scale_channel c brightness = Ok v) ->
            exists luts h', build_luts stops brightness h = (Ok luts, h') /\
              luts_at h' luts (replicate 256 v) (replicate 256 v) (replicate 256 v)).
  { intros v Hv.
    assert (Hcs : rmap (sample P brightness) range256 = Ok (map (fun _ => (v, v, v)) range256)).
    { apply rmap_const. apply sample_flat; assumption. }
    eexists _, _. split; [apply (build_luts_run h stops S brightness _ Hs Hne Hcs)|].
    rewrite !map_const_replicate. change (length range256) with 256%nat.
    apply luts_at_run. }
  split.
  - intros Hn. apply Hflat. intros c Hc. apply scale_channel_nan; [lia | exact Hn].
  - intros Hz. apply Hflat. intros c Hc. apply scale_channel_zero; [lia|].
    rewrite FloatAxioms.eqb_spec in Hz. change (Prim2SF 0) with (S754_zero false) in Hz.
    unfold SFeqb in Hz.
    destruct (Prim2SF brightness) as [s|s| |s m e]; simpl in Hz; try discriminate; eauto;
      destruct s; discriminate.
Qed.

End BrightnessEdges.

Lemma build_luts_brightness_edges_witness :
  (Prim2SF nan = S754_nan ->
     exists luts h', build_luts 0%nat nan ([OStops black_white] : heap unit) = (Ok luts, h') /\
       luts_at h' luts (replicate 256 255%Z) (replicate 256 255%Z) (replicate 256 255%Z)) /\
  ((nan =? 0) = true ->
     exists luts h', build_luts 0%nat nan ([OStops black_white] : heap unit) = (Ok luts, h') /\
       luts_at h' luts (replicate 256 0%Z) (replicate 256 0%Z) (replicate 256 0%Z)).
Proof.
  apply (build_luts_brightness_edges ([OStops black_white] : heap unit) 0%nat black_white nan).
  - reflexivity.
  - discriminate.
  - repeat constructor; simpl; lia.
Defined.

(** ** The scan always finds its pair *)

Lemma bracket_sound (x : float) (l : list PaletteStop) (lo hi : PaletteStop) :
  bracket x l = Some (lo, hi) -> (at_ lo <=? x) = true /\ (x <=? at_ hi) = true.
Proof.
  induction l as [|a l IH]; simpl; [discriminate|].
  destruct l as [|b l]; [discriminate|].
  destruct ((at_ a <=? x) && (x <=? at_ b)) eqn:E.
  - intros H; inversion H; subst. apply andb_true_iff in E. exact E.
  - exact IH.
Qed.

(** On a list of at least two stops, none at NaN, whose first stop is not
    above [x] and whose last stop is not below [x], the scan finds a pair. *)
Lemma bracket_scan (x : float) :
  forall (rest : list PaletteStop) (a final : PaletteStop),
  rest <> [] -> last (a :: rest) = Some final ->
  Forall (fun s => number (at_ s)) rest ->
  (at_ a <=? x) = true -> (x <=? at_ final) = true ->
  exists lo hi, bracket x (a :: rest) = Some (lo, hi).
Proof.
  induction rest as [|b rest IH]; intros a final Hne Hlast Hnum Ha Hfinal; [contradiction|].
  cbn [bracket]. rewrite Ha. cbn [andb].
  destruct (x <=? at_ b) eqn:Eb; [eauto|].
  inversion Hnum as [|? ? Hb Hnum']; subst.
  destruct (leb_number _ _ Ha) as [_ Hx].
  assert (Hbx : (at_ b <=? x) = true).
  { apply not_ltb_leb; [exact Hb | exact Hx|].
    destruct (x <? at_ b) eqn:E; [|reflexivity].
    apply ltb_leb in E. congruence. }
  apply (IH b final); auto.
  intros ->. cbn [last] in Hlast. injection Hlast as <-. congruence.
Qed.

Lemma unit_samples :
  forallb (fun a => (0 <=? Z2F a / 255) && (Z2F a / 255 <=? 1)) bytes = true.
Proof. vm_compute. reflexivity. Qed.

(** After lines 36-39 the list starts at 0 or below and ends at 1 or above,
    and it holds two stops at least. *)
Lemma pad_stops_covers (L : list PaletteStop) :
  L <> [] -> Forall (fun s => number (at_ s)) L ->
  exists a rest final,
    pad_stops L = a :: rest /\ rest <> [] /\ last (a :: rest) = Some final /\
    Forall (fun s => number (at_ s)) rest /\
    (at_ a <=? 0) = true /\ (1 <=? at_ final) = true.
Proof.
  intros Hne Hnum. destruct L as [|f L]; [contradiction|].
  inversion Hnum as [|? ? Hf HL]; subst.
  assert (H0 : number 0) by (intros E; discriminate E).
  assert (H1 : number 1) by (intros E; discriminate E).
  unfold pad_stops. cbn [head]. cbv zeta.
  set (s1 := if 0 <? at_ f then mkStop 0 (color f) :: f :: L else f :: L).
  assert (Hs1 : exists a r, s1 = a :: r /\ (at_ a <=? 0) = true /\
                            Forall (fun s => number (at_ s)) r).
  { unfold s1. destruct (0 <? at_ f) eqn:E.
    - exists (mkStop 0 (color f)), (f :: L). repeat split; auto.
    - exists f, L. repeat split; auto. apply not_ltb_leb; assumption. }
  destruct Hs1 as (a & r & -> & Ha & Hr).
  destruct (last (a :: r)) as [final|] eqn:El.
  2:{ apply last_None in El. discriminate. }
  assert (Hfn : number (at_ final)).
  { apply last_In in El. destruct El as [<-|Hin].
    - apply (leb_number _ _ Ha).
    - rewrite Forall_forall in Hr. apply Hr, list_elem_of_In, Hin. }
  destruct (at_ final <? 1) eqn:E1.
  - exists a, (r ++ [mkStop 1 (color final)]), (mkStop 1 (color final)).
    split; [reflexivity|]. split; [destruct r; discriminate|].
    split; [rewrite app_comm_cons; apply last_snoc|].
    split; [apply Forall_app; split; [exact Hr | constructor; [exact H1 | constructor]]|].
    split; [exact Ha | reflexivity].
  - assert (Hfinal : (1 <=? at_ final) = true) by (apply not_ltb_leb; assumption).
    exists a, r, final. split; [reflexivity|].
    split.
    { intros ->. cbn [last] in El. injection El as <-.
      pose proof (leb_trans _ _ _ Hfinal Ha) as Hc. discriminate Hc. }
    repeat split; auto.
Qed.

Section BracketFound.

Context {image : Type}.

(** When no position is NaN the scan of lines 49-53 finds a pair for every
    one of the 256 sample positions [x = i / 255]: two stops of the sorted,
    padded list with [lo.at <= x <= hi.at].  The defaults of lines 47-48
    (first stop, last stop) are never what the sample is interpolated
    between; the padding of lines 36-39 is what guarantees it. *)
Theorem build_luts_bracket_found (h : heap image) (stops : loc) (S : list PaletteStop)
    (brightness : float) :
  h !! stops = Some (OStops S) -> S <> [] -> Forall stop8 S -> numbers S = true ->
  exists luts h' P,
    build_luts stops brightness h = (Ok luts, h') /\
    h' !! length h = Some (OStops P) /\
    forall i, (0 <= i <= 255)%Z ->
      exists lo hi,
        bracket (Z2F i / 255) P = Some (lo, hi) /\
        In lo P /\ In hi P /\
        (at_ lo <=? Z2F i / 255) = true /\ (Z2F i / 255 <=? at_ hi) = true.
Proof.
  intros Hs Hne H8 Hn.
  destruct (build_luts_ok h stops S brightness Hs Hne H8) as (cs & _ & _ & _ & Hrun).
  eexists _, _, (pad_stops (sorted_by_at S)). split; [exact Hrun|].
  split.
  { rewrite lookup_app_r by lia. rewrite Nat.sub_diag. reflexivity. }
  intros i Hi.
  apply numbers_Forall in Hn.
  assert (HL : Forall (fun s => number (at_ s)) (sorted_by_at S)).
  { eapply Permutation_Forall; [symmetry; apply sorted_by_at_perm | exact Hn]. }
  destruct (pad_stops_covers (sorted_by_at S) (sorted_by_at_nonempty S Hne) HL)
    as (a & rest & final & -> & Hrest & Hlast & Hnum & Ha & Hfinal).
  pose proof unit_samples as Hu. rewrite forallb_forall in Hu.
  specialize (Hu i (in_bytes i Hi)). apply andb_true_iff in Hu. destruct Hu as [Hx0 Hx1].
  destruct (bracket_scan (Z2F i / 255) rest a final Hrest Hlast Hnum
              (leb_trans _ _ _ Ha Hx0) (leb_trans _ _ _ Hx1 Hfinal)) as (lo & hi & Hb).
  exists lo, hi. split; [exact Hb|].
  destruct (bracket_In _ _ _ _ Hb) as [Hlo Hhi].
  destruct (bracket_sound _ _ _ _ Hb) as [Hl Hh]. auto.
Qed.

End BracketFound.

Lemma build_luts_bracket_found_witness :
  exists luts h' P,
    build_luts 0%nat 1.25 ([OStops stray_stops] : heap unit) = (Ok luts, h') /\
    h' !! length ([OStops stray_stops] : heap unit) = Some (OStops P) /\
    forall i, (0 <= i <= 255)%Z ->
      exists lo hi,
        bracket (Z2F i / 255) P = Some (lo, hi) /\
        In lo P /\ In hi P /\
        (at_ lo <=? Z2F i / 255) = true /\ (Z2F i / 255 <=? at_ hi) = true.
Proof.
  apply (build_luts_bracket_found ([OStops stray_stops] : heap unit) 0%nat stray_stops 1.25).
  - reflexivity.
  - discriminate.
  - repeat constructor; simpl; lia.
  - reflexivity.
Defined.

(** ** Binary64: division by an integer

    A rounded non-zero integer keeps its magnitude, so it is not zero, and a
    quotient by it is no larger than the numerator by more than the bound
    below.  This is what [math.pi / points] and [i * step] need. *)

Section Division.

Local Open Scope Z_scope.

(** A float that is not zero and of magnitude [2^(L-1)] at least. *)
Definition mag_ge (L : Z) (x : spec_float) : Prop :=
  match x with
  | S754_finite _ m e => L <= dg (Zpos m) + e
  | S754_infinity _ => True
  | _ => False
  end.

Lemma dg_positive m : 0 < m -> 1 <= dg m.
Proof.
  intros Hm. destruct m as [|p|p]; try lia.
  rewrite dg_pos. pose proof (Z.log2_nonneg (Zpos p)). lia.
Qed.

Lemma dg_zero_iff m : 0 <= m -> dg m = 0 -> m = 0.
Proof.
  intros Hm Hd. destruct (Z.eq_dec m 0) as [|Hn]; [assumption|].
  pose proof (dg_positive m ltac:(lia)). lia.
Qed.

Lemma shr_fexp_low m e l r e' :
  0 < m -> -1073 <= dg m + e -> shr_fexp prec emax m e l = (r, e') ->
  0 < shr_m r /\ dg (shr_m r) + e' = dg m + e.
Proof.
  intros Hm Hmag Heq. destruct (shr_fexp_spec m e l ltac:(lia)) as (r0 & e0 & H0 & Hc).
  rewrite Heq in H0. inversion H0; subst r0 e0; clear H0.
  destruct Hc as [(-> & -> & _)|(Hlt & He & Hr)]; [auto|].
  pose proof (dg_shiftr m (e' - e) ltac:(lia) ltac:(lia)) as Hd. rewrite <- Hr in Hd.
  rewrite fexp64_eq in He.
  assert (Hpos : 1 <= dg (shr_m r)) by lia.
  assert (Hnn : 0 <= shr_m r) by (rewrite Hr; apply Z.shiftr_nonneg; lia).
  split; [|lia].
  destruct (Z.eq_dec (shr_m r) 0) as [Hz|]; [|lia].
  rewrite Hz in Hpos. change (dg 0) with 0 in Hpos. lia.
Qed.

Lemma binary_round_aux_low sx mx ex lx :
  0 < mx -> -1073 <= dg mx + ex ->
  mag_ge (dg mx + ex) (binary_round_aux prec emax sx mx ex lx).
Proof.
  intros Hm Hmag. unfold binary_round_aux.
  destruct (shr_fexp prec emax mx ex lx) as [r1 e1] eqn:E1.
  destruct (shr_fexp_low mx ex lx r1 e1 Hm Hmag E1) as [Hr1 Hd1].
  set (m1 := round_nearest_even (shr_m r1) (loc_of_shr_record r1)).
  pose proof (round_nearest_even_bounds (shr_m r1) (loc_of_shr_record r1)) as Hb.
  fold m1 in Hb.
  pose proof (dg_mono (shr_m r1) m1 ltac:(lia)) as Hmono.
  destruct (shr_fexp prec emax m1 e1 loc_Exact) as [r2 e2] eqn:E2.
  destruct (shr_fexp_low m1 e1 loc_Exact r2 e2 ltac:(lia) ltac:(lia) E2) as [Hr2 Hd2].
  destruct (shr_m r2) as [|m2|m2] eqn:Em2; try lia.
  destruct (e2 <=? emax - prec); unfold mag_ge; [lia | exact I].
Qed.

Lemma binary_round_low sx mx ex :
  -1073 <= dg (Zpos mx) + ex ->
  mag_ge (dg (Zpos mx) + ex) (binary_round prec emax sx mx ex).
Proof.
  intros Hmag. unfold binary_round, shl_align.
  change (Z.pos (digits2_pos mx)) with (dg (Zpos mx)).
  destruct (fexp64 (dg (Zpos mx) + ex) - ex) as [|d|d] eqn:E;
    try (apply binary_round_aux_low; lia).
  pose proof (binary_round_aux_low sx (Z.pos (shift_pos d mx))
                (fexp64 (dg (Z.pos mx) + ex)) loc_Exact ltac:(lia)) as H.
  unfold shift_pos in *.
  rewrite iter_xO, dg_shiftl in H by lia.
  replace (dg (Z.pos mx) + Z.pos d + fexp64 (dg (Z.pos mx) + ex))
    with (dg (Zpos mx) + ex) in H by lia.
  rewrite iter_xO. apply H. lia.
Qed.

Lemma binary_normalize_low m sz :
  m <> 0 -> mag_ge (dg (Z.abs m)) (binary_normalize prec emax m 0 sz).
Proof.
  intros Hm. destruct m as [|p|p]; [contradiction| |]; simpl.
  - pose proof (binary_round_low false p 0) as H. rewrite Z.add_0_r in H.
    apply H. pose proof (dg_positive (Zpos p) ltac:(lia)). lia.
  - pose proof (binary_round_low true p 0) as H. rewrite Z.add_0_r in H.
    apply H. pose proof (dg_positive (Zpos p) ltac:(lia)). lia.
Qed.

(** Rounding the empty mantissa: zero, or one unit in the last place. *)
Lemma binary_round_aux_mag_zero sx ex lx K :
  ex <= K -> -1074 <= K <= 971 ->
  mag_le (K + 1) (binary_round_aux prec emax sx 0 ex lx).
Proof.
  intros Hex HK. unfold binary_round_aux.
  destruct (shr_fexp prec emax 0 ex lx) as [r1 e1] eqn:E1.
  destruct (shr_fexp_mag 0 ex lx r1 e1 ltac:(lia) E1) as (Hr1 & Hm1 & He1).
  change (dg 0) with 0 in *. rewrite fexp64_eq in He1.
  assert (Hz : shr_m r1 = 0).
  { destruct (shr_fexp_spec 0 ex lx ltac:(lia)) as (r0 & e0 & H0 & Hc).
    rewrite E1 in H0. inversion H0; subst r0 e0; clear H0.
    destruct Hc as [(Hc & _)|(_ & _ & Hc)]; [exact Hc|].
    rewrite Hc. apply Z.shiftr_0_l. }
  set (m1 := round_nearest_even (shr_m r1) (loc_of_shr_record r1)).
  pose proof (round_nearest_even_bounds (shr_m r1) (loc_of_shr_record r1)) as Hb.
  fold m1 in Hb. rewrite Hz in Hb.
  assert (Hd : dg m1 <= 1).
  { assert (m1 = 0 \/ m1 = 1) as [->| ->] by lia; [change (dg 0) with 0 | change (dg 1) with 1]; lia. }
  destruct (shr_fexp prec emax m1 e1 loc_Exact) as [r2 e2] eqn:E2.
  destruct (shr_fexp_mag m1 e1 loc_Exact r2 e2 ltac:(lia) E2) as (Hr2 & Hm2 & He2).
  rewrite fexp64_eq in He2.
  destruct (shr_m r2) as [|m2|m2] eqn:Em2; [exact I| |lia].
  destruct Hm2 as [|Hm2]; [lia|].
  pose proof (dg_positive (Zpos m2) ltac:(lia)).
  assert (He : e2 <= 971) by lia.
  apply Z.leb_le in He. change (Z.sub emax prec) with 971. rewrite He.
  unfold mag_le. lia.
Qed.

Lemma pow2_dg_le m : 0 < m -> 2 ^ (dg m - 1) <= m.
Proof.
  intros Hm. destruct m as [|p|p]; try lia. rewrite dg_pos.
  replace (Z.log2 (Z.pos p) + 1 - 1) with (Z.log2 (Zpos p)) by lia.
  apply Z.log2_spec. lia.
Qed.

Lemma dg_div a b : 0 < a -> 0 < b -> dg (a / b) <= Z.max 0 (dg a - dg b + 1).
Proof.
  intros Ha Hb.
  pose proof (dg_lt_pow a ltac:(lia)) as Hua. pose proof (pow2_dg_le b Hb) as Hlb.
  pose proof (dg_positive a Ha). pose proof (dg_positive b Hb).
  assert (Hq : 0 <= a / b) by (apply Z.div_pos; lia).
  apply dg_le_of_lt_pow; [exact Hq | lia |].
  apply Z.div_lt_upper_bound; [lia|].
  destruct (Z.le_gt_cases (dg b - 1) (dg a)) as [Hle|Hgt].
  - replace (Z.max 0 (dg a - dg b + 1)) with (dg a - (dg b - 1)) by lia.
    assert (Hp : 2 ^ dg a = 2 ^ (dg b - 1) * 2 ^ (dg a - (dg b - 1))).
    { rewrite <- Z.pow_add_r by lia. f_equal. lia. }
    assert (0 < 2 ^ (dg a - (dg b - 1))) by (apply Z.pow_pos_nonneg; lia).
    nia.
  - replace (Z.max 0 (dg a - dg b + 1)) with 0 by lia. rewrite Z.pow_0_r.
    assert (2 ^ dg a <= 2 ^ (dg b - 1)) by (apply Z.pow_le_mono_r; lia). lia.
Qed.

Lemma SFdiv_mag x sy my ey Kx L :
  mag_le Kx x -> L <= dg (Zpos my) + ey -> -1074 <= Kx - L + 1 <= 971 ->
  mag_le (Kx - L + 2) (SF64div x (S754_finite sy my ey)).
Proof.
  destruct x as [sx|sx| |sx mx ex]; unfold SF64div; cbn [SFdiv mag_le]; try tauto.
  intros Hx Hy HK. unfold SFdiv_core_binary.
  change (Zdigits2 (Zpos mx)) with (dg (Zpos mx)).
  change (Zdigits2 (Zpos my)) with (dg (Zpos my)).
  set (d1 := dg (Zpos mx)) in *. set (d2 := dg (Zpos my)) in *.
  change 53%Z with prec. change 1024%Z with emax.
  fold fexp64.
  set (e' := Z.min (fexp64 (d1 + ex - (d2 + ey))) (ex - ey)).
  set (s := ex - ey - e').
  assert (Hs : 0 <= s) by (unfold s, e'; lia).
  set (m' := match s with Z.pos _ => Z.shiftl (Z.pos mx) s | 0 => Z.pos mx | Z.neg _ => 0 end).
  assert (Hm' : 0 < m' /\ dg m' = d1 + s).
  { unfold m'. destruct s as [|p|p] eqn:Es; [split; [lia|unfold d1; lia] | | lia].
    rewrite dg_shiftl by lia. split; [|reflexivity].
    rewrite Z.shiftl_mul_pow2 by lia. pose proof (Z.pow_pos_nonneg 2 (Zpos p)). lia. }
  destruct Hm' as [Hm'pos Hm'd].
  destruct (Z.div_eucl m' (Zpos my)) as [q r] eqn:Ediv.
  assert (Hq : q = m' / Zpos my) by (unfold Z.div; rewrite Ediv; reflexivity).
  pose proof (dg_div m' (Zpos my) Hm'pos ltac:(lia)) as Hdq. rewrite <- Hq in Hdq.
  fold d2 in Hdq. rewrite Hm'd in Hdq.
  assert (Hq0 : 0 <= q) by (rewrite Hq; apply Z.div_pos; lia).
  assert (He' : e' <= Kx - L + 1).
  { unfold e'. rewrite fexp64_eq. lia. }
  replace (Kx - L + 2) with ((Kx - L + 1) + 1) by lia.
  destruct (Z.eq_dec q 0) as [->|Hnz].
  - apply binary_round_aux_mag_zero; lia.
  - apply binary_round_aux_mag; [lia| |lia]. unfold s in Hdq. lia.
Qed.

End Division.

(** The float of a non-zero integer below [2^K] in absolute value is finite
    and not zero. *)
Lemma Z2F_finite (n : Z) (K : Z) :
  (n <> 0)%Z -> (Z.abs n < 2 ^ K)%Z -> (0 <= K <= 971)%Z ->
  exists s m e, Prim2SF (Z2F n) = S754_finite s m e /\
                (1 <= dg (Zpos m) + e <= K + 1)%Z.
Proof.
  intros Hn Hlt HK.
  pose proof (fin_Z2F n K Hlt HK) as Hup. unfold fin in Hup.
  rewrite Prim2SF_Z2F in *.
  pose proof (binary_normalize_low n false Hn) as Hlow.
  pose proof (dg_positive (Z.abs n) ltac:(lia)) as Hd.
  destruct (binary_normalize prec emax n 0 false) as [s|s| |s m e];
    simpl in Hup, Hlow; try tauto.
  exists s, m, e. split; [reflexivity | lia].
Qed.

Lemma Z2F_nonzero (n : Z) (K : Z) :
  (n <> 0)%Z -> (Z.abs n < 2 ^ K)%Z -> (0 <= K <= 971)%Z -> (Z2F n =? 0) = false.
Proof.
  intros Hn Hlt HK. destruct (Z2F_finite n K Hn Hlt HK) as (s & m & e & E & _).
  rewrite FloatAxioms.eqb_spec, E. destruct s; reflexivity.
Qed.

(** A quotient by the float of a non-zero integer. *)
Lemma fin_div_int (x : float) (n : Z) (Kx K : Z) :
  fin Kx x -> (n <> 0)%Z -> (Z.abs n < 2 ^ K)%Z -> (0 <= K <= 971)%Z ->
  (-1074 <= Kx <= 971)%Z -> fin (Kx + 1) (x / Z2F n).
Proof.
  intros Hx Hn Hlt HK HKx. destruct (Z2F_finite n K Hn Hlt HK) as (s & m & e & E & Hm & _).
  unfold fin. rewrite div_spec, E.
  replace (Kx + 1)%Z with (Kx - 1 + 2)%Z by lia.
  apply SFdiv_mag; [exact Hx | lia | lia].
Qed.

(** ** The vertices of a star: [star_points] *)

Section StarPoints.

Context `{Libm}.

(** Vertex [i] of the star, read off line 220-222 with the C library's
    values. *)
Definition star_vertex (cx cy r_outer r_inner rotation step : float) (i : Z)
  : float * float :=
  let r := if (i mod 2 =? 0)%Z then r_outer else r_inner in
  let angle := rotation + Z2F i * step in
  (cx + r * libm_cos angle, cy + r * libm_sin angle).

Lemma star_point_run (cx cy r_outer r_inner rotation step : float) (i : Z) :
  (0 <= i < 2 ^ 32)%Z -> fin 64 rotation -> fin 3 step ->
  star_point cx cy r_outer r_inner rotation step i =
    Ok (star_vertex cx cy r_outer r_inner rotation step i).
Proof.
  intros Hi Hr Hs. unfold star_point, star_vertex.
  rewrite (float_of_int_Z2F i 32) by lia. cbn [rbind].
  assert (Hfi : fin 33 (Z2F i)) by (apply (fin_Z2F i 32); lia).
  pose proof (fin_mul _ _ _ _ Hfi Hs ltac:(lia)) as Hp.
  pose proof (fin_add _ _ _ _ Hr Hp ltac:(lia) ltac:(lia)) as Ha.
  unfold math_cos, math_sin.
  rewrite (math_call_total libm_cos _ _ Ha), (math_call_total libm_sin _ _ Ha).
  reflexivity.
Qed.

Lemma rmap_total {A B} (f : A -> result B) (g : A -> B) (l : list A) :
  (forall a, In a l -> f a = Ok (g a)) -> rmap f l = Ok (map g l).
Proof.
  induction l as [|a l IH]; intros Hf; simpl; [reflexivity|].
  rewrite (Hf a) by (simpl; auto). rewrite IH by (intros; apply Hf; simpl; auto).
  reflexivity.
Qed.

(** The list [star_points] returns for a positive number of points. *)
Definition star_polygon (cx cy r_outer r_inner : float) (points : Z) (rotation : float)
  : list (float * float) :=
  map (star_vertex cx cy r_outer r_inner rotation (pi / Z2F points))
      (map Z.of_nat (seq 0 (Z.to_nat (points * 2)))).

Lemma star_points_run (cx cy r_outer r_inner : float) (points : Z) (rotation : float)
    (K : Z) :
  (0 < points < 2 ^ 31)%Z -> fin K rotation -> (K <= 64)%Z ->
  star_points cx cy r_outer r_inner points rotation =
    Ok (star_polygon cx cy r_outer r_inner points rotation).
Proof.
  intros Hp Hr HK. unfold star_points, star_polygon.
  rewrite (float_of_int_Z2F points 31) by lia. cbn [rbind].
  unfold py_div. rewrite (Z2F_nonzero points 31) by lia. cbn [rbind].
  assert (Hs : fin 3 (pi / Z2F points)).
  { apply (fin_div_int pi points 2 31); try lia. apply finb_fin. reflexivity. }
  apply rmap_total. intros i Hi. apply in_map_iff in Hi.
  destruct Hi as (n & <- & Hn). apply in_seq in Hn.
  apply star_point_run; [|exact (fin_mono _ _ _ Hr HK)|exact Hs].
  assert (2 ^ 32 = 2 * 2 ^ 31)%Z by reflexivity. lia.
Qed.

(** [star_points] raises [ZeroDivisionError] when [points] is 0 and returns
    the empty list when it is negative.  For [points] above 0 and a finite
    rotation it returns [2 * points] vertices, vertex [i] at the angle
    [rotation + i * (pi / points)] and at the outer radius when [i] is even,
    the inner radius when [i] is odd. *)
Theorem star_points_vertices (cx cy r_outer r_inner : float) (points : Z)
    (rotation : float) :
  (points = 0%Z ->
     star_points cx cy r_outer r_inner points rotation = Raise ZeroDivisionError) /\
  ((- 2 ^ 31 < points < 0)%Z ->
     star_points cx cy r_outer r_inner points rotation = Ok []) /\
  ((0 < points < 2 ^ 31)%Z -> fin 64 rotation ->
     exists pts,
       star_points cx cy r_outer r_inner points rotation = Ok pts /\
       length pts = Z.to_nat (2 * points) /\
       forall i, (0 <= i < 2 * points)%Z ->
         pts !! Z.to_nat i =
           Some (star_vertex cx cy r_outer r_inner rotation (pi / Z2F points) i)).
Proof.
  repeat split.
  - intros ->. reflexivity.
  - intros Hp. unfold star_points. rewrite (float_of_int_Z2F points 31) by lia. cbn [rbind].
    unfold py_div. rewrite (Z2F_nonzero points 31) by lia. cbn [rbind].
    replace (Z.to_nat (points * 2)) with 0%nat by lia. reflexivity.
  - intros Hp Hr. exists (star_polygon cx cy r_outer r_inner points rotation).
    split; [apply (star_points_run _ _ _ _ _ _ 64); auto; lia|].
    unfold star_polygon. split.
    + rewrite !length_map, length_seq. f_equal. lia.
    + intros i Hi.
      rewrite (lookup_map _ _ _ i).
      * reflexivity.
      * rewrite (lookup_map Z.of_nat _ _ (Z.to_nat i)).
        -- f_equal. lia.
        -- apply lookup_seq. split; [reflexivity | lia].
Qed.

End StarPoints.

Lemma star_points_vertices_witness :
  let Lm := constant_sine 0.5 in
  (4%Z = 0%Z -> star_points 160 160 80 32 4 0 = Raise ZeroDivisionError) /\
  ((- 2 ^ 31 < 4 < 0)%Z -> star_points 160 160 80 32 4 0 = Ok []) /\
  ((0 < 4 < 2 ^ 31)%Z -> fin 64 0 ->
     exists pts,
       star_points 160 160 80 32 4 0 = Ok pts /\
       length pts = Z.to_nat (2 * 4) /\
       forall i, (0 <= i < 2 * 4)%Z ->
         pts !! Z.to_nat i = Some (star_vertex 160 160 80 32 0 (pi / Z2F 4) i)).
Proof.
  intro Lm. apply (@star_points_vertices Lm 160 160 80 32 4 0).
Defined.


(** ** The renderers on a finite phase

    Two things are taken of the libraries from here on, each as a hypothesis
    of the statement that needs it.  On a finite argument the C library's
    sine returns a float of absolute value below 2, which every value in
    [-1, 1] is; of its value on NaN nothing is taken.  The canvas side and
    the output side lie between 1 and 4096, sides at which the imaging
    library returns from [Image.new] and [resize]; [main] uses 320 and 64. *)

Ltac fin_more :=
  lazymatch goal with
  | |- fin _ (- _) => apply fin_opp; fin_more
  | |- fin _ (_ + _) => eapply fin_add; [fin_more | fin_more | fin_side | fin_side]
  | |- fin _ (_ * _) => eapply fin_mul; [fin_more | fin_more | fin_side]
  | |- fin _ (libm_sin _) =>
      match goal with
      | Hs : forall x, is_finite x = true -> fin _ (libm_sin x) |- _ =>
          apply Hs; eapply fin_is_finite; fin_more
      end
  | |- fin _ ?x => first [eassumption | apply fin_closed; reflexivity]
  end.

Ltac resolve_more :=
  match goal with
  | |- context [match ?r with Ok _ => _ | Raise _ => _ end] =>
      lazymatch r with
      | math_sin ?x => unfold math_sin; erewrite (math_call_total libm_sin _ x) by fin_more
      | math_call ?f ?x => erewrite (math_call_total f _ x) by fin_more
      | py_int ?x => erewrite (py_int_total _ x) by fin_more
      | float_of_int ?z => erewrite (float_of_int_Z2F z 31) by (simpl; lia)
      | true_div 56 2 => rewrite true_div_margin
      | star_points ?cx ?cy ?ro ?ri 4 ?rot =>
          erewrite (star_points_run cx cy ro ri 4 rot)
            by first [ simpl; lia | fin_more | vm_compute; discriminate ]
      end
  end;
  cbv beta iota.

Section FlameReturns.

Context {image : Type} `{Imaging image} `{Libm}.

Variables (size out_size : Z) (t : float).

(** The first three images of a flame frame (lines 138-142): the linear
    gradient, its copy resized to [size] by [size + 56], and the window of
    [size] rows cut from the copy at the row [crop_y]. *)
Definition gradient_window : list (obj image) :=
  let big := Image_resize (Image_linear_gradient ModeL) (size, (size + 56)%Z) BICUBIC in
  let crop_y := clamp_int (int_of (28 + 12 * libm_sin (2 * pi * t))) 0 56 in
  [OImage (Image_linear_gradient ModeL);
   OImage big;
   OImage (Image_crop big (0%Z, crop_y, size, (crop_y + size)%Z))].

Hypothesis sin_bounded : forall x, is_finite x = true -> fin 1 (libm_sin x).
Hypothesis phase_finite : fin 64 t.
Hypothesis size_range : (Z.abs size < 2 ^ 31)%Z.

(** The layers below the ember: the first three images are the gradient
    window; the last is the composed image. *)
Lemma flame_layers_returns (h : heap image) :
  exists rest composed,
    flame_layers size t (h ++ []) =
      (Ok (length h + (3 + length rest))%nat,
       h ++ gradient_window ++ rest ++ [OImage composed]).
Proof.
  assert (Hfs : fin 32 (Z2F size)) by (apply (fin_Z2F size 31); lia).
  assert (Hnfs : fin 32 (Z2F (- size))) by (apply (fin_Z2F (- size) 31); lia).
  unfold gradient_window.
  unfold_render.
  repeat first [image_step | resolve_more].
  lazymatch goal with
  | |- exists rest composed,
         (Ok (length ?h + ?k)%nat, ?h ++ (_ :: _ :: _ :: ?D)) = _ =>
      let D0 := eval cbv [removelast] in (removelast D) in
      lazymatch eval cbv [List.last] in (List.last D (OInts [])) with
      | OImage ?c => exists D0, c
      end
  end.
  reflexivity.
Qed.

(** The ember stage and the final stage, run after the layers. *)
Lemma flame_tail_returns (h0 : heap image) (composed : image) :
  (let* c := flame_ember size t (length h0 + 0)%nat in flame_finish out_size c)
    (h0 ++ [OImage composed]) =
  if 0.55 <? ember_on t then
    (Ok (length h0 + 5)%nat,
     h0 ++ [OImage composed; OImage (ember_dot size t); OImage (ember_layer size t);
            OImage (Image_alpha_composite composed (ember_layer size t));
            OImage (downscaled out_size (Image_alpha_composite composed (ember_layer size t)));
            OImage (sharpened out_size (Image_alpha_composite composed (ember_layer size t)))])
  else
    (Ok (length h0 + 3)%nat,
     h0 ++ [OImage composed; OImage (ember_canvas size);
            OImage (downscaled out_size composed); OImage (sharpened out_size composed)]).
Proof.
  assert (Hfs : fin 32 (Z2F size)) by (apply (fin_Z2F size 31); lia).
  unfold flame_ember, flame_finish, ember_on.
  repeat first [image_step | resolve_more].
  destruct (0.55 <? 0.45 + 0.55 * libm_sin (2 * pi * (t + 0.52))) eqn:Eon.
  - repeat first [image_step | resolve_more]. reflexivity.
  - repeat first [image_step | resolve_more]. reflexivity.
Qed.

(** The whole run: the layers, then one of the two tails. *)
Lemma flame_frame_run (h : heap image) :
  exists rest composed,
    flame_layers size t h =
      (Ok (length h + length (gradient_window ++ rest))%nat,
       h ++ (gradient_window ++ rest) ++ [OImage composed]) /\
    render_flame_frame size out_size t h =
      if 0.55 <? ember_on t then
        (Ok (length h + length (gradient_window ++ rest) + 5)%nat,
         h ++ (gradient_window ++ rest) ++
           [OImage composed; OImage (ember_dot size t); OImage (ember_layer size t);
            OImage (Image_alpha_composite composed (ember_layer size t));
            OImage (downscaled out_size (Image_alpha_composite composed (ember_layer size t)));
            OImage (sharpened out_size (Image_alpha_composite composed (ember_layer size t)))])
      else
        (Ok (length h + length (gradient_window ++ rest) + 3)%nat,
         h ++ (gradient_window ++ rest) ++
           [OImage composed; OImage (ember_canvas size);
            OImage (downscaled out_size composed); OImage (sharpened out_size composed)]).
Proof.
  destruct (flame_layers_returns h) as (rest & composed & Hrun).
  rewrite app_nil_r in Hrun.
  exists rest, composed.
  set (d0 := gradient_window ++ rest) in *.
  assert (Hrun' : flame_layers size t h =
                  (Ok (length h + length d0)%nat, (h ++ d0) ++ [OImage composed])).
  { rewrite Hrun. unfold d0. rewrite length_app, <- !app_assoc. reflexivity. }
  split; [rewrite Hrun', <- app_assoc; reflexivity|].
  assert (Htail := flame_tail_returns (h ++ d0) composed).
  assert (Hall : render_flame_frame size out_size t h =
                 (let* c := flame_ember size t (length (h ++ d0) + 0)%nat in
                  flame_finish out_size c) ((h ++ d0) ++ [OImage composed])).
  { unfold render_flame_frame. rewrite bind_run, Hrun'.
    rewrite length_app, Nat.add_0_r. reflexivity. }
  rewrite Hall, Htail. rewrite length_app, <- !app_assoc.
  destruct (0.55 <? ember_on t); reflexivity.
Qed.

(** A flame frame is what the last two lines of the renderer return: an
    image resized to the output size and sharpened, added at the end of the
    store, which begins with the gradient window. *)
Lemma flame_frame_window (h : heap image) :
  exists rest c,
    render_flame_frame size out_size t h =
      (Ok (length h + length (gradient_window ++ rest))%nat,
       h ++ (gradient_window ++ rest) ++ [OImage (sharpened out_size c)]).
Proof.
  destruct (flame_frame_run h) as (rest & composed & _ & Hrun).
  rewrite Hrun. destruct (0.55 <? ember_on t).
  - eexists (rest ++ [_; _; _; _; _]), _.
    rewrite !length_app, <- !app_assoc. cbn [length app]. f_equal. f_equal. lia.
  - eexists (rest ++ [_; _; _]), _.
    rewrite !length_app, <- !app_assoc. cbn [length app]. f_equal. f_equal. lia.
Qed.

Lemma flame_frame_returns (h : heap image) :
  exists d c,
    render_flame_frame size out_size t h =
      (Ok (length h + length d)%nat, h ++ d ++ [OImage (sharpened out_size c)]).
Proof.
  destruct (flame_frame_window h) as (rest & c & Hrun).
  exists (gradient_window ++ rest), c. exact Hrun.
Qed.

End FlameReturns.

Section FlameFrames.

Context {image : Type} `{Imaging image} `{Libm}.

(** C7.  For a sine within its bounds, a finite phase and sides between 1
    and 4096, the flame renderer returns.  The layers below the ember are
    rendered first; their result is [composed].  The flicker value is
    [0.45 + 0.55 * sin(2 pi (t + 0.52))].  When it exceeds 0.55, a dot is
    drawn on the ember canvas, blurred, and composited over [composed], and
    the frame is that composite, downscaled and sharpened.  When it does not
    (also when it equals 0.55), nothing is drawn on the canvas, nothing is
    composited, and the frame is [composed] itself, downscaled and
    sharpened. *)
Theorem flame_ember_iff_flicker (size out_size : Z) (t : float) (h : heap image) :
  (forall x, is_finite x = true -> fin 1 (libm_sin x)) ->
  fin 64 t ->
  (0 < size <= 4096)%Z -> (0 < out_size <= 4096)%Z ->
  let flicker := 0.45 + 0.55 * libm_sin (2 * pi * (t + 0.52)) in
  let canvas := Image_new ModeRGBA (size, size) [0; 0; 0; 0]%Z in
  let ex := Z2F size * 0.5 + (Z2F size * 0.05) * libm_sin (2 * pi * (t + 0.12)) in
  let ey := Z2F size * 0.22 + (Z2F size * 0.03) * libm_sin (2 * pi * (t + 0.64)) in
  let r := Z2F size * 0.018 * (0.9 + 0.4 * flicker) in
  let dot := ImageDraw_ellipse canvas (ex - r, ey - r, ex + r, ey + r)
               [255; 255; 255; int_of (140 * flicker)]%Z in
  let ember := Image_filter dot (GaussianBlur (Z2F size * 0.006)) in
  let small im := Image_resize im (out_size, out_size) LANCZOS in
  let sharp im := Image_filter (small im) (UnsharpMask 1.2 160 2) in
  exists d0 composed,
    flame_layers size t h =
      (Ok (length h + length d0)%nat, h ++ d0 ++ [OImage composed]) /\
    ((0.55 <? flicker) = true ->
       render_flame_frame size out_size t h =
         (Ok (length h + length d0 + 5)%nat,
          h ++ d0 ++
            [OImage composed; OImage dot; OImage ember;
             OImage (Image_alpha_composite composed ember);
             OImage (small (Image_alpha_composite composed ember));
             OImage (sharp (Image_alpha_composite composed ember))])) /\
    ((0.55 <? flicker) = false ->
       render_flame_frame size out_size t h =
         (Ok (length h + length d0 + 3)%nat,
          h ++ d0 ++
            [OImage composed; OImage canvas;
             OImage (small composed); OImage (sharp composed)])).
Proof.
  intros Hsin Ht Hsize Hout flicker canvas ex ey r dot ember small sharp.
  assert (Hs : (Z.abs size < 2 ^ 31)%Z) by lia.
  destruct (flame_frame_run size out_size t Hsin Ht Hs h)
    as (rest & composed & Hlayers & Hrun).
  exists (gradient_window size t ++ rest), composed.
  split; [exact Hlayers|].
  rewrite Hrun. unfold ember_on. fold flicker.
  split; intros ->; reflexivity.
Qed.

(** The window cut from the linear gradient always lies inside it.  The
    gradient is resized to [size] by [size + 56]; the window is [size] wide,
    [size] high and starts at a row between 0 and 56, so it ends at row
    [size + 56] at most.  The cropped gradient is the third image the flame
    renderer creates, and it is what both palettes colour. *)
Theorem flame_crop_window (size out_size : Z) (t : float) (h : heap image) :
  (forall x, is_finite x = true -> fin 1 (libm_sin x)) ->
  fin 64 t ->
  (0 < size <= 4096)%Z -> (0 < out_size <= 4096)%Z ->
  exists y rest n,
    (0 <= y <= 56)%Z /\
    render_flame_frame size out_size t h =
      (Ok n,
       h ++ [OImage (Image_linear_gradient ModeL);
             OImage (Image_resize (Image_linear_gradient ModeL)
                       (size, (size + 56)%Z) BICUBIC);
             OImage (Image_crop
                       (Image_resize (Image_linear_gradient ModeL)
                          (size, (size + 56)%Z) BICUBIC)
                       (0%Z, y, size, (y + size)%Z))]
         ++ rest).
Proof.
  intros Hsin Ht Hsize Hout.
  assert (Hs : (Z.abs size < 2 ^ 31)%Z) by lia.
  destruct (flame_frame_window size out_size t Hsin Ht Hs h) as (rest & c & Hrun).
  exists (clamp_int (int_of (28 + 12 * libm_sin (2 * pi * t))) 0 56).
  exists (rest ++ [OImage (sharpened out_size c)]). eexists.
  split; [unfold clamp_int; lia|].
  rewrite Hrun, <- app_assoc. reflexivity.
Qed.

End FlameFrames.


(** A sine to run the renderers with: the polynomial sine, kept within
    [-1, 1], on a finite argument; NaN on any other.  At 0 and at the float
    [2 * pi] it returns what the C library returns. *)
Definition clamped_sine : Libm :=
  {| libm_sin := fun x =>
       if is_finite x then clamp (sine_poly (reduce_phase x)) (-1) 1 else nan;
     libm_cos := fun x =>
       if is_finite x then clamp (sine_poly (reduce_phase (x + pi / 2))) (-1) 1 else nan |}.

Lemma fin_sine_clamp (u : float) : fin 1 (clamp u (-1) 1).
Proof.
  destruct (clamp_cases u (-1) 1 eq_refl) as [-> | [-> | (-> & Hlo & Hhi)]];
    try (apply finb_fin; reflexivity).
  apply ltb_key in Hlo, Hhi.
  destruct Hlo as (_ & Hu & Hlo). destruct Hhi as (_ & _ & Hhi).
  unfold key, number, fin in *.
  change (Prim2SF (-1)) with (S754_finite true 4503599627370496 (-52)) in Hlo.
  change (Prim2SF 1) with (S754_finite false 4503599627370496 (-52)) in Hhi.
  destruct (Prim2SF u) as [s|s| |s m e] eqn:E; [exact I | | congruence |].
  - destruct s; unfold lt3 in *; cbn [rank fst snd] in *; lia.
  - destruct (valid_digits_sf _ _ _ _ E) as [Hd _].
    destruct s; unfold lt3 in *; cbn [rank fst snd mag_le] in *; lia.
Qed.

Lemma clamped_sine_bounded (x : float) :
  is_finite x = true -> fin 1 (@libm_sin clamped_sine x).
Proof. intros Hx. cbn [libm_sin clamped_sine]. rewrite Hx. apply fin_sine_clamp. Qed.

Lemma flame_ember_iff_flicker_witness :
  let Lm := clamped_sine in
  (0.55 <? 0.45 + 0.55 * libm_sin (2 * pi * (0.75 + 0.52))) = true /\
  (exists d0 composed,
     flame_layers 320 0.75 ([] : heap recorded) =
       (Ok (length d0), d0 ++ [OImage composed]) /\
     render_flame_frame 320 64 0.75 ([] : heap recorded) =
       (Ok (length d0 + 5)%nat,
        d0 ++
          [OImage composed; OImage (ember_dot 320 0.75); OImage (ember_layer 320 0.75);
           OImage (Image_alpha_composite composed (ember_layer 320 0.75));
           OImage (downscaled 64 (Image_alpha_composite composed (ember_layer 320 0.75)));
           OImage (sharpened 64 (Image_alpha_composite composed (ember_layer 320 0.75)))])) /\
  (0.55 <? 0.45 + 0.55 * libm_sin (2 * pi * (0 + 0.52))) = false /\
  (exists d0 composed,
     flame_layers 320 0 ([] : heap recorded) =
       (Ok (length d0), d0 ++ [OImage composed]) /\
     render_flame_frame 320 64 0 ([] : heap recorded) =
       (Ok (length d0 + 3)%nat,
        d0 ++
          [OImage composed; OImage (ember_canvas 320);
           OImage (downscaled 64 composed); OImage (sharpened 64 composed)])).
Proof.
  intro Lm.
  assert (Eon : (0.55 <? 0.45 + 0.55 * libm_sin (2 * pi * (0.75 + 0.52))) = true)
    by (vm_compute; reflexivity).
  assert (Eoff : (0.55 <? 0.45 + 0.55 * libm_sin (2 * pi * (0 + 0.52))) = false)
    by (vm_compute; reflexivity).
  split; [exact Eon|]. split; [|split; [exact Eoff|]].
  - destruct (@flame_ember_iff_flicker recorded recorded_imaging Lm 320 64 0.75 []
                clamped_sine_bounded (finb_fin 64 0.75 eq_refl)
                ltac:(lia) ltac:(lia)) as (d0 & composed & Hl & Hon & _).
    exists d0, composed. split; [exact Hl|]. exact (Hon Eon).
  - destruct (@flame_ember_iff_flicker recorded recorded_imaging Lm 320 64 0 []
                clamped_sine_bounded (finb_fin 64 0 eq_refl)
                ltac:(lia) ltac:(lia)) as (d0 & composed & Hl & _ & Hoff).
    exists d0, composed. split; [exact Hl|]. exact (Hoff Eoff).
Defined.

Lemma flame_crop_window_witness :
  let Lm := clamped_sine in
  exists y rest n,
    (0 <= y <= 56)%Z /\
    render_flame_frame 320 64 0.25 ([] : heap recorded) =
      (Ok n,
       [OImage (Image_linear_gradient ModeL);
        OImage (Image_resize (Image_linear_gradient ModeL) (320, (320 + 56))%Z BICUBIC);
        OImage (Image_crop
                  (Image_resize (Image_linear_gradient ModeL) (320, (320 + 56))%Z BICUBIC)
                  (0%Z, y, 320%Z, (y + 320)%Z))]
         ++ rest).
Proof.
  intro Lm.
  apply (@flame_crop_window recorded recorded_imaging Lm 320 64 0.25 []).
  - exact clamped_sine_bounded.
  - apply finb_fin. reflexivity.
  - lia.
  - lia.
Defined.

(** ** The star renderer on a finite phase *)

Section Star.

Context {image : Type} `{Imaging image} `{Libm}.

Variables (size out_size : Z) (t : float).

(** The two pulses and the rotation of lines 230-232. *)
Definition pulse : float := 0.5 + 0.5 * libm_sin (2 * pi * t).
Definition pulse2 : float := 0.5 + 0.5 * libm_sin (2 * pi * (t + 0.27)).
Definition rotation : float := (pi / 10) * libm_sin (2 * pi * (t + 0.10)).

(** The canvas after the six drawing calls of lines 241-263, for given
    values of the two pulses and of the rotation. *)
Definition star_drawing (p p2 rot : float) : image :=
  let fsize := Z2F size in
  let scale := 0.92 + 0.10 * p in
  let cx := fsize * 0.5 in
  let cy := fsize * 0.5 in
  let outer := fsize * 0.25 * scale in
  let inner := fsize * 0.10 * scale in
  let streak_len := outer * (0.95 + 0.18 * p) in
  let streak_w := Z.max 2 (int_of (fsize * 0.010)) in
  let c0 := Image_new ModeRGBA (size, size) [0; 0; 0; 0]%Z in
  let c1 := ImageDraw_polygon c0 (star_polygon cx cy outer inner 4 rot)
              [255; 220; 80; 240]%Z in
  let c2 := ImageDraw_polygon c1
              (star_polygon cx cy (outer * 0.58) (inner * 0.44) 4 rot)
              [255; 255; 255; int_of (150 + 60 * p2)]%Z in
  let c3 := ImageDraw_line c2 (cx - streak_len, cy, cx + streak_len, cy)
              [255; 255; 255; int_of (90 + 80 * p2)]%Z streak_w in
  let c4 := ImageDraw_line c3 (cx, cy - streak_len, cx, cy + streak_len)
              [255; 255; 255; int_of (80 + 70 * p)]%Z streak_w in
  let c5 := ImageDraw_polygon c4
              (star_polygon (cx + fsize * 0.20) (cy - fsize * 0.18)
                 (fsize * 0.085 * (0.85 + 0.22 * (1 - p)))
                 (fsize * 0.030 * (0.85 + 0.22 * (1 - p))) 4 (- rot * 1.3))
              [255; 255; 255; int_of (90 + 80 * p)]%Z in
  ImageDraw_polygon c5
    (star_polygon (cx - fsize * 0.20) (cy + fsize * 0.18)
       (fsize * 0.060 * (0.90 + 0.25 * p2))
       (fsize * 0.022 * (0.90 + 0.25 * p2)) 4 (rot * 1.1))
    [255; 255; 255; int_of (60 + 70 * p2)]%Z.

Definition star_canvas : image := star_drawing pulse pulse2 rotation.

(** The glow of lines 266-269 and the frame of lines 270-273, for a given
    canvas. *)
Definition star_glow_of (canvas : image) : image :=
  let bright :=
    ImageEnhance_Brightness (Image_filter canvas (GaussianBlur (Z2F size * 0.018))) 1.12 in
  Image_putalpha bright (Image_point (Image_getchannel bright BandA) (scaled_table 0.80)).

Definition star_frame_of (canvas : image) : image :=
  Image_filter
    (Image_resize (Image_alpha_composite (star_glow_of canvas) canvas)
       (out_size, out_size) LANCZOS)
    (UnsharpMask 1.0 140 2).

Definition star_frame : image := star_frame_of star_canvas.

Hypothesis sin_bounded : forall x, is_finite x = true -> fin 1 (libm_sin x).
Hypothesis phase_finite : fin 64 t.
Hypothesis size_range : (Z.abs size < 2 ^ 31)%Z.

Lemma render_star_frame_run (h : heap image) :
  exists d,
    length d = 7%nat /\
    render_star_frame size out_size t (h ++ []) =
      (Ok (length h + 7)%nat, h ++ d ++ [OImage star_frame]).
Proof.
  assert (Hfs : fin 32 (Z2F size)) by (apply (fin_Z2F size 31); lia).
  eexists. split; [|
    unfold_render;
    repeat first [image_step | resolve_more];
    instantiate (1 := [_; _; _; _; _; _; _]); reflexivity ].
  reflexivity.
Qed.

End Star.

Section StarFrames.

Context {image : Type} `{Imaging image} `{Libm}.

(** For a sine within its bounds, a finite phase and sides between 1 and
    4096 the star renderer returns.  It adds eight images to the store and
    leaves the rest as it was; the frame is the last of them: the canvas
    with the two stars, the two streaks and the two twinkles drawn on it in
    this order, composited over its glow, resized and sharpened. *)
Theorem render_star_frame_returns (size out_size : Z) (t : float) (h : heap image) :
  (forall x, is_finite x = true -> fin 1 (libm_sin x)) ->
  fin 64 t ->
  (0 < size <= 4096)%Z -> (0 < out_size <= 4096)%Z ->
  exists d,
    length d = 7%nat /\
    render_star_frame size out_size t h =
      (Ok (length h + 7)%nat, h ++ d ++ [OImage (star_frame size out_size t)]).
Proof.
  intros Hsin Ht Hsize Hout.
  assert (Hs : (Z.abs size < 2 ^ 31)%Z) by lia.
  destruct (render_star_frame_run size out_size t Hsin Ht Hs h) as (d & Hd & Hrun).
  rewrite app_nil_r in Hrun. exists d. auto.
Qed.


End StarFrames.

Lemma render_star_frame_returns_witness :
  let Lm := clamped_sine in
  exists d,
    length d = 7%nat /\
    render_star_frame 320 64 0.25 ([] : heap recorded) =
      (Ok 7%nat, d ++ [OImage (star_frame 320 64 0.25)]).
Proof.
  intro Lm.
  apply (@render_star_frame_returns recorded recorded_imaging Lm 320 64 0.25 []).
  - exact clamped_sine_bounded.
  - apply finb_fin. reflexivity.
  - lia.
  - lia.
Defined.


(** ** A phase that is not finite *)

Lemma math_call_infinite (f : float -> float) (t : float) (s : bool) :
  Prim2SF t = S754_infinity s -> math_call f (2 * pi * t) = Raise ValueError.
Proof.
  intros Ht. unfold math_call. rewrite mul_spec, Ht.
  change (Prim2SF (2 * pi)) with (S754_finite false 7074237752028440 (-50)).
  reflexivity.
Qed.

Section InfinitePhase.

Context {image : Type} `{Imaging image} `{Libm}.

(** An infinite phase stops both renderers at their first sinusoid:
    [math.sin] raises [ValueError].  By then the flame renderer has created
    the linear gradient and its resized copy, the star renderer its empty
    canvas (the canvas side is between 1 and 4096, so the library returned
    from both calls); nothing has been drawn, and no earlier object has
    changed. *)
Theorem render_infinite_phase (size out_size : Z) (t : float) (s : bool)
    (h : heap image) :
  (0 < size <= 4096)%Z ->
  Prim2SF t = S754_infinity s ->
  render_flame_frame size out_size t h =
    (Raise ValueError,
     h ++ [OImage (Image_linear_gradient ModeL);
           OImage (Image_resize (Image_linear_gradient ModeL)
                     (size, (size + 56)%Z) BICUBIC)]) /\
  render_star_frame size out_size t h =
    (Raise ValueError, h ++ [OImage (Image_new ModeRGBA (size, size) [0; 0; 0; 0]%Z)]).
Proof.
  intros Hsize Ht.
  replace h with (h ++ []) at 1 3 by apply app_nil_r.
  unfold_render. unfold math_sin.
  split.
  - repeat image_step. rewrite (math_call_infinite _ t s Ht). repeat image_step.
    reflexivity.
  - repeat image_step. rewrite (math_call_infinite _ t s Ht). repeat image_step.
    reflexivity.
Qed.

End InfinitePhase.

Lemma render_infinite_phase_witness :
  let Lm := clamped_sine in
  render_flame_frame 64 32 infinity ([] : heap recorded) =
    (Raise ValueError,
     [OImage (Image_linear_gradient ModeL);
      OImage (Image_resize (Image_linear_gradient ModeL) (64, (64 + 56))%Z BICUBIC)]) /\
  render_star_frame 64 32 infinity ([] : heap recorded) =
    (Raise ValueError, [OImage (Image_new ModeRGBA (64, 64)%Z [0; 0; 0; 0]%Z)]).
Proof.
  intro Lm.
  apply (@render_infinite_phase recorded recorded_imaging Lm 64 32 infinity false []).
  - lia.
  - reflexivity.
Defined.

Section NanPhase.

Context {image : Type} `{Imaging image} `{Libm}.

(** A NaN phase stops the flame renderer at line 140, when the C library's
    sine of NaN is NaN: the wobble is NaN and [int] raises [ValueError].
    Only the linear gradient and its resized copy have been created (the
    canvas side is between 1 and 4096). *)
Theorem render_flame_nan_phase (size out_size : Z) (t : float) (h : heap image) :
  (forall x, Prim2SF x = S754_nan -> Prim2SF (libm_sin x) = S754_nan) ->
  (0 < size <= 4096)%Z ->
  Prim2SF t = S754_nan ->
  render_flame_frame size out_size t h =
    (Raise ValueError,
     h ++ [OImage (Image_linear_gradient ModeL);
           OImage (Image_resize (Image_linear_gradient ModeL)
                     (size, (size + 56)%Z) BICUBIC)]).
Proof.
  intros sin_nan Hsize Ht.
  assert (Hx : Prim2SF (2 * pi * t) = S754_nan).
  { rewrite mul_spec, Ht.
    change (Prim2SF (2 * pi)) with (S754_finite false 7074237752028440 (-50)).
    reflexivity. }
  assert (Hw : math_sin (2 * pi * t) = Ok (libm_sin (2 * pi * t))).
  { unfold math_sin, math_call. rewrite Hx. reflexivity. }
  assert (Hi : py_int (28 + 12 * libm_sin (2 * pi * t)) = Raise ValueError).
  { unfold py_int. rewrite add_spec, mul_spec, (sin_nan _ Hx). reflexivity. }
  replace h with (h ++ []) at 1 by apply app_nil_r.
  unfold_render.
  repeat image_step. rewrite Hw. repeat image_step.
  rewrite true_div_margin. repeat image_step. rewrite Hi. repeat image_step.
  reflexivity.
Qed.

End NanPhase.

Lemma clamped_sine_nan (x : float) :
  Prim2SF x = S754_nan -> Prim2SF (@libm_sin clamped_sine x) = S754_nan.
Proof.
  intros Hx. cbn [libm_sin clamped_sine]. unfold is_finite. rewrite Hx. reflexivity.
Qed.

Lemma render_flame_nan_phase_witness :
  let Lm := clamped_sine in
  render_flame_frame 64 32 nan ([] : heap recorded) =
    (Raise ValueError,
     [OImage (Image_linear_gradient ModeL);
      OImage (Image_resize (Image_linear_gradient ModeL) (64, (64 + 56))%Z BICUBIC)]).
Proof.
  intro Lm.
  apply (@render_flame_nan_phase recorded recorded_imaging Lm 64 32 nan []).
  - exact clamped_sine_nan.
  - lia.
  - reflexivity.
Defined.

(** ** The flame mask *)

Section FlameMask.

Context {image : Type} `{Imaging image} `{Libm}.

Lemma draw_flame_mask_run (size : Z) (t scale y_bias x_bias : float) (h : heap image) :
  (Z.abs size < 2 ^ 31)%Z -> fin 64 t ->
  exists canvas,
    draw_flame_mask size t scale y_bias x_bias (h ++ []) =
      (Ok (length h + 2)%nat,
       h ++ [OImage canvas;
             OImage (Image_filter canvas (GaussianBlur (Z2F size * 0.008)));
             OImage (ImageEnhance_Contrast
                       (Image_filter canvas (GaussianBlur (Z2F size * 0.008))) 1.15)]).
Proof.
  intros size_range phase_finite.
  unfold draw_flame_mask.
  repeat first [image_step | resolve_more].
  eexists. reflexivity.
Qed.

(** [draw_flame_mask] on a canvas side between 1 and 4096.  For a finite
    phase, a positive scale below 4, biases below 2^16 in absolute value and
    a sine within its bounds (arguments for which no ellipse is given a
    negative width or height, which the library would refuse) it returns.
    It adds three images to the store and changes nothing else: the canvas
    it drew on, the blurred canvas and the contrast-enhanced blur, which it
    returns.  On an infinite phase it raises [ValueError] with only the
    empty canvas created. *)
Theorem draw_flame_mask_returns (size : Z) (t scale y_bias x_bias : float)
    (h : heap image) :
  (0 < size <= 4096)%Z ->
  (fin 64 t ->
   (0 <? scale) = true -> fin 2 scale -> fin 16 y_bias -> fin 16 x_bias ->
   (forall x, is_finite x = true -> fin 1 (libm_sin x)) ->
   exists canvas,
     draw_flame_mask size t scale y_bias x_bias h =
       (Ok (length h + 2)%nat,
        h ++ [OImage canvas;
              OImage (Image_filter canvas (GaussianBlur (Z2F size * 0.008)));
              OImage (ImageEnhance_Contrast
                        (Image_filter canvas (GaussianBlur (Z2F size * 0.008))) 1.15)])) /\
  (forall s, Prim2SF t = S754_infinity s ->
     draw_flame_mask size t scale y_bias x_bias h =
       (Raise ValueError, h ++ [OImage (Image_new ModeL (size, size) [0%Z])])).
Proof.
  intros Hsize. split.
  - intros Ht _ _ _ _ _.
    destruct (draw_flame_mask_run size t scale y_bias x_bias h ltac:(lia) Ht)
      as [canvas Hrun].
    rewrite app_nil_r in Hrun. exists canvas. exact Hrun.
  - intros s Ht.
    assert (Hrun : draw_flame_mask size t scale y_bias x_bias (h ++ []) =
              (Raise ValueError, h ++ [OImage (Image_new ModeL (size, size) [0%Z])])).
    { unfold draw_flame_mask, math_sin. repeat image_step.
      rewrite (math_call_infinite _ t s Ht). repeat image_step. reflexivity. }
    rewrite app_nil_r in Hrun. exact Hrun.
Qed.

End FlameMask.

Lemma draw_flame_mask_returns_witness :
  let Lm := clamped_sine in
  (exists canvas,
     draw_flame_mask 320 0.25 0.62 (-6.4) 3.2 ([] : heap recorded) =
       (Ok 2%nat,
        [OImage canvas;
         OImage (Image_filter canvas (GaussianBlur (Z2F 320 * 0.008)));
         OImage (ImageEnhance_Contrast
                   (Image_filter canvas (GaussianBlur (Z2F 320 * 0.008))) 1.15)])) /\
  draw_flame_mask 320 infinity 0.62 (-6.4) 3.2 ([] : heap recorded) =
    (Raise ValueError, [OImage (Image_new ModeL (320, 320)%Z [0%Z])]).
Proof.
  intro Lm. split.
  - apply (@draw_flame_mask_returns recorded recorded_imaging Lm 320 0.25 0.62 (-6.4) 3.2 []).
    + lia.
    + apply finb_fin. reflexivity.
    + reflexivity.
    + apply finb_fin. reflexivity.
    + apply finb_fin. reflexivity.
    + apply finb_fin. reflexivity.
    + exact clamped_sine_bounded.
  - apply (@draw_flame_mask_returns recorded recorded_imaging Lm 320 infinity 0.62 (-6.4) 3.2 []
             ltac:(lia)) with (s := false).
    reflexivity.
Defined.

(** ** The frame sequences: the comprehensions of [main], lines 302-303

    [[render(size, out_size, i / frames) for i in range(frames)]]: the phase
    is computed, the frame rendered, and the reference kept, index after
    index. *)

Fixpoint collect {image A B} (l : list A) (body : A -> M image B) : M image (list B) :=
  match l with
  | [] => ret []
  | a :: l' =>
      let* b := body a in
      let* bs := collect l' body in
      ret (b :: bs)
  end.

Definition render_sequence {image} (render : Z -> Z -> float -> M image loc)
    (frames size out_size : Z) : M image (list loc) :=
  collect (map Z.of_nat (seq 0 (Z.to_nat frames)))
    (fun i => let* t := lift (true_div i frames) in render size out_size t).

Section Sequences.

Context {image : Type}.

Variable render : Z -> Z -> float -> M image loc.
Variables (size out_size : Z).
Variable shape : float -> image -> Prop.

(** What the two renderers have in common: on a finite phase a call returns
    a new image of a known shape, the last object of the store, and a call
    does the same from every store. *)
Hypothesis render_returns : forall t h, fin 64 t ->
  exists d c, shape t c /\
              render size out_size t h =
                (Ok (length h + length d)%nat, h ++ d ++ [OImage c]).
Hypothesis render_same : forall t h1 h2,
  same_run h1 h2 (render size out_size t (h1 ++ [])) (render size out_size t (h2 ++ [])).

(** The frames collected over the indices [idx], started from the store [h]:
    one reference per index, each to the frame the renderer returns for that
    phase from the store [h0]. *)
Lemma collect_frames (frames : Z) (h0 : heap image) :
  forall (idx : list Z) (h : heap image),
  Forall (fun i => (0 <= i < frames)%Z /\ (frames < 2 ^ 31)%Z) idx ->
  exists ls d,
    collect idx (fun i => let* t := lift (true_div i frames) in render size out_size t) h
      = (Ok ls, h ++ d) /\
    Forall2 (fun l i => exists c,
               shape (Z2F i / Z2F frames) c /\
               (h ++ d) !! l = Some (OImage c) /\
               frame_of (render size out_size (Z2F i / Z2F frames) h0) = Ok ((h ++ d) !! l))
            ls idx.
Proof.
  induction idx as [|i idx IH]; intros h Hidx.
  - exists [], []. rewrite app_nil_r. split; [reflexivity | constructor].
  - inversion Hidx as [|? ? [Hi Hn] Hrest]; subst.
    assert (Et : true_div i frames = Ok (Z2F i / Z2F frames)).
    { unfold true_div. destruct (frames =? 0)%Z eqn:E; [lia | reflexivity]. }
    assert (Ht : fin 64 (Z2F i / Z2F frames)).
    { apply (fin_mono 33); [|lia].
      apply (fin_div_int (Z2F i) frames 32 31); try lia.
      apply (fin_Z2F i 31); lia. }
    destruct (render_returns _ h Ht) as (d1 & c & Hc & Hrun).
    destruct (IH (h ++ d1 ++ [OImage c]) Hrest) as (ls & d2 & Hls & Hall).
    assert (Eh : (h ++ d1 ++ [OImage c]) ++ d2 = h ++ (d1 ++ [OImage c] ++ d2))
      by (rewrite <- !app_assoc; reflexivity).
    rewrite Eh in Hls, Hall.
    exists ((length h + length d1)%nat :: ls), (d1 ++ [OImage c] ++ d2).
    split.
    + cbn [collect]. rewrite bind_run. rewrite bind_run, lift_run, Et. cbv beta iota.
      rewrite Hrun, bind_run, Hls. reflexivity.
    + constructor; [|exact Hall].
      assert (Hl : (h ++ d1 ++ [OImage c] ++ d2) !! (length h + length d1)%nat =
                   Some (OImage c)).
      { rewrite lookup_app_r by lia. rewrite lookup_app_r by lia.
        replace (length h + length d1 - length h - length d1)%nat with 0%nat by lia.
        reflexivity. }
      exists c. split; [exact Hc|]. split; [exact Hl|]. rewrite Hl.
      destruct (same_run_independent (render size out_size (Z2F i / Z2F frames))
                  (render_same _) h0 h) as [-> _].
      rewrite Hrun. unfold frame_of. cbn [fst snd].
      rewrite lookup_app_r by lia. rewrite lookup_app_r by lia.
      replace (length h + length d1 - length h - length d1)%nat with 0%nat by lia.
      reflexivity.
Qed.

Lemma render_sequence_frames (frames : Z) (h : heap image) :
  (0 <= frames < 2 ^ 31)%Z ->
  exists ls h',
    render_sequence render frames size out_size h = (Ok ls, h') /\
    length ls = Z.to_nat frames /\
    Forall2 (fun l i => exists c,
               shape (Z2F i / Z2F frames) c /\
               h' !! l = Some (OImage c) /\
               frame_of (render size out_size (Z2F i / Z2F frames) h) = Ok (h' !! l))
            ls (map Z.of_nat (seq 0 (Z.to_nat frames))).
Proof.
  intros Hn.
  destruct (collect_frames frames h (map Z.of_nat (seq 0 (Z.to_nat frames))) h)
    as (ls & d & Hrun & Hall).
  { apply Forall_forall. intros i Hi. apply list_elem_of_In, in_map_iff in Hi.
    destruct Hi as (k & <- & Hk). apply in_seq in Hk. lia. }
  exists ls, (h ++ d). split; [exact Hrun|]. split; [|exact Hall].
  apply Forall2_length in Hall. rewrite Hall, length_map, length_seq. reflexivity.
Qed.

End Sequences.

Section BothSequences.

Context {image : Type} `{Imaging image} `{Libm}.

(** The shape of a flame frame: an image resized to the output size and
    sharpened. *)
Definition flame_shape (out_size : Z) (c : image) : Prop :=
  exists c0, c = sharpened out_size c0.

Lemma flame_sequence (frames size out_size : Z) (h : heap image) :
  (forall x, is_finite x = true -> fin 1 (libm_sin x)) -> (Z.abs size < 2 ^ 31)%Z ->
  (0 <= frames < 2 ^ 31)%Z ->
  exists ls h',
    render_sequence render_flame_frame frames size out_size h = (Ok ls, h') /\
    length ls = Z.to_nat frames /\
    Forall2 (fun l i => exists c,
               flame_shape out_size c /\
               h' !! l = Some (OImage c) /\
               frame_of (render_flame_frame size out_size (Z2F i / Z2F frames) h)
                 = Ok (h' !! l))
            ls (map Z.of_nat (seq 0 (Z.to_nat frames))).
Proof.
  intros Hsin Hsize Hn.
  apply (render_sequence_frames render_flame_frame size out_size
           (fun _ => flame_shape out_size)); [| |exact Hn].
  - intros t h1 Ht.
    destruct (flame_frame_returns size out_size t Hsin Ht Hsize h1) as (d & c & Hrun).
    exists d, (sharpened out_size c). split; [exists c; reflexivity | exact Hrun].
  - intros t h1 h2. apply render_flame_frame_same.
Qed.

(** The comprehensions of [main] for any frame count: with [frames] between
    0 and 2^31 they return exactly [frames] frames and never raise (for a
    sine within its bounds and sides between 1 and 4096), the frame of index
    [i] being the frame the renderer returns at phase [i / frames]: for the
    flame an image resized to the output size and sharpened, for the star
    the frame [star_frame] of that phase.  With [frames = 0] no phase is
    computed and the list is empty. *)
Theorem frame_sequences (frames size out_size : Z) (h : heap image) :
  (forall x, is_finite x = true -> fin 1 (libm_sin x)) ->
  (0 < size <= 4096)%Z -> (0 < out_size <= 4096)%Z ->
  (0 <= frames < 2 ^ 31)%Z ->
  (exists ls h',
     render_sequence render_flame_frame frames size out_size h = (Ok ls, h') /\
     length ls = Z.to_nat frames /\
     Forall2 (fun l i => exists c,
                flame_shape out_size c /\
                h' !! l = Some (OImage c) /\
                frame_of (render_flame_frame size out_size (Z2F i / Z2F frames) h)
                  = Ok (h' !! l))
             ls (map Z.of_nat (seq 0 (Z.to_nat frames)))) /\
  (exists ls h',
     render_sequence render_star_frame frames size out_size h = (Ok ls, h') /\
     length ls = Z.to_nat frames /\
     Forall2 (fun l i => exists c,
                c = star_frame size out_size (Z2F i / Z2F frames) /\
                h' !! l = Some (OImage c) /\
                frame_of (render_star_frame size out_size (Z2F i / Z2F frames) h)
                  = Ok (h' !! l))
             ls (map Z.of_nat (seq 0 (Z.to_nat frames)))).
Proof.
  intros Hsin Hside Hout Hn.
  assert (Hsize : (Z.abs size < 2 ^ 31)%Z) by lia.
  split.
  - apply flame_sequence; assumption.
  - apply (render_sequence_frames render_star_frame size out_size
             (fun t c => c = star_frame size out_size t)); [| |exact Hn].
    + intros t h1 Ht.
      destruct (render_star_frame_run size out_size t Hsin Ht Hsize h1)
        as (d & Hd & Hrun).
      rewrite app_nil_r in Hrun.
      exists d, (star_frame size out_size t). split; [reflexivity|].
      rewrite Hd. exact Hrun.
    + intros t h1 h2. apply render_star_frame_same.
Qed.


End BothSequences.


Lemma frame_sequences_witness :
  let Lm := clamped_sine in
  (exists ls h',
     render_sequence render_flame_frame 24 320 64 ([] : heap recorded) = (Ok ls, h') /\
     length ls = Z.to_nat 24 /\
     Forall2 (fun l i => exists c,
                flame_shape 64 c /\
                h' !! l = Some (OImage c) /\
                frame_of (render_flame_frame 320 64 (Z2F i / Z2F 24) []) = Ok (h' !! l))
             ls (map Z.of_nat (seq 0 (Z.to_nat 24)))) /\
  (exists ls h',
     render_sequence render_star_frame 24 320 64 ([] : heap recorded) = (Ok ls, h') /\
     length ls = Z.to_nat 24 /\
     Forall2 (fun l i => exists c,
                c = star_frame 320 64 (Z2F i / Z2F 24) /\
                h' !! l = Some (OImage c) /\
                frame_of (render_star_frame 320 64 (Z2F i / Z2F 24) []) = Ok (h' !! l))
             ls (map Z.of_nat (seq 0 (Z.to_nat 24)))).
Proof.
  intro Lm.
  apply (@frame_sequences recorded recorded_imaging Lm 24 320 64 []).
  - exact clamped_sine_bounded.
  - lia.
  - lia.
  - lia.
Defined.

(** ** What [rgba_to_gif_frame] leaves alone *)

Lemma paste_all_length (mix : Z -> Z -> Z -> Z) (color : Z) (old mask : list Z) :
  length (paste_all mix color old mask) = length old.
Proof.
  revert mask. induction old as [|o old IH]; intros [|m mask]; simpl; auto.
Qed.

(** A pixel whose alpha is above the threshold keeps the index the palette
    conversion gave it; the palette, the size and the number of indices are
    those of the conversion, and the frame declares index 0 transparent. *)
Theorem gif_frame_opaque_pixels (quantize : rgba_frame -> Z -> list rgb * list Z)
    (mix : Z -> Z -> Z -> Z) (img : rgba_frame) (alpha_threshold colors : Z)
    (i : nat) (p : pixel) (k : Z) :
  frame_pixels img !! i = Some p ->
  (quantize img colors).2 !! i = Some k ->
  (alpha_threshold < alpha_of p)%Z ->
  let out := rgba_to_gif_frame quantize mix img alpha_threshold colors in
  palette_indices out !! i = Some k /\
  length (palette_indices out) = length (quantize img colors).2 /\
  palette_colors out = (quantize img colors).1 /\
  palette_size out = frame_size img /\
  info_transparency out = Some 0%Z.
Proof.
  intros Hp Hk Ha out. split.
  - unfold out. rewrite (gif_frame_index quantize mix img alpha_threshold colors i p k Hp Hk).
    apply Z.leb_gt in Ha. rewrite Ha. reflexivity.
  - unfold out, rgba_to_gif_frame, convert_adaptive.
    destruct (quantize img colors) as [pal idx]. simpl.
    rewrite paste_all_length. auto.
Qed.

Lemma gif_frame_opaque_pixels_witness :
  let out := rgba_to_gif_frame first_seen_palette (fun c _ _ => c) hole_and_dot 8 128 in
  palette_indices out !! 1%nat = Some 1%Z /\
  length (palette_indices out) = length (first_seen_palette hole_and_dot 128).2 /\
  palette_colors out = (first_seen_palette hole_and_dot 128).1 /\
  palette_size out = frame_size hole_and_dot /\
  info_transparency out = Some 0%Z.
Proof.
  apply (gif_frame_opaque_pixels first_seen_palette (fun c _ _ => c) hole_and_dot 8 128
           1%nat (255, 0, 0, 255)%Z 1%Z).
  - reflexivity.
  - reflexivity.
  - simpl. lia.
Defined.
